(** * The speckle-py object serializer: decomposition and recomposition

    A shallow embedding of [speckle/serialization/base_object_serializer.py]:
    [hash_obj], [BaseObjectSerializer.write_json], [traverse_base],
    [traverse_value], [detach_helper], [read_json], [recompose_base] and
    [handle_value], together with the parts of the Python runtime they lean
    on (truthiness, [isinstance], [json.dumps], [json.loads],
    [hashlib.sha256]). *)

From Stdlib Require Import ZArith Lia Bool List Ascii String.
From Stdlib Require Import Floats.PrimFloat.
From stdpp Require Import base list.
Import ListNotations.

Set Warnings "-register-all".

Local Open Scope string_scope.
Local Open Scope list_scope.
Local Open Scope Z_scope.

(** ** hashlib.sha256 (FIPS 180-4), on bytes held as [Z] *)

Module Sha256.

Definition w32 (x : Z) : Z := x mod 2 ^ 32.

Definition add32 (x y : Z) : Z := w32 (x + y).

Definition rotr (n x : Z) : Z :=
  Z.lor (Z.shiftr x n) (w32 (Z.shiftl x (32 - n))).

Definition Ch (x y z : Z) : Z :=
  Z.lxor (Z.land x y) (Z.land (Z.lxor x (2 ^ 32 - 1)) z).

Definition Maj (x y z : Z) : Z :=
  Z.lxor (Z.lxor (Z.land x y) (Z.land x z)) (Z.land y z).

Definition Sigma0 (x : Z) : Z := Z.lxor (Z.lxor (rotr 2 x) (rotr 13 x)) (rotr 22 x).
Definition Sigma1 (x : Z) : Z := Z.lxor (Z.lxor (rotr 6 x) (rotr 11 x)) (rotr 25 x).
Definition sigma0 (x : Z) : Z := Z.lxor (Z.lxor (rotr 7 x) (rotr 18 x)) (Z.shiftr x 3).
Definition sigma1 (x : Z) : Z := Z.lxor (Z.lxor (rotr 17 x) (rotr 19 x)) (Z.shiftr x 10).

(** The constants are defined the way the standard defines them: the first
    32 bits of the fractional parts of the square roots (initial hash value)
    and cube roots (round constants) of the first primes. *)

Definition is_prime (n : nat) : bool :=
  (2 <=? n)%nat && forallb (fun d => negb (n mod d =? 0)%nat) (seq 2 (n - 2)).

Definition first_primes (count : nat) : list Z :=
  map Z.of_nat (firstn count (List.filter is_prime (List.seq 2 320))).

(** Largest [r] in [[lo, lo + 2^bits)] with [r^3 <= n], by bisection. *)
Fixpoint cbrt_bits (bits : nat) (n r : Z) : Z :=
  match bits with
  | O => r
  | S b =>
      let r' := r + 2 ^ Z.of_nat b in
      cbrt_bits b n (if r' * r' * r' <=? n then r' else r)
  end.

Definition frac_sqrt32 (p : Z) : Z := w32 (Z.sqrt (p * 2 ^ 64)).
Definition frac_cbrt32 (p : Z) : Z := w32 (cbrt_bits 40 (p * 2 ^ 96) 0).

Definition H0 : list Z := Eval vm_compute in map frac_sqrt32 (first_primes 8).
Definition K : list Z := Eval vm_compute in map frac_cbrt32 (first_primes 64).

(** Padding: a [1] bit, zeros up to 56 mod 64, the bit length on 8 bytes. *)
Definition be_bytes (width : nat) (x : Z) : list Z :=
  map (fun i => Z.shiftr x (8 * Z.of_nat i) mod 256) (rev (seq 0 width)).

Definition pad (msg : list Z) : list Z :=
  let len := Z.of_nat (List.length msg) in
  let zeros := Z.to_nat ((55 - len) mod 64) in
  msg ++ [128] ++ repeat 0 zeros ++ be_bytes 8 (8 * len).

Fixpoint be_words (fuel : nat) (bs : list Z) : list Z :=
  match fuel, bs with
  | S f, b0 :: b1 :: b2 :: b3 :: rest =>
      (((b0 * 256 + b1) * 256 + b2) * 256 + b3) :: be_words f rest
  | _, _ => []
  end.

Fixpoint chunks16 (fuel : nat) (ws : list Z) : list (list Z) :=
  match fuel, ws with
  | S f, _ :: _ => firstn 16 ws :: chunks16 f (skipn 16 ws)
  | _, _ => []
  end.

(** Message schedule: [w] holds the words computed so far, newest first. *)
Fixpoint schedule (n : nat) (w : list Z) : list Z :=
  match n with
  | O => w
  | S n' =>
      let at_ i := nth i w 0 in
      let next := add32 (add32 (sigma1 (at_ 1%nat)) (at_ 6%nat))
                        (add32 (sigma0 (at_ 14%nat)) (at_ 15%nat)) in
      schedule n' (next :: w)
  end.

Record regs := Regs { ra : Z; rb : Z; rc : Z; rd : Z; re : Z; rf : Z; rg : Z; rh : Z }.

Definition round (s : regs) (kw : Z * Z) : regs :=
  let '(k, w) := kw in
  let t1 := add32 (add32 (add32 (add32 (rh s) (Sigma1 (re s))) (Ch (re s) (rf s) (rg s))) k) w in
  let t2 := add32 (Sigma0 (ra s)) (Maj (ra s) (rb s) (rc s)) in
  Regs (add32 t1 t2) (ra s) (rb s) (rc s) (add32 (rd s) t1) (re s) (rf s) (rg s).

Definition regs_of (l : list Z) : regs :=
  Regs (nth 0 l 0) (nth 1 l 0) (nth 2 l 0) (nth 3 l 0)
       (nth 4 l 0) (nth 5 l 0) (nth 6 l 0) (nth 7 l 0).

Definition regs_list (s : regs) : list Z :=
  [ra s; rb s; rc s; rd s; re s; rf s; rg s; rh s].

Definition compress (h : list Z) (block : list Z) : list Z :=
  let w := rev (schedule 48 (rev block)) in
  let s := fold_left round (combine K w) (regs_of h) in
  map (fun p => add32 (fst p) (snd p)) (combine h (regs_list s)).

Definition digest (msg : list Z) : list Z :=
  let bs := pad msg in
  let ws := be_words (List.length bs) bs in
  let h := fold_left compress (chunks16 (List.length ws) ws) H0 in
  flat_map (be_bytes 4) h.

Definition hex_digit (d : Z) : ascii :=
  ascii_of_nat (Z.to_nat (if d <? 10 then 48 + d else 87 + d)).

Fixpoint hex_of_bytes (bs : list Z) : string :=
  match bs with
  | [] => EmptyString
  | b :: rest => String (hex_digit (b / 16)) (String (hex_digit (b mod 16)) (hex_of_bytes rest))
  end.

Fixpoint bytes_of_string (s : string) : list Z :=
  match s with
  | EmptyString => []
  | String c rest => Z.of_nat (nat_of_ascii c) :: bytes_of_string rest
  end.

(** [hashlib.sha256(data).hexdigest()] *)
Definition hexdigest (data : string) : string :=
  hex_of_bytes (digest (bytes_of_string data)).

End Sha256.

Example sha256_abc :
  Sha256.hexdigest "abc"
  = "ba7816bf8f01cfea414140de5dae2223b00361a396177a9cb410ff61f20015ad".
Proof. vm_compute. reflexivity. Qed.

Example sha256_empty :
  Sha256.hexdigest ""
  = "e3b0c44298fc1c149afbf4c8996fb92427ae41e4649b934ca495991b7852b855".
Proof. vm_compute. reflexivity. Qed.

(** ** Python values

    Dictionaries are mutable objects: a [VDict] is a reference into the heap,
    so that two places holding the same dictionary see each other's updates.
    Lists are rebuilt, never updated in place, by the serializer, and are
    carried by value; [seq_kind] keeps apart what [isinstance] keeps apart. *)

Definition loc := nat.

Inductive seq_kind := KList | KTuple | KSet.

Inductive value : Type :=
| VNone
| VBool (b : bool)
| VInt (z : Z)
| VFloat (f : float)
| VStr (s : string)
| VSeq (k : seq_kind) (xs : list value)
| VDict (l : loc)
| VBase (members : list (string * value)) (totalChildrenCount : option nat)
| VOpaque (flat : option value) (text : string).

(** A dictionary's entries, in insertion order. *)
Abbreviation entries := (list (string * value)) (only parsing).

Abbreviation heap := (list (list (string * value))) (only parsing).

(** [PRIMITIVES = (int, float, str, bool)]; [bool] is a subclass of [int]. *)
Definition is_primitive (v : value) : bool :=
  match v with
  | VBool _ | VInt _ | VFloat _ | VStr _ => true
  | _ => false
  end.

Definition is_base (v : value) : bool :=
  match v with VBase _ _ => true | _ => false end.

(** *** Insertion-ordered dictionaries *)

Section Dict.
Context {A : Type}.

Fixpoint dict_get (k : string) (d : list (string * A)) : option A :=
  match d with
  | [] => None
  | (k', v) :: rest => if String.eqb k k' then Some v else dict_get k rest
  end.

(** [d[k] = v]: an existing key keeps its position, a new one goes last. *)
Fixpoint dict_set (k : string) (v : A) (d : list (string * A)) : list (string * A) :=
  match d with
  | [] => [(k, v)]
  | (k', v') :: rest =>
      if String.eqb k k' then (k, v) :: rest else (k', v') :: dict_set k v rest
  end.

Fixpoint dict_del (k : string) (d : list (string * A)) : list (string * A) :=
  match d with
  | [] => []
  | (k', v') :: rest =>
      if String.eqb k k' then rest else (k', v') :: dict_del k rest
  end.

Definition dict_keys (d : list (string * A)) : list string := map fst d.

Definition dict_has (k : string) (d : list (string * A)) : bool :=
  match dict_get k d with Some _ => true | None => false end.

End Dict.

(** *** The heap of dictionary objects *)

Definition cell (h : heap) (l : loc) : entries :=
  match h !! l with Some d => d | None => [] end.

Definition heap_alloc (d : entries) (h : heap) : loc * heap :=
  (List.length h, h ++ [d]).

Definition heap_store (l : loc) (d : entries) (h : heap) : heap := <[l := d]> h.

(** *** Truthiness: [bool(v)]

    [None], [False], zero, the empty string and empty containers are falsy.
    A Base object and an opaque object define neither [__bool__] nor
    [__len__] in this embedding and are truthy. *)
Definition truthy (h : heap) (v : value) : bool :=
  match v with
  | VNone => false
  | VBool b => b
  | VInt z => negb (z =? 0)
  | VFloat f => negb (PrimFloat.eqb f PrimFloat.zero)
  | VStr s => negb (String.eqb s "")
  | VSeq _ xs => match xs with [] => false | _ => true end
  | VDict l => match cell h l with [] => false | _ => true end
  | VBase _ _ => true
  | VOpaque _ _ => true
  end.

(** [s.startswith(p)] *)
Definition startswith (p s : string) : bool := String.prefix p s.

(** [str(n)] for an integer. *)
Fixpoint digits_of_pos (fuel : nat) (n : Z) (acc : string) : string :=
  match fuel with
  | O => acc
  | S f =>
      let acc' := String (ascii_of_nat (Z.to_nat (48 + n mod 10))) acc in
      if n <? 10 then acc' else digits_of_pos f (n / 10) acc'
  end.

Definition str_of_Z (z : Z) : string :=
  if z <? 0 then String "-" (digits_of_pos (S (Z.to_nat (Z.log2 (- z)))) (- z) "")
  else digits_of_pos (S (Z.to_nat (Z.log2 z))) z "".

Example str_of_Z_samples :
  map str_of_Z [0; 7; 10; 1234567890123; -1; -4096]
  = ["0"; "7"; "10"; "1234567890123"; "-1"; "-4096"].
Proof. vm_compute. reflexivity. Qed.

(** ** Contents: values with their dictionaries read out of the heap *)

Inductive content : Type :=
| CNone
| CBool (b : bool)
| CInt (z : Z)
| CFloat (f : float)
| CStr (s : string)
| CSeq (k : seq_kind) (xs : list content)
| CDict (kvs : list (string * content))
| CBase (members : list (string * content)) (totalChildrenCount : option nat)
| COpaque (flat : option content) (text : string).

Fixpoint option_all {A B : Type} (f : A -> option B) (xs : list A) : option (list B) :=
  match xs with
  | [] => Some []
  | x :: r =>
      match f x, option_all f r with
      | Some c, Some cs => Some (c :: cs)
      | _, _ => None
      end
  end.

Fixpoint option_fields {A B : Type} (f : A -> option B) (kvs : list (string * A))
    : option (list (string * B)) :=
  match kvs with
  | [] => Some []
  | (k, x) :: r =>
      match f x, option_fields f r with
      | Some c, Some cs => Some ((k, c) :: cs)
      | _, _ => None
      end
  end.

(** [snapshot fuel h v] reads [v] out of heap [h]; [None] when the nesting
    is deeper than [fuel] (a cyclic dictionary has no snapshot). *)
Fixpoint snapshot (fuel : nat) (h : heap) (v : value) : option content :=
  match fuel with
  | O => None
  | S f =>
      match v with
      | VNone => Some CNone
      | VBool b => Some (CBool b)
      | VInt z => Some (CInt z)
      | VFloat x => Some (CFloat x)
      | VStr s => Some (CStr s)
      | VSeq k xs => option_map (CSeq k) (option_all (snapshot f h) xs)
      | VDict l => option_map CDict (option_fields (snapshot f h) (cell h l))
      | VBase ms hint =>
          option_map (fun cs => CBase cs hint) (option_fields (snapshot f h) ms)
      | VOpaque None text => Some (COpaque None text)
      | VOpaque (Some d) text =>
          option_map (fun c => COpaque (Some c) text) (snapshot f h d)
      end
  end.

Fixpoint alloc_many {A B : Type} (f : A -> heap -> B * heap) (xs : list A) (h : heap)
    : list B * heap :=
  match xs with
  | [] => ([], h)
  | x :: r =>
      let '(v, h1) := f x h in
      let '(vs, h2) := alloc_many f r h1 in
      (v :: vs, h2)
  end.

Fixpoint alloc_fields {A B : Type} (f : A -> heap -> B * heap) (kvs : list (string * A))
    (h : heap) : list (string * B) * heap :=
  match kvs with
  | [] => ([], h)
  | (k, x) :: r =>
      let '(v, h1) := f x h in
      let '(vs, h2) := alloc_fields f r h1 in
      ((k, v) :: vs, h2)
  end.

(** [alloc_content c h] builds [c] out of fresh dictionaries, children first. *)
Fixpoint alloc_content (c : content) (h : heap) : value * heap :=
  match c with
  | CNone => (VNone, h)
  | CBool b => (VBool b, h)
  | CInt z => (VInt z, h)
  | CFloat x => (VFloat x, h)
  | CStr s => (VStr s, h)
  | CSeq k xs => let '(vs, h1) := alloc_many alloc_content xs h in (VSeq k vs, h1)
  | CDict kvs =>
      let '(es, h1) := alloc_fields alloc_content kvs h in
      let '(l, h2) := heap_alloc es h1 in
      (VDict l, h2)
  | CBase ms hint =>
      let '(es, h1) := alloc_fields alloc_content ms h in (VBase es hint, h1)
  | COpaque None text => (VOpaque None text, h)
  | COpaque (Some d) text =>
      let '(v, h1) := alloc_content d h in (VOpaque (Some v) text, h1)
  end.

(** ** The json module *)

(** [float.__repr__] and [float(text)] belong to the interpreter; the
    embedding takes them as an interface. *)
Class FloatText := {
  float_repr : float -> string;
  float_of_text : string -> float
}.

Notation "a +++ b" := (String.append a b) (at level 60, right associativity).

Module Json.

Definition dquote : ascii := ascii_of_nat 34.
Definition bslash : ascii := ascii_of_nat 92.

Definition code (c : ascii) : Z := Z.of_nat (nat_of_ascii c).

Definition str1 (c : ascii) : string := String c EmptyString.

(** [ensure_ascii=True]: the quote, the backslash and everything outside
    the printable ASCII range are escaped. *)
Definition escape_char (c : ascii) : string :=
  let n := code c in
  if n =? 34 then String bslash (str1 dquote)
  else if n =? 92 then String bslash (str1 bslash)
  else if n =? 10 then String bslash "n"
  else if n =? 13 then String bslash "r"
  else if n =? 9 then String bslash "t"
  else if n =? 12 then String bslash "f"
  else if n =? 8 then String bslash "b"
  else if (n <? 32) || (126 <? n) then
    String bslash
      (String "u" (String "0" (String "0"
        (String (Sha256.hex_digit (n / 16)) (str1 (Sha256.hex_digit (n mod 16)))))))
  else str1 c.

Fixpoint escape (s : string) : string :=
  match s with
  | EmptyString => EmptyString
  | String c r => escape_char c +++ escape r
  end.

Definition quoted (s : string) : string :=
  String dquote (escape s +++ str1 dquote).

Definition float_text `{FloatText} (x : float) : string :=
  if PrimFloat.is_nan x then "NaN"
  else if PrimFloat.is_infinity x then
    (if PrimFloat.ltb x PrimFloat.zero then "-Infinity" else "Infinity")
  else float_repr x.

Fixpoint text_items (f : content -> option string) (xs : list content) : option string :=
  match xs with
  | [] => Some "]"
  | x :: r =>
      match f x, text_items f r with
      | Some t, Some rest => Some (", " +++ t +++ rest)
      | _, _ => None
      end
  end.

Fixpoint text_members (f : content -> option string) (kvs : list (string * content))
    : option string :=
  match kvs with
  | [] => Some "}"
  | (k, x) :: r =>
      match f x, text_members f r with
      | Some t, Some rest => Some (", " +++ quoted k +++ ": " +++ t +++ rest)
      | _, _ => None
      end
  end.

(** [json.dumps] on a content, with the default separators; [None] is the
    [TypeError] raised for an object that is not JSON serializable. *)
Fixpoint text `{FloatText} (c : content) : option string :=
  match c with
  | CNone => Some "null"
  | CBool true => Some "true"
  | CBool false => Some "false"
  | CInt z => Some (str_of_Z z)
  | CFloat x => Some (float_text x)
  | CStr s => Some (quoted s)
  | CSeq KSet _ => None
  | CSeq _ [] => Some "[]"
  | CSeq _ (x :: r) =>
      match text x, text_items text r with
      | Some t, Some rest => Some ("[" +++ t +++ rest)
      | _, _ => None
      end
  | CDict [] => Some "{}"
  | CDict ((k, x) :: r) =>
      match text x, text_members text r with
      | Some t, Some rest => Some ("{" +++ quoted k +++ ": " +++ t +++ rest)
      | _, _ => None
      end
  | CBase _ _ => None
  | COpaque _ _ => None
  end.

End Json.

(** *** json.loads *)

Module JsonParse.
Import Json.

Definition is_ws (c : ascii) : bool :=
  let n := code c in (n =? 32) || (n =? 9) || (n =? 10) || (n =? 13).

Fixpoint skip_ws (s : string) : string :=
  match s with
  | String c r => if is_ws c then skip_ws r else s
  | EmptyString => s
  end.

Definition is_digit (c : ascii) : bool :=
  let n := code c in (48 <=? n) && (n <=? 57).

Definition hex_value (c : ascii) : option Z :=
  let n := code c in
  if (48 <=? n) && (n <=? 57) then Some (n - 48)
  else if (97 <=? n) && (n <=? 102) then Some (n - 87)
  else if (65 <=? n) && (n <=? 70) then Some (n - 55)
  else None.

Definition unescape (c : ascii) : option ascii :=
  let n := code c in
  if n =? 34 then Some dquote
  else if n =? 92 then Some bslash
  else if n =? 47 then Some "/"%char
  else if n =? 110 then Some (ascii_of_nat 10)
  else if n =? 114 then Some (ascii_of_nat 13)
  else if n =? 116 then Some (ascii_of_nat 9)
  else if n =? 102 then Some (ascii_of_nat 12)
  else if n =? 98 then Some (ascii_of_nat 8)
  else None.

Definition cons_char (c : ascii) (p : option (string * string)) : option (string * string) :=
  match p with
  | Some (s, rest) => Some (String c s, rest)
  | None => None
  end.

(** The characters of a string literal up to its closing quote. Strings
    are held over code points below 256: an escape naming a larger one has
    no counterpart here and is refused. *)
Fixpoint parse_chars (s : string) : option (string * string) :=
  match s with
  | EmptyString => None
  | String c r =>
      if code c =? 34 then Some (EmptyString, r)
      else if code c =? 92 then
        match r with
        | String e r1 =>
            if code e =? 117 then
              match r1 with
              | String a (String b (String x (String y r2))) =>
                  match hex_value a, hex_value b, hex_value x, hex_value y with
                  | Some 0, Some 0, Some hi, Some lo =>
                      cons_char (ascii_of_nat (Z.to_nat (hi * 16 + lo))) (parse_chars r2)
                  | _, _, _, _ => None
                  end
              | _ => None
              end
            else
              match unescape e with
              | Some ch => cons_char ch (parse_chars r1)
              | None => None
              end
        | EmptyString => None
        end
      else if code c <? 32 then None
      else cons_char c (parse_chars r)
  end.

Fixpoint span_digits (s : string) : string * string :=
  match s with
  | String c r =>
      if is_digit c then let '(d, rest) := span_digits r in (String c d, rest)
      else (EmptyString, s)
  | EmptyString => (EmptyString, s)
  end.

Fixpoint Z_of_digits (s : string) (acc : Z) : Z :=
  match s with
  | String c r => Z_of_digits r (acc * 10 + (code c - 48))
  | EmptyString => acc
  end.

(** The integer part of a number: a single zero, or digits that do not
    start with a zero. *)
Definition span_int (s : string) : option (string * string) :=
  match span_digits s with
  | (EmptyString, _) => None
  | (String c EmptyString, rest) => Some (str1 c, rest)
  | (String c d, rest) =>
      if code c =? 48 then Some ("0", d +++ rest) else Some (String c d, rest)
  end.

Definition span_frac (s : string) : string * string :=
  match s with
  | String c r =>
      if code c =? 46 then
        match span_digits r with
        | (EmptyString, _) => (EmptyString, s)
        | (d, rest) => (String c d, rest)
        end
      else (EmptyString, s)
  | EmptyString => (EmptyString, s)
  end.

Definition span_exp (s : string) : string * string :=
  match s with
  | String c r =>
      if (code c =? 101) || (code c =? 69) then
        let '(sign, r1) :=
          match r with
          | String g r' =>
              if (code g =? 43) || (code g =? 45) then (str1 g, r') else (EmptyString, r)
          | EmptyString => (EmptyString, r)
          end in
        match span_digits r1 with
        | (EmptyString, _) => (EmptyString, s)
        | (d, rest) => (String c (sign +++ d), rest)
        end
      else (EmptyString, s)
  | EmptyString => (EmptyString, s)
  end.

Definition parse_number `{FloatText} (s : string) : option (content * string) :=
  let '(neg, body) :=
    match s with
    | String c r => if code c =? 45 then (true, r) else (false, s)
    | EmptyString => (false, s)
    end in
  match span_int body with
  | None => None
  | Some (int_part, r0) =>
      let '(frac, r1) := span_frac r0 in
      let '(exp, r2) := span_exp r1 in
      match frac, exp with
      | EmptyString, EmptyString =>
          let n := Z_of_digits int_part 0 in
          Some (CInt (if neg then - n else n), r0)
      | _, _ =>
          let tok := (if neg then "-" else "") +++ int_part +++ frac +++ exp in
          Some (CFloat (float_of_text tok), r2)
      end
  end.

Definition strip_prefix (p s : string) : option string :=
  if String.prefix p s
  then Some (String.substring (String.length p) (String.length s - String.length p) s)
  else None.

Definition parse_literal (s : string) : option (content * string) :=
  match strip_prefix "null" s with
  | Some r => Some (CNone, r)
  | None =>
  match strip_prefix "true" s with
  | Some r => Some (CBool true, r)
  | None =>
  match strip_prefix "false" s with
  | Some r => Some (CBool false, r)
  | None =>
  match strip_prefix "NaN" s with
  | Some r => Some (CFloat PrimFloat.nan, r)
  | None =>
  match strip_prefix "Infinity" s with
  | Some r => Some (CFloat PrimFloat.infinity, r)
  | None =>
  match strip_prefix "-Infinity" s with
  | Some r => Some (CFloat PrimFloat.neg_infinity, r)
  | None => None
  end end end end end end.

(** [dict(pairs)]: a repeated key keeps its first position and its last value. *)
Definition dict_of_pairs (kvs : list (string * content)) : list (string * content) :=
  fold_left (fun d kv => dict_set (fst kv) (snd kv) d) kvs [].

Fixpoint parse_value `{FloatText} (fuel : nat) (s : string) : option (content * string) :=
  match fuel with
  | O => None
  | S f =>
      match s with
      | EmptyString => None
      | String c r =>
          if code c =? 34 then
            match parse_chars r with
            | Some (str, rest) => Some (CStr str, rest)
            | None => None
            end
          else if code c =? 91 then
            match skip_ws r with
            | String c1 r1 =>
                if code c1 =? 93 then Some (CSeq KList [], r1)
                else
                  match parse_elements f (skip_ws r) with
                  | Some (xs, rest) => Some (CSeq KList xs, rest)
                  | None => None
                  end
            | EmptyString => None
            end
          else if code c =? 123 then
            match skip_ws r with
            | String c1 r1 =>
                if code c1 =? 125 then Some (CDict [], r1)
                else
                  match parse_members f (skip_ws r) with
                  | Some (kvs, rest) => Some (CDict (dict_of_pairs kvs), rest)
                  | None => None
                  end
            | EmptyString => None
            end
          else
            match parse_literal s with
            | Some p => Some p
            | None => parse_number s
            end
      end
  end
with parse_elements `{FloatText} (fuel : nat) (s : string) : option (list content * string) :=
  match fuel with
  | O => None
  | S f =>
      match parse_value f s with
      | Some (x, r) =>
          match skip_ws r with
          | String c r1 =>
              if code c =? 44 then
                match parse_elements f (skip_ws r1) with
                | Some (xs, rest) => Some (x :: xs, rest)
                | None => None
                end
              else if code c =? 93 then Some ([x], r1)
              else None
          | EmptyString => None
          end
      | None => None
      end
  end
with parse_members `{FloatText} (fuel : nat) (s : string) : option (list (string * content) * string) :=
  match fuel with
  | O => None
  | S f =>
      match s with
      | String q r =>
          if code q =? 34 then
            match parse_chars r with
            | Some (k, r0) =>
                match skip_ws r0 with
                | String colon r1 =>
                    if code colon =? 58 then
                      match parse_value f (skip_ws r1) with
                      | Some (x, r2) =>
                          match skip_ws r2 with
                          | String c r3 =>
                              if code c =? 44 then
                                match parse_members f (skip_ws r3) with
                                | Some (kvs, rest) => Some ((k, x) :: kvs, rest)
                                | None => None
                                end
                              else if code c =? 125 then Some ([(k, x)], r3)
                              else None
                          | EmptyString => None
                          end
                      | None => None
                      end
                    else None
                | EmptyString => None
                end
            | None => None
            end
          else None
      | EmptyString => None
      end
  end.

(** [json.loads]: one value, surrounded by optional whitespace. *)
Definition loads `{FloatText} (s : string) : option content :=
  match parse_value (S (String.length s)) (skip_ws s) with
  | Some (c, rest) =>
      match skip_ws rest with
      | EmptyString => Some c
      | _ => None
      end
  | None => None
  end.

End JsonParse.

(** ** Transports

    Modelled from the spec: [AbstractTransport] is not part of the
    serializer's file. A write-sink accepts [(hash, encoded_record)]; a
    read-source accepts a hash, returns the encoded record or nothing, and
    exposes an identifying name. The model keeps every call: [saved] is the
    sequence of [save_object] calls, [fetched] the sequence of [get_object]
    calls; a lookup returns what was saved last under the id. *)

Record transport := Transport {
  name : string;
  saved : list (string * string);
  fetched : list string
}.

Definition save_object (id serialized_object : string) (t : transport) : transport :=
  Transport (name t) (saved t ++ [(id, serialized_object)]) (fetched t).

Definition get_object (id : string) (t : transport) : option string * transport :=
  (dict_get id (rev (saved t)), Transport (name t) (saved t) (fetched t ++ [id])).

(** ** The serializer and the store it works in

    [detach_lineage], [lineage], [family_tree] and [closure_table] are the
    serializer's fields. [transports] holds the transport objects;
    [write_transports] and [read_transport] refer to them by position, so one
    transport can be written and read. [uuid_source] is the sequence of
    tokens [uuid4().hex] returns, [uuid_count] how many were drawn. *)

Record state := State {
  heap_of : heap;
  transports : list transport;
  write_transports : list nat;
  read_transport : option nat;
  detach_lineage : list bool;
  lineage : list string;
  family_tree : list (string * list (string * Z));
  closure_table : list (string * loc);
  uuid_source : nat -> string;
  uuid_count : nat
}.

Definition with_heap (f : heap -> heap) (s : state) : state :=
  State (f (heap_of s)) (transports s) (write_transports s) (read_transport s)
    (detach_lineage s) (lineage s) (family_tree s) (closure_table s)
    (uuid_source s) (uuid_count s).

Definition with_transports (f : list transport -> list transport) (s : state) : state :=
  State (heap_of s) (f (transports s)) (write_transports s) (read_transport s)
    (detach_lineage s) (lineage s) (family_tree s) (closure_table s)
    (uuid_source s) (uuid_count s).

Definition with_detach_lineage (f : list bool -> list bool) (s : state) : state :=
  State (heap_of s) (transports s) (write_transports s) (read_transport s)
    (f (detach_lineage s)) (lineage s) (family_tree s) (closure_table s)
    (uuid_source s) (uuid_count s).

Definition with_lineage (f : list string -> list string) (s : state) : state :=
  State (heap_of s) (transports s) (write_transports s) (read_transport s)
    (detach_lineage s) (f (lineage s)) (family_tree s) (closure_table s)
    (uuid_source s) (uuid_count s).

Definition with_family_tree
    (f : list (string * list (string * Z)) -> list (string * list (string * Z)))
    (s : state) : state :=
  State (heap_of s) (transports s) (write_transports s) (read_transport s)
    (detach_lineage s) (lineage s) (f (family_tree s)) (closure_table s)
    (uuid_source s) (uuid_count s).

Definition with_closure_table
    (f : list (string * loc) -> list (string * loc)) (s : state) : state :=
  State (heap_of s) (transports s) (write_transports s) (read_transport s)
    (detach_lineage s) (lineage s) (family_tree s) (f (closure_table s))
    (uuid_source s) (uuid_count s).

Definition with_uuid_count (f : nat -> nat) (s : state) : state :=
  State (heap_of s) (transports s) (write_transports s) (read_transport s)
    (detach_lineage s) (lineage s) (family_tree s) (closure_table s)
    (uuid_source s) (f (uuid_count s)).

(** ** Computations: state, exceptions, and a bound on the recursion depth *)

Inductive exn :=
| SpeckleException (message : string)
| TypeError
| AttributeError
| KeyError
| IndexError
| RuntimeError
| JSONDecodeError.

Inductive outcome (A : Type) :=
| Ok (a : A) (s : state)
| Raise (e : exn) (s : state)
| OutOfFuel.

Arguments Ok {A} a s.
Arguments Raise {A} e s.
Arguments OutOfFuel {A}.

Definition M (A : Type) : Type := state -> outcome A.

Definition ret {A} (a : A) : M A := fun s => Ok a s.

Definition bind {A B} (m : M A) (k : A -> M B) : M B :=
  fun s =>
    match m s with
    | Ok a s1 => k a s1
    | Raise e s1 => Raise e s1
    | OutOfFuel => OutOfFuel
    end.

Definition raise {A} (e : exn) : M A := fun s => Raise e s.

Definition out_of_fuel {A} : M A := fun _ => OutOfFuel.

Definition gets {A} (f : state -> A) : M A := fun s => Ok (f s) s.

Definition modify (f : state -> state) : M unit := fun s => Ok tt (f s).

Notation "'do' x <- m ;; k" := (bind m (fun x => k))
  (at level 10, x name, m at level 99, k at level 200).
Notation "'run' m ;; k" := (bind m (fun _ => k))
  (at level 10, m at level 99, k at level 200).

(** *** Operations on dictionary objects *)

(** [{...}]: a new dictionary. *)
Definition new_dict (d : entries) : M loc :=
  fun s => Ok (List.length (heap_of s)) (with_heap (fun h => h ++ [d]) s).

(** [d[k] = v] *)
Definition dict_setitem (l : loc) (k : string) (v : value) : M unit :=
  modify (with_heap (fun h => heap_store l (dict_set k v (cell h l)) h)).

(** [k in v]: keys of a dictionary, elements of a sequence, substrings of a
    string; a [TypeError] for a value that is not iterable. A Base object and
    an opaque object offer no membership test in this embedding. *)
Definition py_in (k : string) (v : value) : M bool :=
  match v with
  | VDict l => gets (fun s => dict_has k (cell (heap_of s) l))
  | VSeq _ xs =>
      ret (existsb (fun x => match x with VStr s => String.eqb k s | _ => false end) xs)
  | VStr s =>
      ret (match String.index 0 k s with Some _ => true | None => false end)
  | _ => raise TypeError
  end.

(** [v[k]] for a string [k]. *)
Definition py_getitem (v : value) (k : string) : M value :=
  match v with
  | VDict l =>
      do d <- gets (fun s => cell (heap_of s) l) ;;
      match dict_get k d with
      | Some x => ret x
      | None => raise KeyError
      end
  | VBase ms _ =>
      match dict_get k ms with
      | Some x => ret x
      | None => raise AttributeError
      end
  | _ => raise TypeError
  end.

(** [len(v)] *)
Definition py_len (v : value) : M nat :=
  match v with
  | VDict l => gets (fun s => List.length (cell (heap_of s) l))
  | VSeq _ xs => ret (List.length xs)
  | VStr s => ret (String.length s)
  | _ => raise TypeError
  end.

(** [v.pop(k)] for a string [k]: a dictionary gives up the entry; a list
    or a set takes no string argument; the other values have no [pop]. *)
Definition py_pop (v : value) (k : string) : M value :=
  match v with
  | VDict l =>
      do d <- gets (fun s => cell (heap_of s) l) ;;
      match dict_get k d with
      | Some x =>
          run modify (with_heap (heap_store l (dict_del k d))) ;;
          ret x
      | None => raise KeyError
      end
  | VSeq KList _ | VSeq KSet _ => raise TypeError
  | _ => raise AttributeError
  end.

(** [json.dumps(v)] *)
Definition json_dumps `{FloatText} (fuel : nat) (v : value) : M string :=
  fun s =>
    match snapshot fuel (heap_of s) v with
    | None => OutOfFuel
    | Some c =>
        match Json.text c with
        | Some t => Ok t s
        | None => Raise TypeError s
        end
    end.

(** [json.loads(text)]: the decoded value is made of new dictionaries. *)
Definition json_loads `{FloatText} (text : string) : M value :=
  fun s =>
    match JsonParse.loads text with
    | None => Raise JSONDecodeError s
    | Some c =>
        let '(v, h) := alloc_content c (heap_of s) in
        Ok v (with_heap (fun _ => h) s)
    end.

(** ** The serializer *)

(** [hashlib.sha256(json.dumps(obj).encode()).hexdigest()[:32]] *)
Definition hash_obj `{FloatText} (fuel : nat) (obj : value) : M string :=
  do t <- json_dumps fuel obj ;;
  ret (String.substring 0 32 (Sha256.hexdigest t)).

(** *** Base objects

    Modelled from the spec: the [Base] class is not part of the
    serializer's file. A decomposable object exposes its property names in a
    stable order, indexed get and set of a named property, and a settable
    hint field for the number of closure entries ([totalChildrenCount]). *)

Definition get_member_names (base : value) : M (list string) :=
  match base with
  | VBase ms _ => ret (dict_keys ms)
  | _ => raise AttributeError
  end.

(** [base[prop] = v] *)
Definition base_setitem (prop : string) (v : value) (base : value) : value :=
  match base with
  | VBase ms hint => VBase (dict_set prop v ms) hint
  | _ => base
  end.

(** [base.totalChildrenCount = n] *)
Definition set_totalChildrenCount (n : nat) (base : value) : value :=
  match base with
  | VBase ms _ => VBase ms (Some n)
  | _ => base
  end.

(** *** Decomposition *)

(** [uuid4().hex] *)
Definition uuid4_hex : M string :=
  fun s => Ok (uuid_source s (uuid_count s)) (with_uuid_count S s).

(** The body of the loop of [detach_helper], on one parent's entry. *)
Definition note_reference (ref_hash : string) (depth : Z) (refs : list (string * Z))
    : list (string * Z) :=
  match dict_get ref_hash refs with
  | None => dict_set ref_hash depth refs
  | Some d => if depth <? d then dict_set ref_hash depth refs else refs
  end.

Fixpoint track_reference (parents : list string) (ref_hash : string) (depth : Z)
    (tree : list (string * list (string * Z))) : list (string * list (string * Z)) :=
  match parents with
  | [] => tree
  | parent :: rest =>
      let tree1 := if dict_has parent tree then tree else dict_set parent [] tree in
      let refs := match dict_get parent tree1 with Some r => r | None => [] end in
      track_reference rest ref_hash depth
        (dict_set parent (note_reference ref_hash depth refs) tree1)
  end.

(** [detach_helper]: the hash is a dictionary key, hence a string. *)
Definition detach_helper (ref_hash : value) : M value :=
  match ref_hash with
  | VStr key =>
      do parents <- gets lineage ;;
      do depth <- gets (fun s => Z.of_nat (List.length (detach_lineage s))) ;;
      run modify (with_family_tree (track_reference parents key depth)) ;;
      do l <- new_dict [("referencedId", ref_hash); ("speckleType", VStr "reference")] ;;
      ret (VDict l)
  | _ => raise TypeError
  end.

(** [[self.traverse_value(o) for o in obj]] *)
Fixpoint traverse_list (tv : value -> M value) (xs : list value) : M (list value) :=
  match xs with
  | [] => ret []
  | o :: rest =>
      do r <- tv o ;;
      do rs <- traverse_list tv rest ;;
      ret (r :: rs)
  end.

(** The loop over [obj.items()] of [traverse_value]: the keys are those
    found on entry, each value is read when its turn comes. *)
Fixpoint traverse_items (tv : value -> M value) (l : loc) (keys : list string) : M unit :=
  match keys with
  | [] => ret tt
  | k :: rest =>
      do d <- gets (fun s => cell (heap_of s) l) ;;
      match dict_get k d with
      | None => raise RuntimeError
      | Some v =>
          if is_primitive v then traverse_items tv l rest
          else
            do r <- tv v ;;
            run dict_setitem l k r ;;
            traverse_items tv l rest
      end
  end.

(** The [while props] loop of [traverse_base]; [builder] is [object_builder]. *)
Fixpoint traverse_props (tv : value -> bool -> M value) (obj : value) (builder : loc)
    (props : list string) : M unit :=
  match props with
  | [] => ret tt
  | prop :: rest =>
      do value <- py_getitem obj prop ;;
      do keep <- gets (fun s => truthy (heap_of s) value) ;;
      if negb keep || startswith "__" prop then traverse_props tv obj builder rest
      else
        let detach := startswith "@" prop in
        if is_primitive value then
          run dict_setitem builder prop value ;;
          traverse_props tv obj builder rest
        else if is_base value then
          do child_obj <- tv value detach ;;
          run (if detach then
                 do ref_hash <- py_getitem child_obj "id" ;;
                 do reference <- detach_helper ref_hash ;;
                 dict_setitem builder prop reference
               else dict_setitem builder prop child_obj) ;;
          traverse_props tv obj builder rest
        else
          do child_obj <- tv value false ;;
          run dict_setitem builder prop child_obj ;;
          traverse_props tv obj builder rest
  end.

(** [for t in self.write_transports: t.save_object(...)] *)
Fixpoint save_to_transports `{FloatText} (fuel : nat) (ts : list nat) (hash : string)
    (obj : value) : M unit :=
  match ts with
  | [] => ret tt
  | t :: rest =>
      do serialized <- json_dumps fuel obj ;;
      run modify (with_transports (alter (save_object hash serialized) t)) ;;
      save_to_transports fuel rest hash obj
  end.

Definition traverse_base_with `{FloatText} (fuel : nat) (tv : value -> bool -> M value)
    (base : value) : M (string * value) :=
  do dl <- gets detach_lineage ;;
  run (match dl with
       | [] => modify (with_detach_lineage (fun _ => [true]))
       | _ => ret tt
       end) ;;
  do token <- uuid4_hex ;;
  run modify (with_lineage (fun l => l ++ [token])) ;;
  do builder <- new_dict [("id", VStr "")] ;;
  do props <- get_member_names base ;;
  run traverse_props tv base builder props ;;
  do hash <- hash_obj fuel (VDict builder) ;;
  run dict_setitem builder "id" (VStr hash) ;;
  do dl1 <- gets detach_lineage ;;
  match last dl1 with
  | None => raise IndexError
  | Some detached =>
      run modify (with_detach_lineage (@removelast bool)) ;;
      do lin <- gets lineage ;;
      match last lin with
      | None => raise IndexError
      | Some top =>
          do tree <- gets family_tree ;;
          run (match dict_get top tree with
               | Some refs =>
                   do n <- gets (fun s => Z.of_nat (List.length (detach_lineage s))) ;;
                   do closure <- new_dict (map (fun rd => (fst rd, VInt (snd rd - n))) refs) ;;
                   run dict_setitem builder "__closure" (VDict closure) ;;
                   modify (with_closure_table (dict_set hash closure))
               | None => ret tt
               end) ;;
          run (if detached : bool then
                 do ts <- gets write_transports ;;
                 save_to_transports fuel ts hash (VDict builder)
               else ret tt) ;;
          run modify (with_lineage (@removelast string)) ;;
          ret (hash, VDict builder)
      end
  end.

Fixpoint traverse_value `{FloatText} (fuel : nat) (obj : value) (detach : bool) : M value :=
  match fuel with
  | O => out_of_fuel
  | S f =>
      match obj with
      | VBool _ | VInt _ | VFloat _ | VStr _ => ret obj
      | VSeq _ xs =>
          do rs <- traverse_list (fun o => traverse_value f o false) xs ;;
          ret (VSeq KList rs)
      | VDict l =>
          do keys <- gets (fun s => dict_keys (cell (heap_of s) l)) ;;
          run traverse_items (fun v => traverse_value f v false) l keys ;;
          ret obj
      | VBase _ _ =>
          run modify (with_detach_lineage (fun dl => dl ++ [detach])) ;;
          do hr <- traverse_base_with f (traverse_value f) obj ;;
          ret (snd hr)
      | VOpaque (Some d) _ => ret d
      | VOpaque None text => ret (VStr text)
      | VNone => ret (VStr "None")
      end
  end.

Definition traverse_base `{FloatText} (fuel : nat) (base : value) : M (string * value) :=
  traverse_base_with fuel (traverse_value fuel) base.

(** [__reset_writer] *)
Definition reset_writer : M unit :=
  modify (fun s =>
    State (heap_of s) (transports s) (write_transports s) (read_transport s)
      [] [] [] [] (uuid_source s) (uuid_count s)).

Definition write_json `{FloatText} (fuel : nat) (base : value) : M (string * string) :=
  run reset_writer ;;
  run modify (with_detach_lineage (fun _ => [true])) ;;
  do ho <- traverse_base fuel base ;;
  do text <- json_dumps fuel (snd ho) ;;
  ret (fst ho, text).

(** *** Recomposition *)

Definition no_read_transport_message : string :=
  "Cannot resolve reference - no read transport is defined".

(** The f-string of the resolution error. *)
Definition not_found_message (ref_hash transport_name : string) : string :=
  "Could not find the referenced child object of id `" +++ ref_hash
  +++ "` in the given read transport: " +++ transport_name.

(** [self.read_transport.get_object(id=ref_hash)]: the read-source takes a
    hash, a string; without a read transport the attribute access fails.
    Returns the hash, what was found, and the transport's name. *)
Definition read_object (ref_hash : value) : M (string * option string * string) :=
  do rt <- gets read_transport ;;
  match rt with
  | None => raise AttributeError
  | Some t =>
      do ts <- gets transports ;;
      match ts !! t, ref_hash with
      | Some tr, VStr id =>
          let '(found, tr') := get_object id tr in
          run modify (with_transports (fun ts => <[t := tr']> ts)) ;;
          ret (id, found, name tr)
      | Some _, _ => raise TypeError
      | None, _ => raise AttributeError
      end
  end.

(** [[self.handle_value(o) for o in obj]] *)
Fixpoint handle_list (hv : value -> M value) (xs : list value) : M (list value) :=
  match xs with
  | [] => ret []
  | o :: rest =>
      do r <- hv o ;;
      do rs <- handle_list hv rest ;;
      ret (r :: rs)
  end.

(** The loop over [obj.items()] of [handle_value]. *)
Fixpoint handle_items (hv : value -> M value) (l : loc) (keys : list string) : M unit :=
  match keys with
  | [] => ret tt
  | k :: rest =>
      do d <- gets (fun s => cell (heap_of s) l) ;;
      match dict_get k d with
      | None => raise RuntimeError
      | Some v =>
          if is_primitive v then handle_items hv l rest
          else
            do r <- hv v ;;
            run dict_setitem l k r ;;
            handle_items hv l rest
      end
  end.

(** The loop over [obj.items()] of [recompose_base]; [base] is the object
    being filled. *)
Fixpoint recompose_props `{FloatText} (rb hv : value -> M value) (l : loc)
    (keys : list string) (base : value) : M value :=
  match keys with
  | [] => ret base
  | prop :: rest =>
      do d <- gets (fun s => cell (heap_of s) l) ;;
      match dict_get prop d with
      | None => raise RuntimeError
      | Some value =>
          if is_primitive value then
            recompose_props rb hv l rest (base_setitem prop value base)
          else
            do is_ref <- py_in "referencedId" value ;;
            if is_ref : bool then
              do ref_hash <- py_getitem value "referencedId" ;;
              do answer <- read_object ref_hash ;;
              match answer with
              | (id, None, source) | (id, Some EmptyString, source) =>
                  raise (SpeckleException (not_found_message id source))
              | (_, Some ref_obj_str, _) =>
                  do ref_obj <- json_loads ref_obj_str ;;
                  do child <- rb ref_obj ;;
                  recompose_props rb hv l rest (base_setitem prop child base)
              end
            else
              do r <- hv value ;;
              recompose_props rb hv l rest (base_setitem prop r base)
      end
  end.

Fixpoint recompose_base `{FloatText} (fuel : nat) (obj : value) : M value :=
  match fuel with
  | O => out_of_fuel
  | S f =>
      do nonempty <- gets (fun s => truthy (heap_of s) obj) ;;
      if negb nonempty then ret VNone
      else
        do obj <- match obj with
                  | VStr text => json_loads text
                  | _ => ret obj
                  end ;;
        let base := VBase [] None in
        do has_closure <- py_in "__closure" obj ;;
        do base <-
          (if has_closure : bool then
             do rt <- gets read_transport ;;
             match rt with
             | None => raise (SpeckleException no_read_transport_message)
             | Some _ =>
                 do closure <- py_pop obj "__closure" ;;
                 do n <- py_len closure ;;
                 ret (set_totalChildrenCount n base)
             end
           else ret base) ;;
        match obj with
        | VDict l =>
            do keys <- gets (fun s => dict_keys (cell (heap_of s) l)) ;;
            recompose_props (recompose_base f) (handle_value f) l keys base
        | _ => raise AttributeError
        end
  end
with handle_value `{FloatText} (fuel : nat) (obj : value) : M value :=
  match fuel with
  | O => out_of_fuel
  | S f =>
      match obj with
      | VBool _ | VInt _ | VFloat _ | VStr _ => ret obj
      | VSeq KList xs =>
          do rs <- handle_list (handle_value f) xs ;;
          ret (VSeq KList rs)
      | VDict l =>
          do typed <- gets (fun s => dict_has "speckleType" (cell (heap_of s) l)) ;;
          if typed : bool then recompose_base f obj
          else
            do keys <- gets (fun s => dict_keys (cell (heap_of s) l)) ;;
            run handle_items (handle_value f) l keys ;;
            ret obj
      | _ => ret VNone
      end
  end.

(** [read_json]; the [id] argument is not used by the code. *)
Definition read_json `{FloatText} (fuel : nat) (id obj_string : string) : M value :=
  if String.eqb obj_string "" then ret VNone
  else
    do obj <- json_loads obj_string ;;
    recompose_base fuel obj.

(** ** Running the serializer on examples *)

(** A literal with ['] where the text has a double quote. *)
Fixpoint q (s : string) : string :=
  match s with
  | EmptyString => EmptyString
  | String c r => String (if Json.code c =? 39 then Json.dquote else c) (q r)
  end.

(** A stand-in for the interpreter's float conversions, for examples that
    hold no float. *)
Definition no_floats : FloatText :=
  {| float_repr := fun _ => "0.0"; float_of_text := fun _ => PrimFloat.zero |}.

(** Tokens for the examples: 32 hexadecimal characters each. *)
Definition sample_uuids (salt : string) (n : nat) : string :=
  String.substring 0 32 (Sha256.hexdigest (salt +++ str_of_Z (Z.of_nat n))).

(** A serializer with one in-memory transport, written and read. *)
Definition one_transport (h : heap) (salt : string) : state :=
  State h [Transport "memory" [] []] [0%nat] (Some 0%nat) [] [] [] []
    (sample_uuids salt) 0.

(** The same transport written, no read transport configured. *)
Definition write_only (h : heap) (salt : string) : state :=
  State h [Transport "memory" [] []] [0%nat] None [] [] [] []
    (sample_uuids salt) 0.

(** ** What decomposition computes, read off the object

    The functions below say, by recursion on an object given as a
    [content], what [traverse_base] and [traverse_value] do with it: which
    properties are kept, what a record holds, which descendants are detached
    and how deep, and what is written. [traverse_value_visits] further down
    proves that the serializer's own run computes exactly this. *)

Definition is_primitive_c (c : content) : bool :=
  match c with
  | CBool _ | CInt _ | CFloat _ | CStr _ => true
  | _ => false
  end.

Definition is_base_c (c : content) : bool :=
  match c with CBase _ _ => true | _ => false end.

Definition truthy_c (c : content) : bool :=
  match c with
  | CNone => false
  | CBool b => b
  | CInt z => negb (z =? 0)
  | CFloat f => negb (PrimFloat.eqb f PrimFloat.zero)
  | CStr s => negb (String.eqb s "")
  | CSeq _ xs => match xs with [] => false | _ => true end
  | CDict kvs => match kvs with [] => false | _ => true end
  | CBase _ _ => true
  | COpaque _ _ => true
  end.

(** A property is kept unless its value is falsy or its name starts with
    the reserved prefix. *)
Definition kept (prop : string) (c : content) : bool :=
  truthy_c c && negb (startswith "__" prop).

Definition wants_detach (prop : string) : bool := startswith "@" prop.

Definition reference_marker (hash : string) : content :=
  CDict [("referencedId", CStr hash); ("speckleType", CStr "reference")].

Definition text_of `{FloatText} (c : content) : string :=
  match Json.text c with Some t => t | None => "" end.

Definition hash_content `{FloatText} (c : content) : string :=
  String.substring 0 32 (Sha256.hexdigest (text_of c)).

Definition id_of (record : content) : string :=
  match record with
  | CDict kvs => match dict_get "id" kvs with Some (CStr h) => h | _ => "" end
  | _ => ""
  end.

Definition shift (n : Z) (events : list (string * Z)) : list (string * Z) :=
  map (fun e => (fst e, snd e + n)) events.

(** The minimum depth per hash, hashes in order of first appearance. *)
Definition min_depths (events : list (string * Z)) : list (string * Z) :=
  fold_left (fun acc e => note_reference (fst e) (snd e) acc) events [].

Definition closure_content (closure : list (string * Z)) : content :=
  CDict (map (fun e => (fst e, CInt (snd e))) closure).

(** What decomposing a value yields: its serializable [form] (for an
    object, its record); the detached descendants met below it, in the order
    they are met, each with the number of object levels between the value
    (the enclosing object, when the value is not one) and the descendant;
    and the records sent to the write-sinks, in order. *)
Record decomposition := Decomposition {
  form : content;
  events : list (string * Z);
  writes : list (string * string)
}.

(** A nested object's events, seen from the object that holds it. *)
Definition seen_from_holder (c : content) (d : decomposition) : decomposition :=
  if is_base_c c then Decomposition (form d) (shift 1 (events d)) (writes d) else d.

Section Decomposed.
Context `{FloatText}.

(** The properties of an object, in order, filling [builder]. *)
Fixpoint decomposed_props (rec : content -> decomposition)
    (ms : list (string * content)) (builder : list (string * content)) : decomposition :=
  match ms with
  | [] => Decomposition (CDict builder) [] []
  | (prop, v) :: rest =>
      if kept prop v then
        let d := seen_from_holder v (rec v) in
        let detach := is_base_c v && wants_detach prop in
        let hash := id_of (form d) in
        let field := if detach then reference_marker hash else form d in
        let r := decomposed_props rec rest (dict_set prop field builder) in
        Decomposition (form r)
          (events d ++ (if detach then [(hash, 1)] else []) ++ events r)
          (writes d ++ (if detach then [(hash, text_of (form d))] else [])
             ++ writes r)
      else decomposed_props rec rest builder
  end.

Fixpoint decomposed (c : content) : decomposition :=
  match c with
  | CNone => Decomposition (CStr "None") [] []
  | CBool _ | CInt _ | CFloat _ | CStr _ => Decomposition c [] []
  | CSeq _ xs =>
      let ds := map (fun x => seen_from_holder x (decomposed x)) xs in
      Decomposition (CSeq KList (map form ds)) (flat_map events ds) (flat_map writes ds)
  | CDict kvs =>
      let ds := map (fun kv => (fst kv, seen_from_holder (snd kv) (decomposed (snd kv)))) kvs in
      Decomposition (CDict (map (fun kd => (fst kd, form (snd kd))) ds))
        (flat_map (fun kd => events (snd kd)) ds)
        (flat_map (fun kd => writes (snd kd)) ds)
  | CBase ms _ =>
      let r := decomposed_props decomposed ms [("id", CStr "")] in
      let builder := match form r with CDict b => b | _ => [] end in
      let hash := hash_content (form r) in
      let with_id := dict_set "id" (CStr hash) builder in
      let record :=
        match min_depths (events r) with
        | [] => with_id
        | closure => dict_set "__closure" (closure_content closure) with_id
        end in
      Decomposition (CDict record) (events r) (writes r)
  | COpaque (Some d) _ => Decomposition d [] []
  | COpaque None text => Decomposition (CStr text) [] []
  end.

(** The record of an object. *)
Definition record_of (c : content) : content := form (decomposed c).


(** What one decomposition call writes: the detached records met on the
    way, then the root's. *)
Definition written (root : content) : list (string * string) :=
  writes (decomposed root) ++ [(id_of (record_of root), text_of (record_of root))].

End Decomposed.

(** ** Objects the comparison ranges over, and how they sit in the heap *)

Fixpoint unique_names (ks : list string) : bool :=
  match ks with
  | [] => true
  | k :: rest => negb (existsb (String.eqb k) rest) && unique_names rest
  end.

(** A content [json.dumps] accepts. *)
Fixpoint jsonable (c : content) : bool :=
  match c with
  | CNone | CBool _ | CInt _ | CFloat _ | CStr _ => true
  | CSeq KSet _ => false
  | CSeq _ xs => forallb jsonable xs
  | CDict kvs => forallb (fun kv => jsonable (snd kv)) kvs
  | CBase _ _ | COpaque _ _ => false
  end.

(** Dictionaries and objects name each entry once; what an opaque value
    flattens to is something [json.dumps] accepts. *)
Fixpoint well_formed (c : content) : bool :=
  match c with
  | CSeq _ xs => forallb well_formed xs
  | CDict kvs =>
      unique_names (map fst kvs) && forallb (fun kv => well_formed (snd kv)) kvs
  | CBase ms _ =>
      unique_names (map fst ms) && forallb (fun kv => well_formed (snd kv)) ms
  | COpaque (Some d) _ => jsonable d && well_formed d
  | _ => true
  end.

(** Nesting depth: the fuel [snapshot] needs. *)
Fixpoint height (c : content) : nat :=
  match c with
  | CSeq _ xs => S (list_max (map height xs))
  | CDict kvs => S (list_max (map (fun kv => height (snd kv)) kvs))
  | CBase ms _ => S (list_max (map (fun kv => height (snd kv)) ms))
  | COpaque (Some d) _ => S (height d)
  | _ => 1%nat
  end.

(** Recursion depth that decomposing [c] stays within. *)
Fixpoint need (c : content) : nat :=
  match c with
  | CSeq _ xs => S (list_max (map need xs))
  | CDict kvs => S (list_max (map (fun kv => need (snd kv)) kvs))
  | CBase ms _ => (4 + list_max (map (fun kv => need (snd kv)) ms))%nat
  | COpaque (Some d) _ => S (height d)
  | _ => 1%nat
  end.

Definition between (a b l : nat) : Prop := (a <= l < b)%nat.

(** [chain R cs a b vs]: the [vs] stand for the [cs], one after the other,
    in consecutive ranges of locations from [a] to [b]. *)
Fixpoint chain {C V : Type} (R : C -> nat -> nat -> V -> Prop)
    (cs : list C) (a b : nat) (vs : list V) : Prop :=
  match cs, vs with
  | [], [] => a = b
  | c :: cs', v :: vs' => exists m, R c a m v /\ chain R cs' m b vs'
  | _, _ => False
  end.

(** [realises h c a b v]: in heap [h], value [v] holds content [c], its
    dictionaries occupy exactly the locations from [a] up to [b], and no
    dictionary is reached twice. This is how [alloc_content] lays an object
    out. *)
Fixpoint realises (h : heap) (c : content) (a b : nat) (v : value) {struct c} : Prop :=
  match c, v with
  | CNone, VNone => a = b
  | CBool x, VBool y => x = y /\ a = b
  | CInt x, VInt y => x = y /\ a = b
  | CFloat x, VFloat y => x = y /\ a = b
  | CStr x, VStr y => x = y /\ a = b
  | CSeq k cs, VSeq k' vs => k = k' /\ chain (realises h) cs a b vs
  | CDict kvs, VDict l =>
      b = S l /\ exists es,
        h !! l = Some es /\
        chain (fun kc a b kv => fst kc = fst kv /\ realises h (snd kc) a b (snd kv))
          kvs a l es
  | CBase ms hint, VBase es hint' =>
      hint = hint' /\
      chain (fun kc a b kv => fst kc = fst kv /\ realises h (snd kc) a b (snd kv))
        ms a b es
  | COpaque None text, VOpaque None text' => text = text' /\ a = b
  | COpaque (Some c') text, VOpaque (Some v') text' =>
      text = text' /\ realises h c' a b v'
  | _, _ => False
  end.

Fixpoint all2 {C V : Type} (R : C -> V -> Prop) (cs : list C) (vs : list V) : Prop :=
  match cs, vs with
  | [], [] => True
  | c :: cs', v :: vs' => R c v /\ all2 R cs' vs'
  | _, _ => False
  end.

(** Two entries with the same key and related values. *)
Definition paired {C V : Type} (R : C -> V -> Prop) (kc : string * C) (kv : string * V)
    : Prop :=
  fst kc = fst kv /\ R (snd kc) (snd kv).

(** [reads_in P h c v]: in heap [h], value [v] holds content [c], through
    dictionaries at locations in [P] only. *)
Fixpoint reads_in (P : loc -> Prop) (h : heap) (c : content) (v : value) {struct c} : Prop :=
  match c, v with
  | CNone, VNone => True
  | CBool x, VBool y => x = y
  | CInt x, VInt y => x = y
  | CFloat x, VFloat y => x = y
  | CStr x, VStr y => x = y
  | CSeq k cs, VSeq k' vs => k = k' /\ all2 (reads_in P h) cs vs
  | CDict kvs, VDict l =>
      P l /\ exists es,
        h !! l = Some es /\
        all2 (fun kc kv => fst kc = fst kv /\ reads_in P h (snd kc) (snd kv)) kvs es
  | CBase ms hint, VBase es hint' =>
      hint = hint' /\
      all2 (fun kc kv => fst kc = fst kv /\ reads_in P h (snd kc) (snd kv)) ms es
  | COpaque None text, VOpaque None text' => text = text'
  | COpaque (Some c') text, VOpaque (Some v') text' =>
      text = text' /\ reads_in P h c' v'
  | _, _ => False
  end.

(** Tokens still to be drawn are new: distinct from each other and from
    every token the serializer holds. *)
Definition fresh_tokens (s : state) : Prop :=
  (forall i j, uuid_source s i = uuid_source s j -> i = j) /\
  forall i, (uuid_count s <= i)%nat ->
    ~ In (uuid_source s i) (lineage s) /\
    dict_get (uuid_source s i) (family_tree s) = None.

(** One record sent to each write transport in turn; a list of records. *)
Definition deliver (ts : list nat) (trs : list transport) (w : string * string)
    : list transport :=
  fold_left (fun trs t => alter (save_object (fst w) (snd w)) t trs) ts trs.

Definition deliver_all (ts : list nat) (ws : list (string * string))
    (trs : list transport) : list transport :=
  fold_left (deliver ts) ws trs.

Definition entry_or_empty (o : option (list (string * Z))) : list (string * Z) :=
  match o with Some r => r | None => [] end.

(** A parent's entry of the family tree after more detach events. *)
Definition extend (entry : option (list (string * Z))) (evs : list (string * Z))
    : option (list (string * Z)) :=
  match evs with
  | [] => entry
  | _ =>
      Some (fold_left (fun acc e => note_reference (fst e) (snd e) acc) evs
              (entry_or_empty entry))
  end.

(** ** What one step of a decomposition may change

    [effect s F evs ws s']: from [s] to [s'] the configuration and both
    stacks are as before, the heap has grown and its old cells outside [F]
    are untouched, the records [ws] went to the write transports, the open
    ancestors' entries of the family tree took the events [evs], and the
    tokens still to be drawn are new. *)

Definition same_config (s s' : state) : Prop :=
  write_transports s' = write_transports s /\
  read_transport s' = read_transport s /\
  uuid_source s' = uuid_source s /\
  detach_lineage s' = detach_lineage s /\
  lineage s' = lineage s /\
  (uuid_count s <= uuid_count s')%nat /\
  (List.length (heap_of s) <= List.length (heap_of s'))%nat.

Definition depth_of (s : state) : Z := Z.of_nat (List.length (detach_lineage s)).

Definition tracked (s s' : state) (evs : list (string * Z)) (ws : list (string * string))
    : Prop :=
  transports s' = deliver_all (write_transports s) ws (transports s) /\
  forall p, In p (lineage s) ->
    dict_get p (family_tree s')
    = extend (dict_get p (family_tree s)) (shift (depth_of s - 1) evs).

Definition framed (F : loc -> Prop) (s s' : state) : Prop :=
  forall l, (l < List.length (heap_of s))%nat -> ~ F l ->
    heap_of s' !! l = heap_of s !! l.

Definition effect (s : state) (F : loc -> Prop) (evs : list (string * Z))
    (ws : list (string * string)) (s' : state) : Prop :=
  same_config s s' /\ tracked s s' evs ws /\ framed F s s' /\ fresh_tokens s'.

(** What [traverse_value] yields for a content: the decomposition seen from
    the holder, and the record itself written when it is detached. *)
Definition visit `{FloatText} (detach : bool) (c : content) : decomposition :=
  let d := seen_from_holder c (decomposed c) in
  Decomposition (form d) (events d)
    (writes d ++ (if detach && is_base_c c
                  then [(id_of (form d), text_of (form d))] else [])).

(** The locations a visit may read its result through: the visited
    object's own range and what was allocated meanwhile. *)
Definition grown (a b : nat) (s s' : state) (l : loc) : Prop :=
  between a b l \/ between (List.length (heap_of s)) (List.length (heap_of s')) l.

(** [visits fuel c]: wherever an object with content [c] sits in the heap,
    [traverse_value] with this much fuel returns, and does what [visit]
    says. *)
Definition visits `{FloatText} (fuel : nat) (c : content) : Prop :=
  forall s a b v detach,
    realises (heap_of s) c a b v ->
    (b <= List.length (heap_of s))%nat ->
    fresh_tokens s ->
    exists r s',
      traverse_value fuel v detach s = Ok r s' /\
      effect s (between a b) (events (visit detach c)) (writes (visit detach c)) s' /\
      reads_in (grown a b s s') (heap_of s') (form (visit detach c)) r.

(** The locations a record under construction at [B] may be read through:
    the part of the object already visited and what was allocated since. *)
Definition built (lo a B : nat) (s : state) (l : loc) : Prop :=
  between lo a l \/ between (S B) (List.length (heap_of s)) l.

(** [hold c s]: an object with content [c], made of new dictionaries, and
    the store that holds it. *)
Definition hold (c : content) (s : state) : value * state :=
  let '(v, h) := alloc_content c (heap_of s) in (v, with_heap (fun _ => h) s).

(** [uuid4] never returns the same token twice. *)
Definition distinct_tokens (s : state) : Prop :=
  forall i j, uuid_source s i = uuid_source s j -> i = j.

(** ** Scenarios and notions the properties are stated with *)

(** What a run returned, and the store it left. *)
Definition returned {A : Type} (o : outcome A) : option A :=
  match o with Ok a _ => Some a | _ => None end.

Definition store_after {A : Type} (o : outcome A) : option state :=
  match o with Ok _ s => Some s | Raise _ s => Some s | OutOfFuel => None end.

Definition raised {A : Type} (o : outcome A) : option exn :=
  match o with Raise e _ => Some e | _ => None end.

(** Tokens that are distinct by construction: the [n]-th is [n] strokes. *)
Fixpoint tally (n : nat) : string :=
  match n with
  | O => "t"
  | S m => String "1" (tally m)
  end.

(** A serializer over one in-memory transport that is written and read,
    drawing the tokens of [tally]. *)
Definition memory_store (h : heap) : state :=
  State h [Transport "memory" [] []] [0%nat] (Some 0%nat) [] [] [] [] tally 0.

(** What a write transport holds after the records [ws] were saved to it. *)
Definition received (ws : list (string * string)) (t : transport) : transport :=
  Transport (name t) (saved t ++ ws) (fetched t).

(** The object [{a: 1, b: 0, c: "", d: None}]. *)
Definition scenario_falsy : content :=
  CBase [("a", CInt 1); ("b", CInt 0); ("c", CStr ""); ("d", CNone)] None.

(** The object [{"@child": {x: 5}}]. *)
Definition scenario_child : content :=
  CBase [("@child", CBase [("x", CInt 5)] None)] None.

(** [write_json] called on a new object with content [c]. *)
Definition write_json_on `{FloatText} (fuel : nat) (c : content) (s : state)
    : outcome (string * string) :=
  write_json fuel (fst (hold c s)) (snd (hold c s)).

(** The hash and the text of the one record of [scenario_falsy]. *)
Definition falsy_record_hash : string := "05d487b0cad26a92ee18cf93ae77a67a".

Definition falsy_record_text : string :=
  q "{'id': '05d487b0cad26a92ee18cf93ae77a67a', 'a': 1}".

(** The hashes and the texts of the two records of [scenario_child]. *)
Definition child_record_hash : string := "c289c295e43c949c76a6eb230aa3a789".

Definition child_record_text : string :=
  q "{'id': 'c289c295e43c949c76a6eb230aa3a789', 'x': 5}".

Definition root_record_hash : string := "624af225e5ad68f57b8cf1dd7ca6df35".

Definition root_record_text : string :=
  q ("{'id': '624af225e5ad68f57b8cf1dd7ca6df35', "
     +++ "'@child': {'referencedId': 'c289c295e43c949c76a6eb230aa3a789', "
     +++ "'speckleType': 'reference'}, "
     +++ "'__closure': {'c289c295e43c949c76a6eb230aa3a789': 1}}").

(** ** Detached descendants and their depths *)

(** Depths seen from the holder of [v]: one more when [v] is an object. *)
Definition lift (v : content) (below : list (Z * content)) : list (Z * content) :=
  if is_base_c v then map (fun nd => (fst nd + 1, snd nd)) below else below.

(** [detached_below c]: every path from [c] down to a detached object, in
    the order of the traversal, as the number of objects entered on the way
    (the detached object included, [c] not) and the detached object. Lists
    and dictionaries on the way do not count; an object counts whether it is
    detached or held inline. *)
Fixpoint detached_below (c : content) : list (Z * content) :=
  match c with
  | CSeq _ xs => flat_map (fun x => lift x (detached_below x)) xs
  | CDict kvs => flat_map (fun kv => lift (snd kv) (detached_below (snd kv))) kvs
  | CBase ms _ =>
      flat_map (fun pv =>
                  if kept (fst pv) (snd pv) then
                    lift (snd pv) (detached_below (snd pv))
                    ++ (if is_base_c (snd pv) && wants_detach (fst pv)
                        then [(1, snd pv)] else [])
                  else []) ms
  | _ => []
  end.

(** The depth the specification describes: the number of detach boundaries
    crossed on a path, objects held inline not counting. *)
Fixpoint boundaries_crossed (c : content) : list (Z * content) :=
  match c with
  | CSeq _ xs => flat_map boundaries_crossed xs
  | CDict kvs => flat_map (fun kv => boundaries_crossed (snd kv)) kvs
  | CBase ms _ =>
      flat_map (fun pv =>
                  if kept (fst pv) (snd pv) then
                    if is_base_c (snd pv) && wants_detach (fst pv)
                    then map (fun nd => (fst nd + 1, snd nd)) (boundaries_crossed (snd pv))
                         ++ [(1, snd pv)]
                    else boundaries_crossed (snd pv)
                  else []) ms
  | _ => []
  end.


(** [traverse_base] called on a new object with content [c] in the middle
    of a traversal, as [traverse_value] calls it. *)
Definition traverse_base_on `{FloatText} (fuel : nat) (c : content) (detach : bool)
    (s : state) : outcome (string * value) :=
  traverse_base fuel (fst (hold c s))
    (with_detach_lineage (fun dl => dl ++ [detach]) (snd (hold c s))).

(** The object [{mid: {"@leaf": {x: 5}}}]: a detached object inside an
    object held inline. *)
Definition scenario_inline : content :=
  CBase [("mid", CBase [("@leaf", CBase [("x", CInt 5)] None)] None)] None.

(** The event and the write a path to a detached object stands for. *)
Definition event_of `{FloatText} (nd : Z * content) : string * Z :=
  (id_of (record_of (snd nd)), fst nd).

Definition write_of `{FloatText} (nd : Z * content) : string * string :=
  (id_of (record_of (snd nd)), text_of (record_of (snd nd))).

(** The hash and the text of the root record of [scenario_inline]. *)
Definition inline_record_hash : string := "9759251e83f52ede8ccb7b28514a7777".

Definition inline_record_text : string :=
  q ("{'id': '9759251e83f52ede8ccb7b28514a7777', "
     +++ "'mid': {'id': '3be29b29519594c786e7c6ee93b3cf52', "
     +++ "'@leaf': {'referencedId': 'c289c295e43c949c76a6eb230aa3a789', "
     +++ "'speckleType': 'reference'}, "
     +++ "'__closure': {'c289c295e43c949c76a6eb230aa3a789': 1}}, "
     +++ "'__closure': {'c289c295e43c949c76a6eb230aa3a789': 2}}").

(** A record with a manifest of two entries, as [json.loads] would lay it
    out: the record at location 0, its [__closure] at location 1. *)
Definition record_with_closure : heap :=
  [[("id", VStr "r"); ("a", VInt 1); ("__closure", VDict 1%nat)];
   [("h1", VInt 1); ("h2", VInt 2)]].

(** The record [{"id": "r", "@c": {"referencedId": "H", "speckleType":
    "reference"}}] at location 0, its marker at location 1. *)
Definition record_with_reference : heap :=
  [[("id", VStr "r"); ("@c", VDict 1%nat)];
   [("referencedId", VStr "H"); ("speckleType", VStr "reference")]].

(** The record [{"referencedId": "H"}] alone. *)
Definition marker_alone : heap := [[("referencedId", VStr "H")]].


(** The object [{a: 1}], and the object [read_json] makes of its record,
    which has the record's id as a property. *)
Definition scenario_plain : content := CBase [("a", CInt 1)] None.

Definition scenario_recomposed : content :=
  CBase [("id", CStr "05d487b0cad26a92ee18cf93ae77a67a"); ("a", CInt 1)] None.

Definition recomposed_record_hash : string := "f51641bae6e1816d107f9096e5feef26".

Definition recomposed_record_text : string :=
  q "{'id': 'f51641bae6e1816d107f9096e5feef26', 'a': 1}".

(** Another store: other tokens, no transport, and serializer fields left
    over from an earlier traversal. *)
Definition other_store (h : heap) : state :=
  State h [] [] None [false; true] ["stale"] [("stale", [("x", 3)])] []
    (fun n => String "u" (tally n)) 7.

(** ** Round trips

    What recomposition makes of the records of an object, for the objects
    it gives back unchanged. *)

(** Data that [handle_value] hands back as it is: primitives, lists of
    such data, and dictionaries of such data that have no [speckleType]. *)
Fixpoint plain (c : content) : bool :=
  match c with
  | CBool _ | CInt _ | CFloat _ | CStr _ => true
  | CSeq KList xs => forallb plain xs
  | CDict kvs =>
      negb (dict_has "speckleType" kvs) && forallb (fun kv => plain (snd kv)) kvs
  | _ => false
  end.











(** The object [{xs: [1, None]}]. *)
Definition scenario_none : content :=
  CBase [("xs", CSeq KList [CInt 1; CNone])] None.

Definition below (n : nat) (l : loc) : Prop := (l < n)%nat.




(** ** What a run may touch *)

(** [keeps I m]: whether [m] returns or raises, it leaves a store related by
    [I] to the one it started from. *)
Definition keeps (I : state -> state -> Prop) {A : Type} (m : M A) : Prop :=
  forall s,
    match m s with
    | Ok _ s' | Raise _ s' => I s s'
    | OutOfFuel => True
    end.

(** Recomposition's footprint: the serializer's fields are as before, no
    transport has lost or gained a record, and only the read transport may
    have recorded calls. *)
Definition reading_only (s s' : state) : Prop :=
  write_transports s' = write_transports s /\
  read_transport s' = read_transport s /\
  detach_lineage s' = detach_lineage s /\
  lineage s' = lineage s /\
  family_tree s' = family_tree s /\
  closure_table s' = closure_table s /\
  uuid_count s' = uuid_count s /\
  List.length (transports s') = List.length (transports s) /\
  forall t tr, transports s !! t = Some tr ->
    exists tr', transports s' !! t = Some tr' /\
      name tr' = name tr /\ saved tr' = saved tr /\
      (read_transport s <> Some t -> tr' = tr).

(** Decomposition's footprint: the configuration is as before, no transport
    was asked for anything, records were only added, and only to write
    transports; the heap has not shrunk. *)
Definition writing_only (s s' : state) : Prop :=
  write_transports s' = write_transports s /\
  read_transport s' = read_transport s /\
  uuid_source s' = uuid_source s /\
  (uuid_count s <= uuid_count s')%nat /\
  (List.length (heap_of s) <= List.length (heap_of s'))%nat /\
  List.length (transports s') = List.length (transports s) /\
  forall t tr, transports s !! t = Some tr ->
    exists tr', transports s' !! t = Some tr' /\
      name tr' = name tr /\ fetched tr' = fetched tr /\
      (exists more, saved tr' = saved tr ++ more) /\
      (~ In t (write_transports s) -> tr' = tr).

(** A serializer with no transport at all. *)
Definition bare_store (h : heap) : state :=
  State h [] [] None [] [] [] [] tally 0.



(** The dictionary [{"a": [1, "x"], "d": {"k": 2}}]. *)
Definition scenario_data : content :=
  CDict [("a", CSeq KList [CInt 1; CStr "x"]); ("d", CDict [("k", CInt 2)])].

(** A dictionary that [recompose_base] turns into an object by copying: its
    keys are distinct, its values primitive, and it has no [__closure]. *)
Definition flat_record (d : entries) : bool :=
  unique_names (dict_keys d)
  && forallb (fun kv => is_primitive (snd kv)) d
  && negb (dict_has "__closure" d).

(** What [handle_value] leaves under a key of a dictionary whose values are
    primitive or refer to typed flat records: the object with the record's
    properties in place of the record. *)
Definition recomposed_entry (h : heap) (kv : string * value) : string * value :=
  (fst kv,
   match snd kv with
   | VDict lt => VBase (cell h lt) None
   | v => v
   end).

(** The dictionary [{"n": 1, "k": {"speckleType": "T", "a": 1}}] at location
    1, the typed record it holds at location 0. *)
Definition dictionary_with_typed_record : heap :=
  [[("speckleType", VStr "T"); ("a", VInt 1)];
   [("n", VInt 1); ("k", VDict 0%nat)]].

(** * Properties *)

(** ** Dictionaries *)

Section DictFacts.
Context {A : Type}.
Implicit Types (d : list (string * A)) (k : string) (v : A).

Lemma dict_get_set_eq k v d : dict_get k (dict_set k v d) = Some v.
Proof.
  induction d as [|[k' v'] d IH]; simpl.
  - now rewrite String.eqb_refl.
  - destruct (String.eqb k k') eqn:E; simpl; rewrite ?String.eqb_refl, ?E; auto.
Qed.

Lemma dict_get_set_ne k k' v d :
  k <> k' -> dict_get k' (dict_set k v d) = dict_get k' d.
Proof.
  intros Hne. induction d as [|[k0 v0] d IH]; simpl.
  - destruct (String.eqb k' k) eqn:E; auto.
    apply String.eqb_eq in E. congruence.
  - destruct (String.eqb k k0) eqn:E; simpl.
    + apply String.eqb_eq in E. subst k0.
      destruct (String.eqb k' k) eqn:E'; auto.
      apply String.eqb_eq in E'. congruence.
    + destruct (String.eqb k' k0); auto.
Qed.

Lemma dict_get_set k k' v d :
  dict_get k' (dict_set k v d) = if String.eqb k k' then Some v else dict_get k' d.
Proof.
  destruct (String.eqb k k') eqn:E.
  - apply String.eqb_eq in E. subst. apply dict_get_set_eq.
  - apply String.eqb_neq in E. now apply dict_get_set_ne.
Qed.

Lemma dict_set_fresh k v d : dict_get k d = None -> dict_set k v d = d ++ [(k, v)].
Proof.
  induction d as [|[k' v'] d IH]; simpl; auto.
  destruct (String.eqb k k'); [discriminate|]. intros Hn. now rewrite IH.
Qed.

Lemma dict_get_app k d d' :
  dict_get k (d ++ d') = match dict_get k d with Some v => Some v | None => dict_get k d' end.
Proof.
  induction d as [|[k' v'] d IH]; simpl; auto.
  destruct (String.eqb k k'); auto.
Qed.

Lemma dict_get_None_in k d : dict_get k d = None <-> ~ In k (dict_keys d).
Proof.
  induction d as [|[k' v'] d IH]; simpl.
  - tauto.
  - destruct (String.eqb k k') eqn:E.
    + apply String.eqb_eq in E. subst. split; [discriminate | tauto].
    + apply String.eqb_neq in E. rewrite IH. split; [intros Hn [Heq|Hin]; congruence | tauto].
Qed.

Lemma dict_keys_set_present k v d :
  dict_get k d <> None -> dict_keys (dict_set k v d) = dict_keys d.
Proof.
  induction d as [|[k' v'] d IH]; simpl; [congruence|].
  destruct (String.eqb k k') eqn:E; simpl.
  - apply String.eqb_eq in E. now subst.
  - intros Hn. now rewrite IH.
Qed.

Lemma dict_has_get k d : dict_has k d = true <-> dict_get k d <> None.
Proof. unfold dict_has. destruct (dict_get k d); split; congruence. Qed.

End DictFacts.

Lemma unique_names_cons k ks :
  unique_names (k :: ks) = true <-> ~ In k ks /\ unique_names ks = true.
Proof.
  simpl. rewrite andb_true_iff, negb_true_iff. split.
  - intros [Hex Hu]. split; auto. intros Hin.
    assert (existsb (String.eqb k) ks = true); [|congruence].
    apply existsb_exists. exists k. split; auto. apply String.eqb_refl.
  - intros [Hn Hu]. split; auto.
    destruct (existsb (String.eqb k) ks) eqn:E; auto.
    apply existsb_exists in E as (x & Hin & Hx). apply String.eqb_eq in Hx. now subst.
Qed.

(** ** The heap *)

Lemma cell_lookup (h : heap) l es : h !! l = Some es -> cell h l = es.
Proof. unfold cell. now intros ->. Qed.

Lemma cell_snoc (h : heap) d : cell (h ++ [d]) (List.length h) = d.
Proof. unfold cell. rewrite lookup_app_r by lia. now rewrite Nat.sub_diag. Qed.

Lemma lookup_snoc_old (h : heap) d l : (l < List.length h)%nat -> (h ++ [d]) !! l = h !! l.
Proof. intros Hl. now rewrite lookup_app_l. Qed.

Lemma lookup_snoc_new (h : heap) d : (h ++ [d]) !! List.length h = Some d.
Proof. rewrite lookup_app_r by lia. now rewrite Nat.sub_diag. Qed.

Lemma heap_store_lookup_eq (h : heap) l d :
  (l < List.length h)%nat -> heap_store l d h !! l = Some d.
Proof. intros Hl. unfold heap_store. now apply list_lookup_insert_eq. Qed.

Lemma heap_store_lookup_ne (h : heap) l l' d :
  l <> l' -> heap_store l d h !! l' = h !! l'.
Proof. intros Hl. unfold heap_store. now apply list_lookup_insert_ne. Qed.

Lemma heap_store_length (h : heap) l d : List.length (heap_store l d h) = List.length h.
Proof. unfold heap_store. apply length_insert. Qed.

(** ** Induction over contents *)

Lemma content_induction (P : content -> Prop) :
  P CNone ->
  (forall b, P (CBool b)) ->
  (forall z, P (CInt z)) ->
  (forall f, P (CFloat f)) ->
  (forall s, P (CStr s)) ->
  (forall k xs, Forall P xs -> P (CSeq k xs)) ->
  (forall kvs, Forall (fun kv => P (snd kv)) kvs -> P (CDict kvs)) ->
  (forall ms hint, Forall (fun kv => P (snd kv)) ms -> P (CBase ms hint)) ->
  (forall text, P (COpaque None text)) ->
  (forall d text, P d -> P (COpaque (Some d) text)) ->
  forall c, P c.
Proof.
  intros HN HB HI HF HS Hseq Hdict Hbase Hop0 Hop1.
  fix IH 1. intros [ | b | z | f | s | k xs | kvs | ms hint | [d|] text ].
  - apply HN.
  - apply HB.
  - apply HI.
  - apply HF.
  - apply HS.
  - apply Hseq. induction xs as [|x xs IHxs]; constructor; [apply IH | apply IHxs].
  - apply Hdict. induction kvs as [|[k x] kvs IHk]; constructor; [apply IH | apply IHk].
  - apply Hbase. induction ms as [|[k x] ms IHk]; constructor; [apply IH | apply IHk].
  - apply Hop1. apply IH.
  - apply Hop0.
Qed.

(** ** Reading contents out of the heap *)

Lemma all2_impl {C V} (R R' : C -> V -> Prop) cs vs :
  Forall (fun c => forall v, R c v -> R' c v) cs -> all2 R cs vs -> all2 R' cs vs.
Proof.
  intros HF. revert vs. induction HF as [|c cs Hc _ IH]; intros [|v vs]; simpl; auto.
  intros [H1 H2]. split; auto.
Qed.

Lemma chain_impl {C V} (R R' : C -> nat -> nat -> V -> Prop) cs a b vs :
  Forall (fun c => forall a b v, R c a b v -> R' c a b v) cs ->
  chain R cs a b vs -> chain R' cs a b vs.
Proof.
  intros HF. revert a vs. induction HF as [|c cs Hc _ IH]; intros a [|v vs]; simpl; auto.
  intros (m & H1 & H2). exists m. split; auto.
Qed.

Lemma reads_in_mono (P Q : loc -> Prop) h c v :
  (forall l, P l -> Q l) -> reads_in P h c v -> reads_in Q h c v.
Proof.
  intros HPQ. revert v. induction c using content_induction; intros v; destruct v; simpl; auto;
    try solve [destruct flat; intuition auto].
  - intros [-> Ha]. split; auto. revert Ha. apply all2_impl. auto.
  - intros (Hl & es & Hes & Ha). split; auto. exists es. split; auto.
    revert Ha. apply all2_impl.
    eapply Forall_impl; [exact H|]. simpl. intros kc IHc kv [Hk Hr]. split; auto.
  - intros [-> Ha]. split; auto. revert Ha. apply all2_impl.
    eapply Forall_impl; [exact H|]. simpl. intros kc IHc kv [Hk Hr]. split; auto.
Qed.

Lemma reads_in_agree (P : loc -> Prop) (h h' : heap) c v :
  (forall l, P l -> h' !! l = h !! l) -> reads_in P h c v -> reads_in P h' c v.
Proof.
  intros Hag. revert v. induction c using content_induction; intros v; destruct v; simpl; auto;
    try solve [destruct flat; intuition auto].
  - intros [-> Ha]. split; auto. revert Ha. apply all2_impl. auto.
  - intros (Hl & es & Hes & Ha). split; auto. exists es. split; [now rewrite Hag|].
    revert Ha. apply all2_impl.
    eapply Forall_impl; [exact H|]. simpl. intros kc IHc kv [Hk Hr]. split; auto.
  - intros [-> Ha]. split; auto. revert Ha. apply all2_impl.
    eapply Forall_impl; [exact H|]. simpl. intros kc IHc kv [Hk Hr]. split; auto.
Qed.

Lemma chain_le {C V} (R : C -> nat -> nat -> V -> Prop) cs a b vs :
  Forall (fun c => forall a b v, R c a b v -> (a <= b)%nat) cs ->
  chain R cs a b vs -> (a <= b)%nat.
Proof.
  intros HF. revert a vs. induction HF as [|c cs Hc _ IH]; intros a [|v vs]; simpl; try tauto.
  - lia.
  - intros (m & H1 & H2). apply Hc in H1. apply IH in H2. lia.
Qed.

Lemma realises_le h c a b v : realises h c a b v -> (a <= b)%nat.
Proof.
  revert a b v. induction c using content_induction; intros i j v; destruct v; simpl;
    try tauto; try (intros [_ ->]; lia); try (intros ->; lia);
    try solve [destruct flat; try tauto; intros [_ Hr]; subst; eauto].
  - intros [_ Hc]. revert Hc. apply chain_le. auto.
  - intros (-> & es & _ & Hc). apply chain_le in Hc; [lia|].
    eapply Forall_impl; [exact H|]. simpl. intros kc IHc a' b' kv [_ Hr]. eauto.
  - intros [_ Hc]. revert Hc. apply chain_le.
    eapply Forall_impl; [exact H|]. simpl. intros kc IHc a' b' kv [_ Hr]. eauto.
Qed.

Lemma chain_within {C V} (R R' : C -> nat -> nat -> V -> Prop) lo hi cs a b vs :
  Forall (fun c => forall a b v, R c a b v -> (a <= b)%nat) cs ->
  Forall (fun c => forall a' b' v, (lo <= a')%nat -> (b' <= hi)%nat ->
                     R c a' b' v -> R' c a' b' v) cs ->
  (lo <= a)%nat -> (b <= hi)%nat ->
  chain R cs a b vs -> chain R' cs a b vs.
Proof.
  intros Hle HF. revert a vs. induction cs as [|c cs IH]; intros a [|v vs] Ha Hb; simpl; auto.
  inversion Hle as [|? ? Hc Hle']; subst. inversion HF as [|? ? Hr HF']; subst.
  intros (m & H1 & H2). exists m.
  pose proof (Hc _ _ _ H1). pose proof (chain_le _ _ _ _ _ Hle' H2).
  split; [apply Hr; auto; lia | apply IH; auto; lia].
Qed.

Lemma fields_le h (kvs : list (string * content)) :
  Forall (fun kc : string * content => forall a b (kv : string * value),
            fst kc = fst kv /\ realises h (snd kc) a b (snd kv) -> (a <= b)%nat) kvs.
Proof. apply Forall_forall. intros kc _ a b kv [_ Hr]. eapply realises_le; eauto. Qed.

Lemma items_le h (cs : list content) :
  Forall (fun c => forall a b v, realises h c a b v -> (a <= b)%nat) cs.
Proof. apply Forall_forall. intros c _ a b v. apply realises_le. Qed.

Lemma realises_within (h h' : heap) lo hi c a b v :
  (forall l, between lo hi l -> h' !! l = h !! l) ->
  (lo <= a)%nat -> (b <= hi)%nat ->
  realises h c a b v -> realises h' c a b v.
Proof.
  intros Hag. revert a b v.
  induction c using content_induction; intros i j v Ha Hb; destruct v; simpl; auto;
    try solve [destruct flat; auto; intros [-> Hr]; split; auto].
  - intros [-> Hc]. split; auto. revert Hc.
    apply (chain_within _ _ lo hi); [apply items_le| |lia|lia].
    eapply Forall_impl; [exact H|]. simpl. auto.
  - intros (-> & es & Hes & Hc). split; auto. exists es.
    pose proof (chain_le _ _ _ _ _ (fields_le h kvs) Hc).
    split; [rewrite Hag; auto; unfold between; lia|]. revert Hc.
    apply (chain_within _ _ lo hi); [apply fields_le| |lia|lia].
    eapply Forall_impl; [exact H|]. simpl. intros kc IHc a' b' kv ? ? [Hk Hr]. split; auto.
  - intros [-> Hc]. split; auto. revert Hc.
    apply (chain_within _ _ lo hi); [apply fields_le| |lia|lia].
    eapply Forall_impl; [exact H|]. simpl. intros kc IHc a' b' kv ? ? [Hk Hr]. split; auto.
Qed.


Lemma chain_all2 {C V} (R : C -> nat -> nat -> V -> Prop) (Q : C -> V -> Prop) lo hi cs a b vs :
  Forall (fun c => forall a b v, R c a b v -> (a <= b)%nat) cs ->
  Forall (fun c => forall a' b' v, (lo <= a')%nat -> (b' <= hi)%nat ->
                     R c a' b' v -> Q c v) cs ->
  (lo <= a)%nat -> (b <= hi)%nat ->
  chain R cs a b vs -> all2 Q cs vs.
Proof.
  intros Hle HF. revert a vs. induction cs as [|c cs IH]; intros a [|v vs] Ha Hb; simpl; auto.
  inversion Hle as [|? ? Hc Hle']; subst. inversion HF as [|? ? Hr HF']; subst.
  intros (m & H1 & H2).
  pose proof (Hc _ _ _ H1). pose proof (chain_le _ _ _ _ _ Hle' H2).
  split; [apply (Hr a m v); [lia|lia|exact H1] | apply (IH Hle' HF' m vs); [lia|lia|exact H2]].
Qed.

Lemma realises_reads_within h lo hi c a b v :
  (lo <= a)%nat -> (b <= hi)%nat ->
  realises h c a b v -> reads_in (between lo hi) h c v.
Proof.
  revert a b v.
  induction c using content_induction; intros i j v Ha Hb; destruct v; simpl; try tauto;
    try solve [destruct flat; try tauto; intros [-> Hr]; split; eauto].
  - intros [-> Hc]. split; auto. revert Hc.
    apply (chain_all2 _ _ lo hi); [apply items_le| |lia|lia].
    eapply Forall_impl; [exact H|]. simpl. eauto.
  - intros (-> & es & Hes & Hc).
    pose proof (chain_le _ _ _ _ _ (fields_le h kvs) Hc).
    split; [unfold between; lia|]. exists es. split; auto.
    revert Hc. apply (chain_all2 _ _ lo hi); [apply fields_le| |lia|lia].
    eapply Forall_impl; [exact H|]. simpl. intros kc IHc a' b' kv ? ? [Hk Hr]. split; eauto.
  - intros [-> Hc]. split; auto. revert Hc.
    apply (chain_all2 _ _ lo hi); [apply fields_le| |lia|lia].
    eapply Forall_impl; [exact H|]. simpl. intros kc IHc a' b' kv ? ? [Hk Hr]. split; eauto.
Qed.

Lemma realises_reads h c a b v :
  realises h c a b v -> reads_in (between a b) h c v.
Proof. apply realises_reads_within; auto. Qed.

Lemma realises_primitive h c a b v :
  realises h c a b v -> is_primitive v = is_primitive_c c.
Proof. destruct c as [ | | | | | | | |[d|] ?], v as [ | | | | | | | |[w|] ?]; simpl; tauto. Qed.

Lemma realises_base h c a b v :
  realises h c a b v -> is_base v = is_base_c c.
Proof. destruct c as [ | | | | | | | |[d|] ?], v as [ | | | | | | | |[w|] ?]; simpl; tauto. Qed.

Lemma realises_primitive_eq h c a b v :
  realises h c a b v -> is_primitive_c c = true -> a = b /\ forall P h', reads_in P h' c v.
Proof.
  destruct c as [ | | | | | | | |[d|] ?], v as [ | | | | | | | |[w|] ?]; simpl;
    try tauto; try discriminate; intros [-> ->]; auto.
Qed.

Lemma realises_truthy h c a b v :
  realises h c a b v -> truthy h v = truthy_c c.
Proof.
  destruct c as [ | | | | |k xs|kvs| |[d|] ?], v as [ | | | | |k' vs|l| |[w|] ?]; simpl;
    try tauto; try (intros [-> _]; reflexivity).
  - intros [_ Hc]. destruct xs, vs; simpl in *; tauto.
  - intros (_ & es & Hes & Hc). rewrite (cell_lookup _ _ _ Hes).
    destruct kvs, es; simpl in *; tauto.
Qed.

(** ** Snapshots *)

Lemma list_max_le_all (ns : list nat) n : In n ns -> (n <= list_max ns)%nat.
Proof.
  induction ns as [|m ns IH]; simpl; [tauto|]. intros [->|Hin]; [lia|].
  apply IH in Hin. lia.
Qed.

Lemma option_all_reads (f : value -> option content) (R : content -> value -> Prop) cs vs :
  Forall (fun c => forall v, R c v -> f v = Some c) cs ->
  all2 R cs vs -> option_all f vs = Some cs.
Proof.
  intros HF. revert vs. induction HF as [|c cs Hc _ IH]; intros [|v vs]; simpl; try tauto.
  intros [H1 H2]. now rewrite (Hc _ H1), (IH _ H2).
Qed.

Lemma option_fields_reads (f : value -> option content)
    (R : content -> value -> Prop) (kcs : list (string * content)) (kvs : list (string * value)) :
  Forall (fun kc => forall v, R (snd kc) v -> f v = Some (snd kc)) kcs ->
  all2 (fun kc kv => fst kc = fst kv /\ R (snd kc) (snd kv)) kcs kvs ->
  option_fields f kvs = Some kcs.
Proof.
  intros HF. revert kvs. induction HF as [|[k c] kcs Hc _ IH]; intros [|[k' v] kvs]; simpl; try tauto.
  intros [[Hk H1] H2]. simpl in *. subst k'. now rewrite (Hc _ H1), (IH _ H2).
Qed.

Lemma reads_snapshot P h c v fuel :
  reads_in P h c v -> (height c <= fuel)%nat -> snapshot fuel h v = Some c.
Proof.
  revert v fuel. induction c using content_induction; intros v [|fuel] Hr Hh;
    simpl in Hh; try lia; destruct v; simpl in Hr; try tauto; simpl;
    try (subst; reflexivity).
  - destruct Hr as [-> Ha].
    erewrite option_all_reads; [reflexivity| |exact Ha].
    rewrite List.Forall_forall in H |- *. intros c Hin w Hw. apply H; auto.
    pose proof (list_max_le_all (map height xs) (height c) (in_map _ _ _ Hin)). lia.
  - destruct Hr as (_ & es & Hes & Ha). rewrite (cell_lookup _ _ _ Hes).
    erewrite option_fields_reads; [reflexivity| |exact Ha].
    rewrite List.Forall_forall in H |- *. intros kc Hin w Hw. apply H; auto.
    pose proof (list_max_le_all (map (fun kv => height (snd kv)) kvs) _
                  (in_map (fun kv => height (snd kv)) _ _ Hin)). simpl in *. lia.
  - destruct Hr as (-> & Ha).
    erewrite option_fields_reads; [reflexivity| |exact Ha].
    rewrite List.Forall_forall in H |- *. intros kc Hin w Hw. apply H; auto.
    pose proof (list_max_le_all (map (fun kv => height (snd kv)) ms) _
                  (in_map (fun kv => height (snd kv)) _ _ Hin)). simpl in *. lia.
  - destruct flat; [tauto|]. now subst.
  - destruct flat; [|tauto]. destruct Hr as [-> Hr].
    rewrite (IHc v fuel Hr); [reflexivity|lia].
Qed.

(** ** Laying a content out in the heap *)

Lemma alloc_many_chain (h0 : heap) cs :
  Forall (fun c => forall h v h', alloc_content c h = (v, h') ->
            exists ext, h' = h ++ ext /\
              forall h'', realises (h' ++ h'') c (List.length h) (List.length h') v) cs ->
  forall h vs h', alloc_many alloc_content cs h = (vs, h') ->
    exists ext, h' = h ++ ext /\
      forall h'', chain (realises (h' ++ h'')) cs (List.length h) (List.length h') vs.
Proof.
  intros HF. induction HF as [|c cs Hc _ IH]; intros h vs h'; simpl.
  - intros [= <- <-]. exists []. rewrite app_nil_r. auto.
  - destruct (alloc_content c h) as [v h1] eqn:E1.
    destruct (alloc_many alloc_content cs h1) as [vs' h2] eqn:E2.
    intros [= <- <-]. destruct (Hc _ _ _ E1) as (e1 & -> & R1).
    destruct (IH _ _ _ E2) as (e2 & -> & R2).
    exists (e1 ++ e2). rewrite app_assoc. split; auto.
    intros h''. simpl. exists (List.length (h ++ e1)). split; auto.
    rewrite <- app_assoc. apply R1.
Qed.

Lemma alloc_fields_chain (kcs : list (string * content)) :
  Forall (fun kc => forall h v h', alloc_content (snd kc) h = (v, h') ->
            exists ext, h' = h ++ ext /\
              forall h'', realises (h' ++ h'') (snd kc) (List.length h) (List.length h') v) kcs ->
  forall h es h', alloc_fields alloc_content kcs h = (es, h') ->
    exists ext, h' = h ++ ext /\
      forall h'', chain (fun kc a b kv => fst kc = fst kv /\
                           realises (h' ++ h'') (snd kc) a b (snd kv))
                    kcs (List.length h) (List.length h') es.
Proof.
  intros HF. induction HF as [|[k c] kcs Hc _ IH]; intros h es h'; simpl.
  - intros [= <- <-]. exists []. rewrite app_nil_r. auto.
  - destruct (alloc_content c h) as [v h1] eqn:E1.
    destruct (alloc_fields alloc_content kcs h1) as [es' h2] eqn:E2.
    intros [= <- <-]. destruct (Hc _ _ _ E1) as (e1 & -> & R1).
    destruct (IH _ _ _ E2) as (e2 & -> & R2).
    exists (e1 ++ e2). rewrite app_assoc. split; auto.
    intros h''. simpl. exists (List.length (h ++ e1)). split; auto.
    split; auto. rewrite <- app_assoc. apply R1.
Qed.

Lemma alloc_content_realises c :
  forall h v h', alloc_content c h = (v, h') ->
    exists ext, h' = h ++ ext /\
      forall h'', realises (h' ++ h'') c (List.length h) (List.length h') v.
Proof.
  induction c using content_induction; intros h v h'; simpl;
    try (intros [= <- <-]; exists []; rewrite app_nil_r; simpl; auto; fail).
  - destruct (alloc_many alloc_content xs h) as [vs h1] eqn:E. intros [= <- <-].
    destruct (alloc_many_chain h xs H _ _ _ E) as (ext & -> & R).
    exists ext. split; [reflexivity|]. intros h''. simpl. auto.
  - destruct (alloc_fields alloc_content kvs h) as [es h1] eqn:E. intros [= <- <-].
    destruct (alloc_fields_chain kvs H _ _ _ E) as (ext & -> & R).
    exists (ext ++ [es]). rewrite app_assoc. split; auto.
    intros h''. simpl. split; [rewrite length_app; simpl; lia|].
    exists es. split.
    + rewrite <- app_assoc. rewrite lookup_app_r by lia. rewrite Nat.sub_diag. reflexivity.
    + rewrite <- app_assoc. apply R.
  - destruct (alloc_fields alloc_content ms h) as [es h1] eqn:E. intros [= <- <-].
    destruct (alloc_fields_chain ms H _ _ _ E) as (ext & -> & R).
    exists ext. split; [reflexivity|]. intros h''. simpl. auto.
  - destruct (alloc_content c h) as [w h1] eqn:E. intros [= <- <-].
    destruct (IHc _ _ _ E) as (ext & -> & R). exists ext. split; [reflexivity|].
    intros h''. simpl. auto.
Qed.

Lemma alloc_content_layout c h :
  realises (snd (alloc_content c h)) c (List.length h)
    (List.length (snd (alloc_content c h))) (fst (alloc_content c h)) /\
  (List.length h <= List.length (snd (alloc_content c h)))%nat /\
  forall l, (l < List.length h)%nat -> snd (alloc_content c h) !! l = h !! l.
Proof.
  destruct (alloc_content c h) as [v h'] eqn:E. simpl.
  destruct (alloc_content_realises c _ _ _ E) as (ext & -> & R).
  split; [|split].
  - specialize (R []). now rewrite app_nil_r in R.
  - rewrite length_app. lia.
  - intros l Hl. now rewrite lookup_app_l.
Qed.

(** ** The family tree *)

Lemma note_reference_get h d refs :
  exists d', dict_get h (note_reference h d refs) = Some d' /\ d' <= d.
Proof.
  unfold note_reference. destruct (dict_get h refs) as [d0|] eqn:E.
  - destruct (d <? d0) eqn:L.
    + exists d. rewrite dict_get_set_eq. split; [auto|lia].
    + exists d0. split; [auto|lia].
  - exists d. rewrite dict_get_set_eq. split; [auto|lia].
Qed.

Lemma note_reference_again h d refs :
  note_reference h d (note_reference h d refs) = note_reference h d refs.
Proof.
  destruct (note_reference_get h d refs) as (d' & Hg & Hle).
  unfold note_reference at 1. rewrite Hg.
  destruct (d <? d') eqn:L; [lia|reflexivity].
Qed.

Lemma track_reference_other p parents h d tree :
  ~ In p parents -> dict_get p (track_reference parents h d tree) = dict_get p tree.
Proof.
  revert tree. induction parents as [|q parents IH]; intros tree Hn; simpl; auto.
  rewrite IH by (simpl in Hn; tauto).
  assert (q <> p) by (simpl in Hn; tauto).
  rewrite dict_get_set_ne by auto.
  destruct (dict_has q tree); auto. now rewrite dict_get_set_ne.
Qed.

Lemma track_reference_parent p parents h d tree :
  In p parents ->
  dict_get p (track_reference parents h d tree)
  = Some (note_reference h d (entry_or_empty (dict_get p tree))).
Proof.
  revert tree. induction parents as [|q parents IH]; intros tree Hin; simpl; [destruct Hin|].
  set (tree1 := if dict_has q tree then tree else dict_set q [] tree).
  assert (Hrefs : entry_or_empty (dict_get q tree1) = entry_or_empty (dict_get q tree)).
  { unfold tree1, dict_has. destruct (dict_get q tree) eqn:E; [now rewrite E|].
    now rewrite dict_get_set_eq. }
  assert (Hother : forall p', q <> p' -> dict_get p' tree1 = dict_get p' tree).
  { intros p' Hne. unfold tree1. destruct (dict_has q tree); auto.
    now rewrite dict_get_set_ne. }
  change (match dict_get q tree1 with Some r => r | None => [] end)
    with (entry_or_empty (dict_get q tree1)).
  rewrite Hrefs.
  destruct (String.eqb q p) eqn:E.
  - apply String.eqb_eq in E. subst q.
    destruct (in_dec string_dec p parents) as [Hin'|Hn'].
    + rewrite IH by auto. rewrite dict_get_set_eq. simpl.
      now rewrite note_reference_again.
    + rewrite track_reference_other by auto. now rewrite dict_get_set_eq.
  - apply String.eqb_neq in E. destruct Hin as [->|Hin]; [congruence|].
    rewrite IH by auto. rewrite dict_get_set_ne by auto. now rewrite Hother.
Qed.

Lemma extend_app entry evs1 evs2 :
  extend (extend entry evs1) evs2 = extend entry (evs1 ++ evs2).
Proof.
  destruct evs1 as [|e1 evs1]; [reflexivity|].
  destruct evs2 as [|e2 evs2]; [now rewrite app_nil_r|].
  unfold extend. simpl. now rewrite fold_left_app.
Qed.

Lemma extend_nil entry : extend entry [] = entry.
Proof. reflexivity. Qed.

Lemma extend_one entry h d :
  extend entry [(h, d)] = Some (note_reference h d (entry_or_empty entry)).
Proof. reflexivity. Qed.

Lemma shift_app n e1 e2 : shift n (e1 ++ e2) = shift n e1 ++ shift n e2.
Proof. unfold shift. apply map_app. Qed.

Lemma shift_shift n m e : shift n (shift m e) = shift (m + n) e.
Proof.
  unfold shift. rewrite map_map. apply map_ext. intros [h d]. simpl. f_equal. lia.
Qed.

(** ** Transports *)

Lemma deliver_all_app ts ws1 ws2 trs :
  deliver_all ts (ws1 ++ ws2) trs = deliver_all ts ws2 (deliver_all ts ws1 trs).
Proof. unfold deliver_all. apply fold_left_app. Qed.

(** ** Composing effects *)

Lemma same_config_refl s : same_config s s.
Proof. unfold same_config. repeat split; auto. Qed.

Lemma same_config_trans s s1 s2 :
  same_config s s1 -> same_config s1 s2 -> same_config s s2.
Proof.
  unfold same_config. intros (A1 & A2 & A3 & A4 & A5 & A6 & A7) (B1 & B2 & B3 & B4 & B5 & B6 & B7).
  repeat split; try congruence; lia.
Qed.

Lemma effect_refl s F : fresh_tokens s -> effect s F [] [] s.
Proof.
  intros Hf. split; [apply same_config_refl|]. split; [|split; auto].
  - split; [reflexivity|]. intros p _. reflexivity.
  - intros l _ _. reflexivity.
Qed.

Lemma effect_seq s s1 s2 (F1 F2 F : loc -> Prop) e1 e2 w1 w2 :
  effect s F1 e1 w1 s1 -> effect s1 F2 e2 w2 s2 ->
  (forall l, F1 l -> F l) -> (forall l, F2 l -> F l) ->
  effect s F (e1 ++ e2) (w1 ++ w2) s2.
Proof.
  intros (C1 & (T1 & A1) & R1 & _) (C2 & (T2 & A2) & R2 & Hf) H1 H2.
  pose proof C1 as (c1 & c2 & c3 & c4 & c5 & c6 & c7).
  split; [eapply same_config_trans; eauto|]. split; [|split; auto].
  - split.
    + rewrite T2, T1, c1. symmetry. apply deliver_all_app.
    + intros p Hp. rewrite A2 by (rewrite c5; auto). rewrite A1 by auto.
      unfold depth_of. rewrite c4. rewrite extend_app. now rewrite shift_app.
  - intros l Hl Hn. rewrite R2; [apply R1; auto| lia | auto].
Qed.

Lemma effect_weaken s s' (F F' : loc -> Prop) e w :
  effect s F e w s' -> (forall l, F l -> F' l) -> effect s F' e w s'.
Proof.
  intros (C & T & R & Hf) HF. split; [auto|]. split; [auto|]. split; [|auto].
  intros l Hl Hn. apply R; auto.
Qed.

(** A step that only touches the heap. *)
Lemma effect_heap s (F : loc -> Prop) (f : heap -> heap) :
  fresh_tokens s ->
  (List.length (heap_of s) <= List.length (f (heap_of s)))%nat ->
  (forall l, (l < List.length (heap_of s))%nat -> ~ F l -> f (heap_of s) !! l = heap_of s !! l) ->
  effect s F [] [] (with_heap f s).
Proof.
  intros Hf Hlen Hfr. split; [|split; [|split]].
  - unfold same_config. simpl. repeat split; auto.
  - split; [reflexivity|]. intros p _. reflexivity.
  - exact Hfr.
  - exact Hf.
Qed.

(** ** Entries of dictionaries, related pairwise *)

Section PairedEntries.
Context {C V : Type} (R : C -> V -> Prop).
Implicit Types (cs : list (string * C)) (vs : list (string * V)).

Lemma paired_keys cs vs : all2 (paired R) cs vs -> map fst vs = map fst cs.
Proof.
  revert vs. induction cs as [|[k c] cs IH]; intros [|[k' v] vs]; simpl; try tauto.
  intros [[Hk _] Ha]. simpl in Hk. subst. f_equal. auto.
Qed.

Lemma paired_get k cs vs :
  all2 (paired R) cs vs ->
  match dict_get k cs, dict_get k vs with
  | Some c, Some v => R c v
  | None, None => True
  | _, _ => False
  end.
Proof.
  revert vs. induction cs as [|[k0 c] cs IH]; intros [|[k' v] vs]; simpl; try tauto.
  intros [[Hk Hr] Ha]. simpl in *. subst k'.
  destruct (String.eqb k k0); auto. apply IH; auto.
Qed.

Lemma paired_set k c v cs vs :
  all2 (paired R) cs vs -> R c v -> all2 (paired R) (dict_set k c cs) (dict_set k v vs).
Proof.
  intros Ha Hr. revert vs Ha.
  induction cs as [|[k0 c0] cs IH]; intros [|[k' v'] vs]; simpl; try tauto.
  - intros _. repeat split; auto.
  - intros [[Hk Hr'] Ha]. simpl in *. subst k'.
    destruct (String.eqb k k0); simpl; repeat split; auto.
Qed.

Lemma paired_app cs1 vs1 cs2 vs2 :
  all2 (paired R) cs1 vs1 -> all2 (paired R) cs2 vs2 -> all2 (paired R) (cs1 ++ cs2) (vs1 ++ vs2).
Proof.
  revert vs1. induction cs1 as [|c cs1 IH]; intros [|v vs1]; simpl; try tauto.
  intros [H1 H2] H3. split; auto.
Qed.

End PairedEntries.

Lemma all2_transport {C V} (R R' : C -> V -> Prop) cs vs :
  (forall c v, R c v -> R' c v) -> all2 R cs vs -> all2 R' cs vs.
Proof.
  intros HR. revert vs. induction cs as [|c cs IH]; intros [|v vs]; simpl; auto.
  intros [H1 H2]. split; auto.
Qed.

Lemma reads_in_transport (P P' : loc -> Prop) (h h' : heap) c v :
  (forall l, P l -> P' l) -> (forall l, P l -> h' !! l = h !! l) ->
  reads_in P h c v -> reads_in P' h' c v.
Proof.
  intros HP Hag Hr. apply (reads_in_mono P); auto. apply (reads_in_agree P h); auto.
Qed.

Lemma fields_transport (P P' : loc -> Prop) (h h' : heap)
    (cs : list (string * content)) (vs : list (string * value)) :
  (forall l, P l -> P' l) -> (forall l, P l -> h' !! l = h !! l) ->
  all2 (paired (reads_in P h)) cs vs -> all2 (paired (reads_in P' h')) cs vs.
Proof.
  intros HP Hag. apply all2_transport. intros c v [Hk Hr]. split; auto.
  eapply reads_in_transport; eauto.
Qed.

Lemma items_transport (P P' : loc -> Prop) (h h' : heap) (cs : list content) (vs : list value) :
  (forall l, P l -> P' l) -> (forall l, P l -> h' !! l = h !! l) ->
  all2 (reads_in P h) cs vs -> all2 (reads_in P' h') cs vs.
Proof.
  intros HP Hag. apply all2_transport. intros c v Hr. eapply reads_in_transport; eauto.
Qed.

(** Objects still to be visited are not disturbed by changes elsewhere. *)
Lemma chain_items_agree (h h' : heap) cs a b vs :
  (forall l, between a b l -> h' !! l = h !! l) ->
  chain (realises h) cs a b vs -> chain (realises h') cs a b vs.
Proof.
  intros Hag. apply (chain_within _ _ a b); [apply items_le| |lia|lia].
  apply List.Forall_forall. intros c _ a' b' v Ha Hb. apply (realises_within h h' a b); auto.
Qed.

Lemma chain_fields_agree (h h' : heap) (kcs : list (string * content)) a b
    (es : list (string * value)) :
  (forall l, between a b l -> h' !! l = h !! l) ->
  chain (fun kc a b kv => fst kc = fst kv /\ realises h (snd kc) a b (snd kv)) kcs a b es ->
  chain (fun kc a b kv => fst kc = fst kv /\ realises h' (snd kc) a b (snd kv)) kcs a b es.
Proof.
  intros Hag. apply (chain_within _ _ a b); [apply fields_le| |lia|lia].
  apply List.Forall_forall. intros c _ a' b' v Ha Hb [Hk Hr]. split; auto.
  apply (realises_within h h' a b); auto.
Qed.

Lemma chain_fields_keys h (kcs : list (string * content)) a b (es : list (string * value)) :
  chain (fun kc a b kv => fst kc = fst kv /\ realises h (snd kc) a b (snd kv)) kcs a b es ->
  map fst es = map fst kcs.
Proof.
  revert a es. induction kcs as [|[k c] kcs IH]; intros a [|[k' v] es]; simpl; try tauto.
  intros (m & [Hk _] & Hc). simpl in Hk. subst. f_equal. eauto.
Qed.

(** ** An entry in the middle of a dictionary *)

Section Middle.
Context {A : Type}.
Implicit Types (pre rest : list (string * A)).

Lemma dict_get_middle k (v : A) pre rest :
  ~ In k (map fst pre) -> dict_get k (pre ++ (k, v) :: rest) = Some v.
Proof.
  intros Hn. rewrite dict_get_app.
  destruct (dict_get k pre) eqn:E.
  - exfalso. apply Hn. destruct (dict_get_None_in k pre) as [_ H2].
    destruct (in_dec string_dec k (map fst pre)); auto.
    unfold dict_keys in H2. rewrite H2 in E; [discriminate|auto].
  - simpl. now rewrite String.eqb_refl.
Qed.

Lemma dict_set_middle k (v v' : A) pre rest :
  ~ In k (map fst pre) -> dict_set k v' (pre ++ (k, v) :: rest) = pre ++ (k, v') :: rest.
Proof.
  intros Hn. induction pre as [|[k0 v0] pre IH]; simpl.
  - now rewrite String.eqb_refl.
  - simpl in Hn. destruct (String.eqb k k0) eqn:E.
    + apply String.eqb_eq in E. subst. tauto.
    + rewrite IH; auto.
Qed.

End Middle.

Lemma unique_names_app_cons pre k rest :
  unique_names (pre ++ k :: rest) = true -> ~ In k pre.
Proof.
  induction pre as [|p pre IH]; simpl; [tauto|].
  intros Hu. apply andb_true_iff in Hu as [Hne Hu]. apply negb_true_iff in Hne.
  intros [->|Hin]; [|now apply IH].
  assert (existsb (String.eqb k) (pre ++ k :: rest) = true); [|congruence].
  apply existsb_exists. exists k. split; [|apply String.eqb_refl].
  apply in_or_app. right. now left.
Qed.

(** ** The decomposition read off an object: shape of the records *)

Section DecomposedFacts.
Context `{FloatText}.

Lemma form_seen_from_holder c d : form (seen_from_holder c d) = form d.
Proof. unfold seen_from_holder. now destruct (is_base_c c). Qed.

Lemma writes_seen_from_holder c d : writes (seen_from_holder c d) = writes d.
Proof. unfold seen_from_holder. now destruct (is_base_c c). Qed.

Lemma form_visit det c : form (visit det c) = form (decomposed c).
Proof. unfold visit. simpl. apply form_seen_from_holder. Qed.

Lemma events_visit det c :
  events (visit det c) = events (seen_from_holder c (decomposed c)).
Proof. reflexivity. Qed.

Lemma writes_visit_false c : writes (visit false c) = writes (decomposed c).
Proof. unfold visit. simpl. rewrite app_nil_r. apply writes_seen_from_holder. Qed.

Lemma visit_not_base det c :
  is_base_c c = false ->
  events (visit det c) = events (decomposed c) /\ writes (visit det c) = writes (decomposed c).
Proof.
  intros Hb. unfold visit, seen_from_holder. rewrite Hb, andb_false_r. simpl.
  now rewrite app_nil_r.
Qed.

Lemma Forall_mp {A} (P Q : A -> Prop) (l : list A) :
  Forall (fun x => P x -> Q x) l -> Forall P l -> Forall Q l.
Proof.
  induction 1 as [|x l Hx _ IH]; intros HP; inversion HP; subst; constructor; auto.
Qed.

Lemma Forall_dict_set {A} (Q : A -> Prop) k v (d : list (string * A)) :
  Forall (fun kv => Q (snd kv)) d -> Q v -> Forall (fun kv => Q (snd kv)) (dict_set k v d).
Proof.
  intros HF Hv. induction HF as [|[k' v'] d Hd HF' IH]; simpl.
  - repeat constructor. exact Hv.
  - destruct (String.eqb k k'); constructor; auto.
Qed.

Lemma decomposed_props_fields (Q : content -> Prop) rec ms builder :
  (forall h, Q (reference_marker h)) ->
  Forall (fun kv => Q (form (rec (snd kv)))) ms ->
  Forall (fun kv => Q (snd kv)) builder ->
  exists b, form (decomposed_props rec ms builder) = CDict b /\
            Forall (fun kv => Q (snd kv)) b.
Proof.
  intros Hm HF. revert builder. induction HF as [|[k c] ms Hc _ IH]; intros builder Hb; simpl.
  - eauto.
  - destruct (kept k c); [|auto]. simpl.
    apply IH. apply Forall_dict_set; auto.
    destruct (is_base_c c && wants_detach k); auto.
    rewrite form_seen_from_holder. exact Hc.
Qed.

Lemma forallb_Forall {A} (f : A -> bool) (l : list A) :
  forallb f l = true <-> Forall (fun x => f x = true) l.
Proof.
  induction l as [|x l IH]; simpl.
  - split; auto.
  - rewrite andb_true_iff, IH. split.
    + intros [H1 H2]. constructor; auto.
    + intros HF. inversion HF; auto.
Qed.

Lemma jsonable_closure cl : jsonable (closure_content cl) = true.
Proof.
  unfold closure_content. simpl. apply forallb_Forall.
  induction cl as [|[h d] cl IH]; simpl; constructor; auto.
Qed.

(** The record of an object: a dictionary whose [id] holds its hash. *)
Lemma decomposed_base_record ms hint :
  exists builder record,
    form (decomposed_props decomposed ms [("id", CStr "")]) = CDict builder /\
    form (decomposed (CBase ms hint)) = CDict record /\
    dict_get "id" record = Some (CStr (hash_content (CDict builder))) /\
    id_of (CDict record) = hash_content (CDict builder).
Proof.
  destruct (decomposed_props_fields (fun _ => True) decomposed ms [("id", CStr "")])
    as (b & Hb & _); auto.
  { apply List.Forall_forall. auto. }
  exists b. simpl. rewrite Hb.
  assert (Hid : forall r, r = dict_set "id" (CStr (hash_content (CDict b))) b ->
            dict_get "id" (match min_depths (events (decomposed_props decomposed ms
                                                      [("id", CStr "")])) with
                           | [] => r
                           | p :: l => dict_set "__closure" (closure_content (p :: l)) r
                           end) = Some (CStr (hash_content (CDict b)))).
  { intros r ->. destruct (min_depths _).
    - apply dict_get_set_eq.
    - rewrite dict_get_set_ne by discriminate. apply dict_get_set_eq. }
  eexists. split; [reflexivity|]. split; [reflexivity|].
  split; [apply Hid; reflexivity|]. unfold id_of. now rewrite Hid.
Qed.

Lemma decomposed_jsonable c :
  well_formed c = true -> jsonable (form (decomposed c)) = true.
Proof.
  induction c using content_induction; simpl; auto.
  - intros Hw. rewrite forallb_Forall in Hw. pose proof (Forall_mp _ _ _ H0 Hw) as HF.
    apply forallb_Forall. rewrite map_map. apply Forall_map.
    eapply Forall_impl; [exact HF|]. simpl. intros x Hx.
    now rewrite form_seen_from_holder.
  - intros Hw. apply andb_true_iff in Hw as [_ Hw].
    rewrite forallb_Forall in Hw. pose proof (Forall_mp _ _ _ H0 Hw) as HF.
    apply forallb_Forall. rewrite map_map. apply Forall_map.
    eapply Forall_impl; [exact HF|]. simpl. intros x Hx.
    now rewrite form_seen_from_holder.
  - intros Hw. apply andb_true_iff in Hw as [_ Hw]. rewrite forallb_Forall in Hw.
    pose proof (Forall_mp _ _ _ H0 Hw) as HF.
    destruct (decomposed_props_fields (fun c => jsonable c = true) decomposed ms
                [("id", CStr "")]) as (b & Hb & Hj); auto.
    rewrite Hb. apply forallb_Forall.
    assert (Hid : Forall (fun kv : string * content => jsonable (snd kv) = true)
                    (dict_set "id" (CStr (hash_content (CDict b))) b))
      by (apply (Forall_dict_set (fun c => jsonable c = true)); auto).
    destruct (min_depths _); auto.
    apply (Forall_dict_set (fun c => jsonable c = true)); auto. apply jsonable_closure.
  - intros Hw. now apply andb_true_iff in Hw as [Hj _].
Qed.

Lemma text_items_total xs :
  Forall (fun c => exists t, Json.text c = Some t) xs ->
  exists t, Json.text_items Json.text xs = Some t.
Proof.
  induction 1 as [|c xs [t Ht] _ [ts Hts]]; simpl; eauto.
  rewrite Ht, Hts. eauto.
Qed.

Lemma text_members_total (kvs : list (string * content)) :
  Forall (fun kv => exists t, Json.text (snd kv) = Some t) kvs ->
  exists t, Json.text_members Json.text kvs = Some t.
Proof.
  induction 1 as [|[k c] xs [t Ht] _ [ts Hts]]; simpl in *; eauto.
  rewrite Ht, Hts. eauto.
Qed.

Lemma jsonable_text c : jsonable c = true -> exists t, Json.text c = Some t.
Proof.
  induction c using content_induction; simpl; try discriminate; eauto.
  - destruct b; eauto.
  - intros Hj.
    assert (HF : Forall (fun c => exists t, Json.text c = Some t) xs).
    { apply (Forall_mp _ _ _ H0). apply forallb_Forall. destruct k; auto; discriminate. }
    destruct xs as [|x xs]; [destruct k; eauto; discriminate|].
    inversion HF as [|? ? [t Ht] HF']; subst. rewrite Ht.
    destruct (text_items_total xs HF') as [ts Hts]. rewrite Hts.
    destruct k; eauto; discriminate.
  - intros Hj. rewrite forallb_Forall in Hj. pose proof (Forall_mp _ _ _ H0 Hj) as HF.
    destruct kvs as [|[k x] kvs]; eauto. inversion HF as [|? ? [t Ht] HF']; subst.
    simpl in *. rewrite Ht.
    destruct (text_members_total kvs HF') as [ts Hts]. rewrite Hts. eauto.
Qed.

Lemma jsonable_text_of c : jsonable c = true -> Json.text c = Some (text_of c).
Proof. intros Hj. destruct (jsonable_text c Hj) as [t Ht]. unfold text_of. now rewrite Ht. Qed.

End DecomposedFacts.

(** ** Nesting depth of records *)

Section Heights.
Context `{FloatText}.

Lemma list_max_map_le {A} (f : A -> nat) (l : list A) n :
  Forall (fun x => (f x <= n)%nat) l -> (list_max (map f l) <= n)%nat.
Proof. intros HF. apply list_max_le. now apply Forall_map. Qed.

Lemma in_list_max_map {A} (f : A -> nat) (l : list A) x :
  In x l -> (f x <= list_max (map f l))%nat.
Proof. intros Hin. apply list_max_le_all. now apply in_map. Qed.

Lemma height_pos c : (1 <= height c)%nat.
Proof. destruct c as [ | | | | | | | |[d|] ?]; simpl; lia. Qed.

Lemma height_closure cl : (height (closure_content cl) <= 2)%nat.
Proof.
  unfold closure_content. cbn [height]. apply le_n_S. rewrite map_map.
  apply list_max_map_le. apply List.Forall_forall. intros; simpl; lia.
Qed.

Lemma decomposed_props_height n ms builder :
  (2 <= n)%nat ->
  Forall (fun kv : string * content => (height (form (decomposed (snd kv))) <= n)%nat) ms ->
  Forall (fun kv : string * content => (height (snd kv) <= n)%nat) builder ->
  exists b, form (decomposed_props decomposed ms builder) = CDict b /\
            Forall (fun kv : string * content => (height (snd kv) <= n)%nat) b.
Proof.
  intros Hn HF Hb.
  apply (decomposed_props_fields (fun c => (height c <= n)%nat)); auto.
Qed.

Lemma record_height_from ms hint :
  Forall (fun kv : string * content =>
            (height (form (decomposed (snd kv))) <= need (snd kv))%nat) ms ->
  (height (form (decomposed (CBase ms hint)))
   <= 3 + list_max (map (fun kv => need (snd kv)) ms))%nat.
Proof.
  intros H0. simpl.
  set (m := list_max (map (fun kv => need (snd kv)) ms)).
  destruct (decomposed_props_height (2 + m) ms [("id", CStr "")]) as (b & Hb & Hh);
    [lia| |constructor; [simpl; lia|constructor]|].
  { rewrite List.Forall_forall in H0 |- *. intros x Hin.
    pose proof (H0 x Hin).
    pose proof (in_list_max_map (fun kv => need (snd kv)) ms x Hin). simpl in *.
    fold m in H2. lia. }
  rewrite Hb.
  assert (Hid : Forall (fun kv : string * content => (height (snd kv) <= 2 + m)%nat)
                  (dict_set "id" (CStr (hash_content (CDict b))) b)).
  { apply (Forall_dict_set (fun c => (height c <= 2 + m)%nat)); auto. simpl. lia. }
  assert (Hrec : Forall (fun kv : string * content => (height (snd kv) <= 2 + m)%nat)
            (match min_depths (events (decomposed_props decomposed ms [("id", CStr "")])) with
             | [] => dict_set "id" (CStr (hash_content (CDict b))) b
             | p :: l => dict_set "__closure" (closure_content (p :: l))
                           (dict_set "id" (CStr (hash_content (CDict b))) b)
             end)).
  { destruct (min_depths _) as [|p l]; auto.
    apply (Forall_dict_set (fun c => (height c <= 2 + m)%nat)); auto.
    pose proof (height_closure (p :: l)). lia. }
  cbn [height]. apply le_n_S.
  apply (list_max_map_le (fun kv => height (snd kv))) in Hrec. lia.
Qed.

Lemma decomposed_height c : (height (form (decomposed c)) <= need c)%nat.
Proof.
  induction c using content_induction; try (simpl; auto; fail).
  - simpl. apply le_n_S. rewrite map_map. rewrite map_map. apply list_max_map_le.
    rewrite List.Forall_forall in H0 |- *. intros x Hin.
    rewrite form_seen_from_holder.
    pose proof (H0 x Hin). pose proof (in_list_max_map need xs x Hin). lia.
  - simpl. apply le_n_S. rewrite map_map. rewrite map_map. apply list_max_map_le.
    rewrite List.Forall_forall in H0 |- *. intros x Hin. simpl.
    rewrite form_seen_from_holder.
    pose proof (H0 x Hin).
    pose proof (in_list_max_map (fun kv => need (snd kv)) kvs x Hin). simpl in *. lia.
  - pose proof (record_height_from ms hint H0). cbn [need]. lia.
Qed.

(** While an object's record is being built, before and after its [id] is
    set, it stays within the depth the recursion leaves for [json.dumps]. *)
Lemma builder_height ms :
  exists b, form (decomposed_props decomposed ms [("id", CStr "")]) = CDict b /\
    (height (CDict b) <= 3 + list_max (map (fun kv => need (snd kv)) ms))%nat.
Proof.
  set (m := list_max (map (fun kv => need (snd kv)) ms)).
  destruct (decomposed_props_height (2 + m) ms [("id", CStr "")]) as (b & Hb & Hh);
    [lia| |constructor; [simpl; lia|constructor]|].
  { apply List.Forall_forall. intros x Hin.
    pose proof (decomposed_height (snd x)).
    pose proof (in_list_max_map (fun kv => need (snd kv)) ms x Hin). simpl in *.
    fold m in H1. lia. }
  exists b. split; auto. simpl. apply le_n_S.
  apply (list_max_map_le (fun kv => height (snd kv))) in Hh. lia.
Qed.

Lemma record_height ms hint :
  (height (form (decomposed (CBase ms hint)))
   <= 3 + list_max (map (fun kv => need (snd kv)) ms))%nat.
Proof.
  apply record_height_from. apply List.Forall_forall. intros x _. apply decomposed_height.
Qed.

End Heights.

(** ** Minimum depths *)

Lemma dict_get_shift h n refs :
  dict_get h (shift n refs) = option_map (fun d => d + n) (dict_get h refs).
Proof.
  induction refs as [|[k d] refs IH]; simpl; auto.
  destruct (String.eqb h k); auto.
Qed.

Lemma dict_set_shift h d n refs :
  dict_set h (d + n) (shift n refs) = shift n (dict_set h d refs).
Proof.
  induction refs as [|[k d0] refs IH]; simpl; auto.
  destruct (String.eqb h k); simpl; auto. now rewrite IH.
Qed.

Lemma note_reference_shift h d n refs :
  note_reference h (d + n) (shift n refs) = shift n (note_reference h d refs).
Proof.
  unfold note_reference. rewrite dict_get_shift.
  destruct (dict_get h refs) as [d0|]; simpl.
  - replace (d + n <? d0 + n) with (d <? d0)
      by (destruct (d <? d0) eqn:E1, (d + n <? d0 + n) eqn:E2; auto; lia).
    destruct (d <? d0); auto. apply dict_set_shift.
  - apply dict_set_shift.
Qed.

Lemma fold_note_shift n evs acc :
  fold_left (fun acc e => note_reference (fst e) (snd e) acc) (shift n evs) (shift n acc)
  = shift n (fold_left (fun acc e => note_reference (fst e) (snd e) acc) evs acc).
Proof.
  revert acc. induction evs as [|[h d] evs IH]; intros acc; simpl; auto.
  rewrite note_reference_shift. apply IH.
Qed.

Lemma min_depths_shift n evs : min_depths (shift n evs) = shift n (min_depths evs).
Proof. unfold min_depths. apply (fold_note_shift n evs []). Qed.

Lemma note_reference_nonempty h d refs : note_reference h d refs <> [].
Proof.
  unfold note_reference. destruct (dict_get h refs) as [d0|] eqn:E.
  - destruct (d <? d0).
    + destruct refs as [|[k x] refs]; simpl; [discriminate|].
      destruct (String.eqb h k); discriminate.
    + destruct refs; [discriminate|discriminate].
  - destruct refs as [|[k x] refs]; simpl; [discriminate|].
    destruct (String.eqb h k); discriminate.
Qed.

Lemma fold_note_nonempty evs acc :
  acc <> [] ->
  fold_left (fun acc e => note_reference (fst e) (snd e) acc) evs acc <> [].
Proof.
  revert acc. induction evs as [|e evs IH]; intros acc Hn; simpl; auto.
  apply IH. apply note_reference_nonempty.
Qed.

Lemma min_depths_nil evs : min_depths evs = [] <-> evs = [].
Proof.
  split; [|now intros ->]. destruct evs as [|e evs]; auto. unfold min_depths. simpl.
  intros Hn. exfalso. revert Hn. apply fold_note_nonempty. apply note_reference_nonempty.
Qed.

Lemma extend_none evs :
  extend None evs = match evs with [] => None | _ => Some (min_depths evs) end.
Proof. destruct evs; reflexivity. Qed.

(** ** Running the decomposition, step by step *)

Section Steps.
Context `{FloatText}.

Lemma bind_ok {A B} (m : M A) (k : A -> M B) s a s1 :
  m s = Ok a s1 -> bind m k s = k a s1.
Proof. unfold bind. now intros ->. Qed.

Lemma json_dumps_ok fuel v s c t :
  snapshot fuel (heap_of s) v = Some c -> Json.text c = Some t ->
  json_dumps fuel v s = Ok t s.
Proof. unfold json_dumps. now intros -> ->. Qed.

Lemma save_to_transports_ok fuel ts hash obj s c t :
  snapshot fuel (heap_of s) obj = Some c -> Json.text c = Some t ->
  save_to_transports fuel ts hash obj s
  = Ok tt (with_transports (fun trs => deliver ts trs (hash, t)) s).
Proof.
  revert s. induction ts as [|x ts IH]; intros s Hs Ht; simpl.
  - destruct s; reflexivity.
  - rewrite (bind_ok _ _ _ _ _ (json_dumps_ok _ _ _ _ _ Hs Ht)).
    unfold bind at 1. simpl. rewrite IH; auto.
Qed.

Lemma fresh_tokens_lineage s i :
  fresh_tokens s -> (uuid_count s <= i)%nat -> ~ In (uuid_source s i) (lineage s).
Proof. intros [_ Hf] Hi. now apply Hf. Qed.

Lemma detach_helper_ok key s :
  fresh_tokens s ->
  exists s',
    detach_helper (VStr key) s = Ok (VDict (List.length (heap_of s))) s' /\
    effect s (fun _ => False) [(key, 1)] [] s' /\
    List.length (heap_of s') = S (List.length (heap_of s)) /\
    reads_in (between (List.length (heap_of s)) (List.length (heap_of s')))
      (heap_of s') (reference_marker key) (VDict (List.length (heap_of s))).
Proof.
  intros Hf. eexists. split; [reflexivity|]. simpl. split; [|split].
  - split; [|split; [|split]].
    + unfold same_config. simpl. repeat split; auto. rewrite length_app. lia.
    + split; [reflexivity|]. simpl. intros p Hp.
      rewrite track_reference_parent by auto.
      change (shift (depth_of s - 1) [(key, 1)]) with [(key, 1 + (depth_of s - 1))].
      replace (1 + (depth_of s - 1)) with (depth_of s) by lia. reflexivity.
    + intros l Hl _. simpl. now rewrite lookup_app_l.
    + destruct Hf as [Hinj Hf]. split; [exact Hinj|]. simpl. intros i Hi.
      destruct (Hf i Hi) as [Hl Hg]. split; auto.
      now rewrite track_reference_other.
  - rewrite length_app. simpl. lia.
  - simpl. split; [unfold between; rewrite length_app; simpl; lia|].
    eexists. split; [apply lookup_snoc_new|]. simpl. repeat split; auto.
Qed.

(** Visiting the elements of a sequence, one after the other. *)
Lemma traverse_list_ok fuel cs :
  Forall (visits fuel) cs ->
  forall s a b vs,
    chain (realises (heap_of s)) cs a b vs ->
    (b <= List.length (heap_of s))%nat ->
    fresh_tokens s ->
    exists rs s',
      traverse_list (fun o => traverse_value fuel o false) vs s = Ok rs s' /\
      effect s (between a b)
        (flat_map (fun c => events (visit false c)) cs)
        (flat_map (fun c => writes (visit false c)) cs) s' /\
      all2 (reads_in (grown a b s s') (heap_of s'))
        (map (fun c => form (visit false c)) cs) rs.
Proof.
  induction 1 as [|c cs Hc _ IH]; intros s a b [|v vs] Hch Hb Hf; simpl in Hch; try tauto.
  - subst b. exists [], s. split; [reflexivity|]. split; [|exact I].
    now apply effect_refl.
  - destruct Hch as (m & Hr & Hch).
    pose proof (realises_le _ _ _ _ _ Hr) as Ham.
    pose proof (chain_le _ _ _ _ _ (items_le _ cs) Hch) as Hmb.
    destruct (Hc s a m v false Hr ltac:(lia) Hf) as (r & s1 & Hrun & He1 & Hread).
    pose proof He1 as (C1 & _ & Fr1 & Hf1).
    pose proof C1 as (_ & _ & _ & _ & _ & _ & Hlen1).
    assert (Hch1 : chain (realises (heap_of s1)) cs m b vs).
    { apply (chain_items_agree (heap_of s)); auto.
      intros l [Hl1 Hl2]. apply Fr1; [lia|]. unfold between. lia. }
    destruct (IH s1 m b vs Hch1 ltac:(lia) Hf1) as (rs & s2 & Hrun2 & He2 & Hreads).
    pose proof He2 as (C2 & _ & Fr2 & _).
    pose proof C2 as (_ & _ & _ & _ & _ & _ & Hlen2).
    exists (r :: rs), s2. split; [|split].
    + simpl. rewrite (bind_ok _ _ _ _ _ Hrun). rewrite (bind_ok _ _ _ _ _ Hrun2).
      reflexivity.
    + simpl. eapply effect_seq; eauto; unfold between; intros; lia.
    + simpl. split.
      * eapply reads_in_transport; [| |exact Hread].
        -- unfold grown, between. intros l; lia.
        -- intros l Hl. apply Fr2; unfold grown, between in *; lia.
      * eapply items_transport; [| |exact Hreads].
        -- unfold grown, between. intros l; lia.
        -- auto.
Qed.

End Steps.

Section Loops.
Context `{FloatText}.

Lemma visit_primitive det c :
  is_primitive_c c = true ->
  form (visit det c) = c /\ events (visit det c) = [] /\ writes (visit det c) = [].
Proof.
  destruct c; try discriminate; intros _; unfold visit; simpl;
    rewrite andb_false_r; repeat split.
Qed.

Lemma flat_map_map {A B C} (f : B -> list C) (g : A -> B) (l : list A) :
  flat_map f (map g l) = flat_map (fun x => f (g x)) l.
Proof. induction l as [|x l IH]; simpl; auto. now rewrite IH. Qed.

(** Visiting the values of a dictionary in place: entry after entry, what
    was done stays, what is left is still to be read. *)
Lemma traverse_items_ok fuel (kcs : list (string * content)) :
  Forall (fun kc => visits fuel (snd kc)) kcs ->
  forall s a l0 (es pre : list (string * value)),
    heap_of s !! l0 = Some (pre ++ es) ->
    unique_names (map fst pre ++ map fst kcs) = true ->
    chain (fun kc a b kv => fst kc = fst kv /\ realises (heap_of s) (snd kc) a b (snd kv))
      kcs a l0 es ->
    (l0 < List.length (heap_of s))%nat ->
    fresh_tokens s ->
    exists s' rs,
      traverse_items (fun v => traverse_value fuel v false) l0 (map fst kcs) s = Ok tt s' /\
      effect s (between a (S l0))
        (flat_map (fun kc => events (visit false (snd kc))) kcs)
        (flat_map (fun kc => writes (visit false (snd kc))) kcs) s' /\
      heap_of s' !! l0 = Some (pre ++ rs) /\
      all2 (paired (reads_in (grown a l0 s s') (heap_of s')))
        (map (fun kc => (fst kc, form (visit false (snd kc)))) kcs) rs.
Proof.
  induction 1 as [|[k c] kcs Hc _ IH]; intros s a l0 [|[k' v] es] pre Hcell Hu Hch Hl Hf;
    simpl in Hch; try tauto.
  - exists s, []. split; [reflexivity|]. split; [now apply effect_refl|].
    split; [exact Hcell|exact I].
  - destruct Hch as (m & [Hk Hr] & Hch). simpl in Hk, Hr. subst k'.
    pose proof (realises_le _ _ _ _ _ Hr) as Ham.
    pose proof (chain_le _ _ _ _ _ (fields_le _ kcs) Hch) as Hml.
    assert (Hkpre : ~ In k (map fst pre)) by (simpl in Hu; eapply unique_names_app_cons; eauto).
    assert (Hget : dict_get k (cell (heap_of s) l0) = Some v).
    { rewrite (cell_lookup _ _ _ Hcell). now apply dict_get_middle. }
    cbn [map fst traverse_items]. unfold bind at 1. cbn [gets]. rewrite Hget.
    rewrite (realises_primitive _ _ _ _ _ Hr).
    destruct (is_primitive_c c) eqn:Hprim.
    + destruct (realises_primitive_eq _ _ _ _ _ Hr Hprim) as [<- Hany].
      destruct (visit_primitive false c Hprim) as (Hfo & Hev & Hwr).
      destruct (IH s a l0 es (pre ++ [(k, v)])) as (s' & rs & Hrun & He & Hcell' & Hreads); auto.
      { now rewrite <- app_assoc. }
      { rewrite map_app, <- app_assoc. exact Hu. }
      exists s', ((k, v) :: rs). split; [exact Hrun|].
      cbn [flat_map map fst snd]. rewrite Hev, Hwr, Hfo. cbn [app all2].
      split; [exact He|]. split; [now rewrite <- app_assoc in Hcell'|].
      split; [split; auto|exact Hreads].
    + destruct (Hc s a m v false Hr ltac:(lia) Hf) as (r & s1 & Hrun1 & He1 & Hread).
      pose proof He1 as (C1 & _ & Fr1 & Hf1).
      pose proof C1 as (_ & _ & _ & _ & _ & _ & Hlen1).
      assert (Hcell1 : heap_of s1 !! l0 = Some (pre ++ (k, v) :: es)).
      { rewrite Fr1; auto. unfold between. lia. }
      rewrite (bind_ok _ _ _ _ _ Hrun1).
      set (s1' := with_heap (heap_store l0 (pre ++ (k, r) :: es)) s1).
      assert (Hset : dict_setitem l0 k r s1 = Ok tt s1').
      { unfold dict_setitem, modify, s1', with_heap.
        rewrite (cell_lookup _ _ _ Hcell1). now rewrite dict_set_middle by auto. }
      rewrite (bind_ok _ _ _ _ _ Hset).
      assert (He1' : effect s1 (eq l0) [] [] s1').
      { apply effect_heap; auto.
        - rewrite heap_store_length. lia.
        - intros l _ Hne. apply heap_store_lookup_ne. auto. }
      pose proof He1' as (C1' & _ & Fr1' & Hf1').
      assert (Hlen1' : List.length (heap_of s1') = List.length (heap_of s1))
        by apply heap_store_length.
      assert (Hch1 : chain (fun kc a b kv => fst kc = fst kv /\
                              realises (heap_of s1') (snd kc) a b (snd kv)) kcs m l0 es).
      { apply (chain_fields_agree (heap_of s)); auto.
        intros l [Hl1 Hl2]. rewrite Fr1'; [|lia|lia]. apply Fr1; [lia|]. unfold between. lia. }
      destruct (IH s1' m l0 es (pre ++ [(k, r)])) as (s' & rs & Hrun & He & Hcell' & Hreads); auto.
      { unfold s1'. simpl. rewrite heap_store_lookup_eq by lia. now rewrite <- app_assoc. }
      { rewrite map_app, <- app_assoc. exact Hu. }
      { lia. }
      pose proof He as (C2 & _ & Fr2 & _).
      pose proof C2 as (_ & _ & _ & _ & _ & _ & Hlen2).
      exists s', ((k, r) :: rs). split; [exact Hrun|]. split; [|split].
      * cbn [flat_map map fst snd].
        assert (E12 : effect s (between a (S l0)) (events (visit false c) ++ [])
                        (writes (visit false c) ++ []) s1').
        { eapply effect_seq; eauto; unfold between; intros; lia. }
        rewrite !app_nil_r in E12.
        eapply effect_seq; eauto; unfold between; intros; lia.
      * now rewrite <- app_assoc in Hcell'.
      * cbn [flat_map map fst snd all2]. split.
        -- split; [reflexivity|]. cbn [fst snd].
           eapply reads_in_transport; [| |exact Hread].
           ++ unfold grown, between. intros l; lia.
           ++ intros l Hl'. rewrite Fr2; [|unfold grown, between in *; lia
                                          |unfold grown, between in *; lia].
              apply Fr1'; unfold grown, between in *; lia.
        -- eapply fields_transport; [| |exact Hreads].
           ++ unfold grown, between. intros l. rewrite Hlen1'. lia.
           ++ auto.
Qed.

End Loops.

Section Props.
Context `{FloatText}.

Lemma py_getitem_base ms hint k v s :
  dict_get k ms = Some v -> py_getitem (VBase ms hint) k s = Ok v s.
Proof. intros Hg. simpl. now rewrite Hg. Qed.

Lemma py_getitem_dict l es k v s :
  heap_of s !! l = Some es -> dict_get k es = Some v ->
  py_getitem (VDict l) k s = Ok v s.
Proof.
  intros Hl Hg. simpl. unfold bind, gets. rewrite (cell_lookup _ _ _ Hl). now rewrite Hg.
Qed.

Lemma store_field s B k fv bes :
  heap_of s !! B = Some bes ->
  (B < List.length (heap_of s))%nat ->
  fresh_tokens s ->
  dict_setitem B k fv s = Ok tt (with_heap (heap_store B (dict_set k fv bes)) s) /\
  effect s (eq B) [] [] (with_heap (heap_store B (dict_set k fv bes)) s) /\
  heap_store B (dict_set k fv bes) (heap_of s) !! B = Some (dict_set k fv bes) /\
  List.length (heap_store B (dict_set k fv bes) (heap_of s)) = List.length (heap_of s).
Proof.
  intros Hc Hb Hf. split; [|split; [|split]].
  - unfold dict_setitem, modify, with_heap. now rewrite (cell_lookup _ _ _ Hc).
  - apply effect_heap; auto.
    + rewrite heap_store_length. lia.
    + intros l _ Hne. apply heap_store_lookup_ne. auto.
  - now apply heap_store_lookup_eq.
  - apply heap_store_length.
Qed.

(** The record a visit of an object returns holds the object's hash under [id]. *)
Lemma record_id_read P (h : heap) ms hint r :
  reads_in P h (form (decomposed (CBase ms hint))) r ->
  exists l es, r = VDict l /\ h !! l = Some es /\
    dict_get "id" es = Some (VStr (id_of (form (decomposed (CBase ms hint))))).
Proof.
  destruct (decomposed_base_record ms hint) as (b & rec & _ & Hrec & Hid & Hidof).
  rewrite Hrec. destruct r; simpl; try tauto.
  intros (_ & es & Hes & Ha). exists l, es. split; auto. split; auto.
  pose proof (paired_get _ "id" _ _ Ha) as Hg. rewrite Hid in Hg.
  destruct (dict_get "id" es) as [w|]; [|tauto].
  destruct w; simpl in Hg; try tauto. subst. simpl. now rewrite Hid.
Qed.

Lemma kept_skip k c :
  negb (truthy_c c) || startswith "__" k = negb (kept k c).
Proof. unfold kept. destruct (truthy_c c), (startswith "__" k); reflexivity. Qed.

End Props.

Section PropsLoop.
Context `{FloatText}.

Lemma decomposed_props_cons k c kcs builder :
  decomposed_props decomposed ((k, c) :: kcs) builder
  = if kept k c then
      let det := is_base_c c && wants_detach k in
      let vd := visit det c in
      let field := if det then reference_marker (id_of (form vd)) else form vd in
      let r := decomposed_props decomposed kcs (dict_set k field builder) in
      Decomposition (form r)
        ((events vd ++ (if det then [(id_of (form vd), 1)] else [])) ++ events r)
        (writes vd ++ writes r)
    else decomposed_props decomposed kcs builder.
Proof.
  cbn [decomposed_props]. destruct (kept k c); [|reflexivity].
  cbn zeta. unfold visit. cbn [form events writes].
  f_equal.
  - now rewrite <- app_assoc.
  - rewrite <- app_assoc. f_equal. f_equal.
    destruct (is_base_c c), (wants_detach k); reflexivity.
Qed.

(** One kept property: the value placed in the record, and what getting it did. *)
Lemma visit_field_ok fuel k c s a m v B (K : M unit) :
  visits fuel c ->
  realises (heap_of s) c a m v ->
  (m <= List.length (heap_of s))%nat ->
  fresh_tokens s ->
  let det := is_base_c c && wants_detach k in
  let vd := visit det c in
  let field := if det then reference_marker (id_of (form vd)) else form vd in
  exists fv s1,
    (if is_primitive v then
       run dict_setitem B k v ;; K
     else if is_base v then
       do child_obj <- traverse_value fuel v (startswith "@" k) ;;
       run (if startswith "@" k then
              do ref_hash <- py_getitem child_obj "id" ;;
              do reference <- detach_helper ref_hash ;;
              dict_setitem B k reference
            else dict_setitem B k child_obj) ;;
       K
     else
       do child_obj <- traverse_value fuel v false ;;
       run dict_setitem B k child_obj ;;
       K) s
    = (run dict_setitem B k fv ;; K) s1 /\
    effect s (between a m)
      (events vd ++ (if det then [(id_of (form vd), 1)] else [])) (writes vd) s1 /\
    reads_in (grown a m s s1) (heap_of s1) field fv.
Proof.
  intros Hv Hr Hm Hf det vd field.
  rewrite (realises_primitive _ _ _ _ _ Hr), (realises_base _ _ _ _ _ Hr).
  destruct (is_primitive_c c) eqn:Hprim.
  - (* a primitive is copied *)
    assert (Hnb : is_base_c c = false) by (destruct c; auto; discriminate).
    destruct (realises_primitive_eq _ _ _ _ _ Hr Hprim) as [_ Hany].
    destruct (visit_primitive false c Hprim) as (Hfo & Hev & Hwr).
    exists v, s. split; [reflexivity|].
    unfold field, vd, det. rewrite Hnb. cbn [andb].
    rewrite Hev, Hwr, Hfo. split; [now apply effect_refl|apply Hany].
  - destruct (is_base_c c) eqn:Hbase.
    + (* an object: visited with the property's detach flag *)
      assert (Hdet : det = startswith "@" k) by reflexivity.
      destruct (Hv s a m v (startswith "@" k) Hr Hm Hf) as (r & s1 & Hrun & He & Hread).
      rewrite (bind_ok _ _ _ _ _ Hrun). rewrite <- Hdet in *.
      destruct det eqn:Edet.
      * destruct c as [ | | | | | | |ms hint| ]; try discriminate.
        rewrite form_visit in Hread.
        destruct (record_id_read _ _ _ _ _ Hread) as (l' & es' & -> & Hes' & Hid).
        pose proof He as (_ & _ & _ & Hf1).
        destruct (detach_helper_ok (id_of (form (decomposed (CBase ms hint)))) s1 Hf1)
          as (s2 & Hrun2 & He2 & Hlen2 & Hmark).
        exists (VDict (List.length (heap_of s1))), s2. split; [|split].
        -- unfold bind at 1. unfold bind at 1.
           rewrite (py_getitem_dict _ _ _ _ _ Hes' Hid).
           unfold bind at 1. rewrite Hrun2. reflexivity.
        -- subst vd. rewrite form_visit.
           replace (writes (visit true (CBase ms hint)))
             with (writes (visit true (CBase ms hint)) ++ []) by apply app_nil_r.
           eapply effect_seq; [exact He|exact He2|auto|intros l []].
        -- subst field vd. rewrite form_visit.
           eapply reads_in_mono; [|exact Hmark].
           pose proof He as (C1 & _). destruct C1 as (_ & _ & _ & _ & _ & _ & Hl1).
           unfold grown, between. intros l; lia.
      * exists r, s1. split; [reflexivity|]. split; [|exact Hread].
        now rewrite app_nil_r.
    + (* anything else: visited, never detached *)
      assert (Hdet : det = false) by reflexivity.
      destruct (Hv s a m v false Hr Hm Hf) as (r & s1 & Hrun & He & Hread).
      rewrite (bind_ok _ _ _ _ _ Hrun).
      exists r, s1. split; [reflexivity|]. subst field vd. rewrite Hdet.
      split; [now rewrite app_nil_r|exact Hread].
Qed.

End PropsLoop.

Section PropsLoop2.
Context `{FloatText}.

(** The loop over an object's properties fills the record as
    [decomposed_props] says. *)
Lemma traverse_props_ok fuel (kcs : list (string * content)) :
  Forall (fun kc => visits fuel (snd kc)) kcs ->
  forall s lo a b (es pre : list (string * value)) hint B
         (builderC : list (string * content)) (bes : list (string * value)),
    unique_names (map fst pre ++ map fst kcs) = true ->
    chain (fun kc a b kv => fst kc = fst kv /\ realises (heap_of s) (snd kc) a b (snd kv))
      kcs a b es ->
    (lo <= a)%nat -> (b <= B)%nat -> (B < List.length (heap_of s))%nat ->
    heap_of s !! B = Some bes ->
    all2 (paired (reads_in (built lo a B s) (heap_of s))) builderC bes ->
    fresh_tokens s ->
    exists s' bes' fields,
      traverse_props (traverse_value fuel) (VBase (pre ++ es) hint) B (map fst kcs) s
      = Ok tt s' /\
      effect s (fun l => between a b l \/ l = B)
        (events (decomposed_props decomposed kcs builderC))
        (writes (decomposed_props decomposed kcs builderC)) s' /\
      heap_of s' !! B = Some bes' /\
      form (decomposed_props decomposed kcs builderC) = CDict fields /\
      all2 (paired (reads_in (built lo b B s') (heap_of s'))) fields bes'.
Proof.
  induction 1 as [|[k c] kcs Hc _ IH];
    intros s lo a b [|[k' v] es] pre hint B builderC bes Hu Hch Hlo Hb HB Hcell Hbuilt Hf;
    simpl in Hch; try tauto.
  - subst b. exists s, bes, builderC. split; [reflexivity|].
    split; [now apply effect_refl|]. split; [exact Hcell|]. split; [reflexivity|exact Hbuilt].
  - destruct Hch as (m & [Hk Hr] & Hch). simpl in Hk, Hr. subst k'.
    pose proof (realises_le _ _ _ _ _ Hr) as Ham.
    pose proof (chain_le _ _ _ _ _ (fields_le _ kcs) Hch) as Hmb.
    assert (Hkpre : ~ In k (map fst pre))
      by (simpl in Hu; eapply unique_names_app_cons; eauto).
    assert (Hu' : unique_names (map fst (pre ++ [(k, v)]) ++ map fst kcs) = true)
      by (rewrite map_app, <- app_assoc; exact Hu).
    assert (Hobj : VBase (pre ++ (k, v) :: es) hint = VBase ((pre ++ [(k, v)]) ++ es) hint)
      by now rewrite <- app_assoc.
    cbn [map fst traverse_props].
    rewrite (bind_ok _ _ _ _ _ (py_getitem_base _ hint k v s (dict_get_middle k v pre es Hkpre))).
    unfold bind at 1. cbn [gets].
    rewrite (realises_truthy _ _ _ _ _ Hr), kept_skip, decomposed_props_cons.
    destruct (kept k c) eqn:Hkept; cbn [negb].
    + (* kept *)
      destruct (visit_field_ok fuel k c s a m v B
                  (traverse_props (traverse_value fuel) (VBase (pre ++ (k, v) :: es) hint) B
                     (map fst kcs)) Hc Hr ltac:(lia) Hf)
        as (fv & s1 & Hrun & He1 & Hread).
      cbn zeta in Hrun, He1, Hread |- *.
      set (det := is_base_c c && wants_detach k) in *.
      set (vd := visit det c) in *.
      set (field := if det then reference_marker (id_of (form vd)) else form vd) in *.
      rewrite Hrun. clear Hrun.
      pose proof He1 as (C1 & _ & Fr1 & Hf1).
      pose proof C1 as (_ & _ & _ & _ & _ & _ & Hlen1).
      assert (Hcell1 : heap_of s1 !! B = Some bes).
      { rewrite Fr1; auto. unfold between. lia. }
      destruct (store_field s1 B k fv bes Hcell1 ltac:(lia) Hf1) as (Hset & He1' & Hcell1' & Hlen1').
      set (s1' := with_heap (heap_store B (dict_set k fv bes)) s1) in *.
      rewrite (bind_ok _ _ _ _ _ Hset).
      pose proof He1' as (_ & _ & Fr1' & Hf1').
      assert (Hch1 : chain (fun kc a b kv => fst kc = fst kv /\
                              realises (heap_of s1') (snd kc) a b (snd kv)) kcs m b es).
      { apply (chain_fields_agree (heap_of s)); auto.
        intros l [Hl1 Hl2]. rewrite Fr1'; [|lia|lia]. apply Fr1; [lia|]. unfold between. lia. }
      assert (Hbuilt1 : all2 (paired (reads_in (built lo m B s1') (heap_of s1')))
                          (dict_set k field builderC) (dict_set k fv bes)).
      { apply paired_set.
        - eapply fields_transport; [| |exact Hbuilt].
          + unfold built, between. intros l. unfold s1'. simpl. rewrite Hlen1'. lia.
          + intros l Hl. rewrite Fr1'; [|unfold built, between in Hl; lia
                                        |unfold built, between in Hl; lia].
            apply Fr1; unfold built, between in *; lia.
        - eapply reads_in_transport; [| |exact Hread].
          + unfold grown, built, between. intros l. unfold s1'. simpl. rewrite Hlen1'. lia.
          + intros l Hl. apply Fr1'; unfold grown, between in Hl; lia. }
      rewrite Hobj.
      destruct (IH s1' lo m b es (pre ++ [(k, v)]) hint B (dict_set k field builderC)
                  (dict_set k fv bes) Hu' Hch1 ltac:(lia) Hb
                  ltac:(unfold s1'; simpl; rewrite Hlen1'; lia) Hcell1' Hbuilt1 Hf1')
        as (s' & bes' & fields & Hrun' & He' & Hcell' & Hform & Hfields).
      exists s', bes', fields. split; [exact Hrun'|]. cbn [form events writes].
      split; [|split; [exact Hcell'|split; [exact Hform|exact Hfields]]].
      assert (E12 : effect s (fun l => between a b l \/ l = B)
                      ((events vd ++ (if det then [(id_of (form vd), 1)] else [])) ++ [])
                      (writes vd ++ []) s1').
      { eapply effect_seq; [exact He1|exact He1'| |]; unfold between; intros; lia. }
      rewrite !app_nil_r in E12.
      eapply effect_seq; [exact E12|exact He'| |]; unfold between; intros; lia.
    + (* skipped *)
      assert (Hbuilt' : all2 (paired (reads_in (built lo m B s) (heap_of s))) builderC bes).
      { eapply fields_transport; [| |exact Hbuilt]; auto.
        unfold built, between. intros l; lia. }
      rewrite Hobj.
      destruct (IH s lo m b es (pre ++ [(k, v)]) hint B builderC bes Hu' Hch
                  ltac:(lia) Hb HB Hcell Hbuilt' Hf)
        as (s' & bes' & fields & Hrun' & He' & Hcell' & Hform & Hfields).
      exists s', bes', fields. split; [exact Hrun'|].
      split; [|split; [exact Hcell'|split; [exact Hform|exact Hfields]]].
      eapply effect_weaken; [exact He'|]. unfold between. intros; lia.
Qed.

End PropsLoop2.

Section BaseSteps.
Context `{FloatText}.

Lemma builder_jsonable (ms : list (string * content)) :
  Forall (fun kv => well_formed (snd kv) = true) ms ->
  exists b, form (decomposed_props decomposed ms [("id", CStr "")]) = CDict b /\
            jsonable (CDict b) = true.
Proof.
  intros Hw.
  destruct (decomposed_props_fields (fun c => jsonable c = true) decomposed ms
              [("id", CStr "")]) as (b & Hb & Hj); auto.
  - eapply Forall_impl; [exact Hw|]. intros kv. apply decomposed_jsonable.
  - exists b. split; auto. simpl. now apply forallb_Forall.
Qed.

Lemma deliver_all_snoc ts ws w trs :
  deliver_all ts (ws ++ [w]) trs = deliver ts (deliver_all ts ws trs) w.
Proof. unfold deliver_all. now rewrite fold_left_app. Qed.

(** Drawing a token keeps the tokens still to come new. *)
Lemma fresh_tokens_draw s :
  fresh_tokens s ->
  fresh_tokens (with_lineage (fun l => l ++ [uuid_source s (uuid_count s)])
                  (with_uuid_count S s)).
Proof.
  intros [Hinj Hf]. split; [exact Hinj|]. simpl. intros i Hi.
  destruct (Hf i ltac:(lia)) as [Hl Hg]. split; auto.
  rewrite in_app_iff. intros [Hin|[Heq|[]]]; [auto|].
  apply Hinj in Heq. lia.
Qed.

Lemma closure_entries_shift n cl :
  map (fun rd : string * Z => (fst rd, VInt (snd rd - n))) (shift n cl)
  = map (fun e : string * Z => (fst e, VInt (snd e))) cl.
Proof.
  unfold shift. rewrite map_map. apply map_ext. intros [h d]. simpl.
  do 2 f_equal. lia.
Qed.

Lemma closure_reads P (h : heap) l cl :
  P l -> h !! l = Some (map (fun e : string * Z => (fst e, VInt (snd e))) cl) ->
  reads_in P h (closure_content cl) (VDict l).
Proof.
  intros HP Hl. simpl. split; auto. eexists. split; [exact Hl|].
  clear Hl. induction cl as [|[k d] cl IH]; simpl; auto; repeat split; auto.
Qed.

Lemma shift_nil_iff n evs : shift n evs = [] <-> evs = [].
Proof. unfold shift. destruct evs; simpl; split; congruence. Qed.

End BaseSteps.

Section BaseRecord.
Context `{FloatText}.

Ltac fields :=
  cbn [heap_of transports write_transports read_transport detach_lineage lineage
       family_tree closure_table uuid_source uuid_count with_heap with_transports
       with_detach_lineage with_lineage with_family_tree with_closure_table
       with_uuid_count].

(** Leaving [traverse_base]: both stacks popped, the record at [B]. *)
Lemma base_finished s0 sc a b det (ms : list (string * content)) hint
    (hF : heap) (tF : list transport) (cF : list (string * loc)) :
  let B := List.length (heap_of s0) in
  let sb := with_heap (fun h => h ++ [[("id", VStr "")]])
              (with_lineage (fun l => l ++ [uuid_source s0 (uuid_count s0)])
                 (with_uuid_count S (with_detach_lineage (fun dl => dl ++ [det]) s0))) in
  let s' := State hF tF (write_transports sc) (read_transport sc)
              (removelast (detach_lineage sc)) (removelast (lineage sc))
              (family_tree sc) cF (uuid_source sc) (uuid_count sc) in
  (a <= b)%nat -> (b <= B)%nat ->
  fresh_tokens s0 ->
  effect sb (fun l => between a b l \/ l = B)
    (events (decomposed_props decomposed ms [("id", CStr "")]))
    (writes (decomposed_props decomposed ms [("id", CStr "")])) sc ->
  (List.length (heap_of sc) <= List.length hF)%nat ->
  (forall l, (l < List.length (heap_of sc))%nat -> l <> B -> hF !! l = heap_of sc !! l) ->
  tF = deliver_all (write_transports s0) (writes (visit det (CBase ms hint))) (transports s0) ->
  reads_in (fun l => l = B \/ built a b B sc l
                     \/ between (List.length (heap_of sc)) (List.length hF) l)
    hF (form (decomposed (CBase ms hint))) (VDict B) ->
  effect s0 (between a b) (events (visit det (CBase ms hint)))
    (writes (visit det (CBase ms hint))) s' /\
  reads_in (grown a b s0 s') (heap_of s') (form (decomposed (CBase ms hint))) (VDict B).
Proof.
  intros B sb s' Hab Hb Hf0 Hec Hlen Hfr HtF Hread.
  pose proof Hec as (Cc & (Tc & Ac) & Frc & Hfc).
  pose proof Cc as (c1 & c2 & c3 & c4 & c5 & c6 & c7).
  unfold sb in c1, c2, c3, c4, c5, c6, c7. revert c1 c2 c3 c4 c5 c6 c7. fields.
  rewrite length_app. cbn [List.length]. fold B. intros c1 c2 c3 c4 c5 c6 c7.
  split.
  - split; [|split; [|split]].
    + unfold same_config, s'. fields. rewrite c4, c5, !removelast_last.
      repeat split; auto; lia.
    + split.
      * unfold s'. fields. exact HtF.
      * unfold s'. fields. intros p Hp.
        rewrite Ac by (unfold sb; fields; apply in_or_app; auto).
        unfold sb, depth_of. fields. rewrite length_app. cbn [List.length].
        rewrite events_visit. unfold seen_from_holder. cbn [is_base_c events decomposed].
        rewrite shift_shift. do 2 f_equal. lia.
    + intros l Hl Hn. unfold s'. fields. fold B in Hl.
      rewrite Hfr by lia. rewrite Frc.
      * unfold sb. fields. apply lookup_snoc_old. fold B. lia.
      * unfold sb. fields. rewrite length_app. cbn [List.length]. fold B. lia.
      * intros [Hbt|HeqB]; [auto|lia].
    + destruct Hfc as [Hinj Hfc]. unfold s'. split; fields.
      * rewrite c3 in Hinj. rewrite c3. exact Hinj.
      * intros i Hi. destruct (Hfc i Hi) as [Hl Hg]. split; [|exact Hg].
        rewrite c5 in Hl. rewrite c5, removelast_last. rewrite c3. rewrite c3 in Hl.
        intros Hin. apply Hl. apply in_or_app. auto.
  - unfold s'. fields. eapply reads_in_mono; [|exact Hread].
    unfold grown, built, between. fields. fold B. intros l. lia.
Qed.

(** The body of [traverse_base], entered with the object's detach flag on
    top of the stack. *)
Lemma traverse_base_with_ok fuel (ms : list (string * content)) hint :
  Forall (fun kc => visits fuel (snd kc)) ms ->
  well_formed (CBase ms hint) = true ->
  (3 + list_max (map (fun kv => need (snd kv)) ms) <= fuel)%nat ->
  forall s0 a b (es : list (string * value)) det,
    chain (fun kc a b kv => fst kc = fst kv /\ realises (heap_of s0) (snd kc) a b (snd kv))
      ms a b es ->
    (b <= List.length (heap_of s0))%nat ->
    fresh_tokens s0 ->
    exists s',
      traverse_base_with fuel (traverse_value fuel) (VBase es hint)
        (with_detach_lineage (fun dl => dl ++ [det]) s0)
      = Ok (id_of (form (decomposed (CBase ms hint))), VDict (List.length (heap_of s0))) s' /\
      effect s0 (between a b) (events (visit det (CBase ms hint)))
        (writes (visit det (CBase ms hint))) s' /\
      reads_in (grown a b s0 s') (heap_of s') (form (decomposed (CBase ms hint)))
        (VDict (List.length (heap_of s0))).
Proof.
  intros Hv Hwf Hfuel s0 a b es det Hch Hb Hf0.
  pose proof Hwf as Hwf'. cbn [well_formed] in Hwf'.
  apply andb_true_iff in Hwf' as [Hu Hwfs]. rewrite forallb_Forall in Hwfs.
  set (B := List.length (heap_of s0)).
  set (token := uuid_source s0 (uuid_count s0)).
  pose proof (chain_le _ _ _ _ _ (fields_le _ ms) Hch) as Hab.
  (* the state in which the properties are visited *)
  set (sb := with_heap (fun h => h ++ [[("id", VStr "")]])
               (with_lineage (fun l => l ++ [token])
                  (with_uuid_count S (with_detach_lineage (fun dl => dl ++ [det]) s0)))).
  assert (Hfb : fresh_tokens sb).
  { apply (fresh_tokens_draw (with_detach_lineage (fun dl => dl ++ [det]) s0)). exact Hf0. }
  assert (Hchb : chain (fun kc a b kv => fst kc = fst kv /\
                          realises (heap_of sb) (snd kc) a b (snd kv)) ms a b es).
  { apply (chain_fields_agree (heap_of s0)); auto.
    intros l [Hl1 Hl2]. unfold sb. fields. apply lookup_snoc_old. lia. }
  destruct (traverse_props_ok fuel ms Hv sb a a b es [] hint B [("id", CStr "")]
              [("id", VStr "")])
    as (sc & bes & flds & Hrun & Hec & Hcellc & Hform & Hflds); auto.
  { unfold sb. fields. rewrite length_app. simpl. fold B. lia. }
  { unfold sb. fields. apply lookup_snoc_new. }
  { simpl. repeat split; auto. }
  simpl app in Hrun.
  (* the record before its id is set *)
  destruct (builder_height ms) as (b1 & Hb1 & Hh1). rewrite Hform in Hb1. inversion Hb1; subst b1.
  destruct (builder_jsonable ms Hwfs) as (b2 & Hb2 & Hj1). rewrite Hform in Hb2.
  inversion Hb2; subst b2. clear Hb1 Hb2.
  pose proof Hec as (Cc & (Tc & Ac) & Frc & Hfc).
  pose proof Cc as (c1 & c2 & c3 & c4 & c5 & c6 & c7).
  assert (HBc : (B < List.length (heap_of sc))%nat).
  { revert c7. unfold sb. fields. rewrite length_app. simpl. fold B. lia. }
  assert (Hreadc : reads_in (fun l => l = B \/ built a b B sc l) (heap_of sc)
                     (CDict flds) (VDict B)).
  { simpl. split; [auto|]. exists bes. split; [exact Hcellc|].
    eapply fields_transport; [| |exact Hflds]; auto. }
  assert (Hsnap : snapshot fuel (heap_of sc) (VDict B) = Some (CDict flds)).
  { eapply reads_snapshot; [exact Hreadc|]. lia. }
  assert (Hhash : hash_obj fuel (VDict B) sc = Ok (hash_content (CDict flds)) sc).
  { unfold hash_obj. rewrite (bind_ok _ _ _ _ _
      (json_dumps_ok _ _ _ _ _ Hsnap (jsonable_text_of _ Hj1))). reflexivity. }
  set (hash := hash_content (CDict flds)) in *.
  destruct (store_field sc B "id" (VStr hash) bes Hcellc HBc Hfc)
    as (Hset & Hed & Hcelld & Hlend).
  set (sd := with_heap (heap_store B (dict_set "id" (VStr hash) bes)) sc) in *.
  unfold traverse_base_with. unfold bind at 1. cbn [gets]. fields.
  replace (match detach_lineage s0 ++ [det] with
           | [] => modify (with_detach_lineage (fun _ : list bool => [true]))
           | _ :: _ => ret tt
           end) with (ret tt : M unit) by (destruct (detach_lineage s0); reflexivity).
  unfold bind at 1. cbn [ret].
  unfold bind at 1. cbn [uuid4_hex]. fields.
  unfold bind at 1. cbn [modify].
  unfold bind at 1. cbn [new_dict]. fields.
  unfold bind at 1. cbn [get_member_names ret].
  unfold dict_keys. rewrite (chain_fields_keys _ _ _ _ _ Hch).
  fold token. fold B. fold sb.
  rewrite (bind_ok _ _ _ _ _ Hrun), (bind_ok _ _ _ _ _ Hhash), (bind_ok _ _ _ _ _ Hset).
  assert (Hdl : detach_lineage sd = detach_lineage s0 ++ [det]) by (unfold sd; fields; exact c4).
  assert (Hlin : lineage sd = lineage s0 ++ [token]) by (unfold sd; fields; exact c5).
  assert (Htree : dict_get token (family_tree sd)
                  = extend None (shift (Z.of_nat (List.length (detach_lineage s0)))
                                   (events (decomposed_props decomposed ms [("id", CStr "")])))).
  { assert (Hnone : dict_get token (family_tree sb) = None).
    { unfold sb. fields. destruct Hf0 as [_ Hf0]. now destruct (Hf0 (uuid_count s0) ltac:(lia)). }
    assert (Hdepth : depth_of sb - 1 = Z.of_nat (List.length (detach_lineage s0))).
    { unfold depth_of, sb. fields. rewrite length_app. simpl. lia. }
    unfold sd. fields. rewrite Ac by (unfold sb; fields; apply in_or_app; simpl; auto).
    now rewrite Hnone, Hdepth. }
  unfold bind at 1. cbn [gets]. rewrite Hdl, last_snoc.
  unfold bind at 1. cbn [modify].
  unfold bind at 1. cbn [gets]. fields. rewrite Hlin, last_snoc.
  unfold bind at 1. cbn [gets]. fields. rewrite Htree.
  remember (events (decomposed_props decomposed ms [("id", CStr "")])) as evs eqn:Hevs.
  set (se := with_detach_lineage (@removelast bool) sd).
  set (n := Z.of_nat (List.length (detach_lineage s0))).
  (* the record, as the spec has it *)
  assert (Hrecord : form (decomposed (CBase ms hint))
                    = CDict (match min_depths evs with
                             | [] => dict_set "id" (CStr hash) flds
                             | cl => dict_set "__closure" (closure_content cl)
                                       (dict_set "id" (CStr hash) flds)
                             end)).
  { cbn [decomposed form]. rewrite <- Hevs, Hform. reflexivity. }
  assert (Hidrec : id_of (form (decomposed (CBase ms hint))) = hash).
  { destruct (decomposed_base_record ms hint) as (b0 & r0 & Hb0 & Hr0 & _ & Hid0).
    rewrite Hform in Hb0. inversion Hb0; subst b0. rewrite Hr0. exact Hid0. }
  (* the cell of the record once its id is set, read in the final heap *)
  assert (Hwithid : forall hF : heap,
            (forall l, (l < List.length (heap_of sc))%nat -> l <> B ->
                       hF !! l = heap_of sc !! l) ->
            all2 (paired (reads_in (fun l => l = B \/ built a b B sc l \/
                           between (List.length (heap_of sc)) (List.length hF) l) hF))
              (dict_set "id" (CStr hash) flds) (dict_set "id" (VStr hash) bes)).
  { intros hF HhF. apply paired_set; [|reflexivity].
    eapply fields_transport; [| |exact Hflds]; [tauto|].
    intros l Hl. apply HhF; unfold built, between in Hl; lia. }
  (* the closure manifest *)
  assert (Hclosure : exists hf cf,
    (match extend None (shift n evs) with
     | Some refs =>
         do n0 <- gets (fun s : state => Z.of_nat (List.length (detach_lineage s))) ;;
         do closure <- new_dict (map (fun rd : string * Z => (fst rd, VInt (snd rd - n0))) refs) ;;
         run dict_setitem B "__closure" (VDict closure) ;;
         modify (with_closure_table (dict_set hash closure))
     | None => ret tt
     end) se
    = Ok tt (with_closure_table (fun _ => cf) (with_heap (fun _ => hf) se)) /\
    (List.length (heap_of sc) <= List.length hf)%nat /\
    (forall l, (l < List.length (heap_of sc))%nat -> l <> B -> hf !! l = heap_of sc !! l) /\
    reads_in (fun l => l = B \/ built a b B sc l \/
                between (List.length (heap_of sc)) (List.length hf) l)
      hf (form (decomposed (CBase ms hint))) (VDict B)).
  { rewrite extend_none, Hrecord.
    clear Hevs. destruct evs as [|e evs'].
    - exists (heap_of sd), (closure_table sd). cbn [shift map min_depths fold_left].
      split; [reflexivity|]. unfold sd. fields.
      split; [rewrite Hlend; lia|]. split.
      + intros l Hl Hne. now apply heap_store_lookup_ne.
      + cbn [reads_in]. split; [auto|]. eexists. split; [exact Hcelld|].
        apply Hwithid. intros l Hl Hne. now apply heap_store_lookup_ne.
    - remember (e :: evs') as evs eqn:Eevs.
      assert (Hne : min_depths evs <> []) by (rewrite min_depths_nil; subst; discriminate).
      clear Eevs.
      destruct (shift n evs) as [|sh0 shl] eqn:Esh; [apply shift_nil_iff in Esh; subst evs; now rewrite min_depths_nil in Hne|].
      rewrite <- Esh. clear Esh. rewrite min_depths_shift.
      destruct (min_depths evs) as [|c0 cl] eqn:Ecl; [congruence|].
      rewrite <- Ecl in *.
      set (Cl := List.length (heap_of sc)).
      set (centries := map (fun e : string * Z => (fst e, VInt (snd e))) (min_depths evs)).
      set (hf := heap_store B (dict_set "__closure" (VDict Cl) (dict_set "id" (VStr hash) bes))
                   (heap_of sd ++ [centries])).
      exists hf, (dict_set hash Cl (closure_table sd)).
      assert (HCl : List.length (heap_of sd) = Cl) by (unfold sd; fields; exact Hlend).
      assert (Hlenf : List.length hf = S Cl).
      { unfold hf. rewrite heap_store_length, length_app. simpl. lia. }
      split; [|split; [|split]].
      + unfold bind at 1. cbn [gets]. unfold se at 1. fields.
        rewrite Hdl, removelast_last. fold n. rewrite closure_entries_shift. fold centries.
        unfold bind at 1. cbn [new_dict]. unfold se at 1. fields. rewrite HCl.
        unfold bind at 1. unfold dict_setitem, modify. unfold se.
        unfold with_closure_table, with_heap, with_detach_lineage. fields.
        assert (Hcb : cell (heap_of sd ++ [centries]) B = dict_set "id" (VStr hash) bes).
        { apply cell_lookup. rewrite lookup_app_l by lia. exact Hcelld. }
        rewrite Hcb, HCl. reflexivity.
      + lia.
      + intros l Hl Hne'. unfold hf. rewrite heap_store_lookup_ne by auto.
        rewrite lookup_app_l by lia. unfold sd. fields. now apply heap_store_lookup_ne.
      + assert (Hold : forall l, (l < List.length (heap_of sc))%nat -> l <> B ->
                                 hf !! l = heap_of sc !! l).
        { intros l Hl Hne'. unfold hf. rewrite heap_store_lookup_ne by auto.
          rewrite lookup_app_l by lia. unfold sd. fields. now apply heap_store_lookup_ne. }
        cbn [reads_in]. split; [auto|]. eexists. split.
        * unfold hf. apply heap_store_lookup_eq. rewrite length_app. simpl. lia.
        * apply paired_set; [apply Hwithid; exact Hold|].
          apply closure_reads.
          -- right. right. unfold between. lia.
          -- unfold hf. rewrite heap_store_lookup_ne by (unfold Cl; lia).
             rewrite <- HCl. apply lookup_snoc_new. }
  destruct Hclosure as (hf & cf & Hrunc & Hlenf & Holdf & Hreadf).
  rewrite (bind_ok _ _ _ _ _ Hrunc).
  set (sf := with_closure_table (fun _ => cf) (with_heap (fun _ => hf) se)).
  set (record := form (decomposed (CBase ms hint))) in *.
  set (tF := if det then deliver (write_transports sc) (transports sc) (hash, text_of record)
             else transports sc).
  exists (State hf tF (write_transports sc) (read_transport sc)
            (removelast (detach_lineage sc)) (removelast (lineage sc))
            (family_tree sc) cf (uuid_source sc) (uuid_count sc)).
  split.
  - rewrite Hidrec. unfold tF. destruct det.
    + assert (Hsnapf : snapshot fuel (heap_of sf) (VDict B) = Some record).
      { eapply reads_snapshot; [exact Hreadf|].
        pose proof (record_height ms hint). fold record in H0. lia. }
      unfold bind at 1. unfold bind at 1. cbn [gets].
      rewrite (save_to_transports_ok _ _ _ _ _ _ _ Hsnapf
                 (jsonable_text_of _ (decomposed_jsonable _ Hwf))).
      reflexivity.
    + reflexivity.
  - subst evs. apply (base_finished s0 sc a b det ms hint hf tF cf); auto.
    unfold tF. rewrite Tc. unfold visit. cbn [writes].
    rewrite writes_seen_from_holder, form_seen_from_holder. cbn [is_base_c].
    rewrite andb_true_r. fold record. rewrite Hidrec.
    replace (write_transports sb) with (write_transports s0) by reflexivity.
    replace (transports sb) with (transports s0) by reflexivity.
    rewrite c1. replace (write_transports sb) with (write_transports s0) by reflexivity.
    destruct det.
    + rewrite deliver_all_snoc. reflexivity.
    + now rewrite app_nil_r.
Qed.

End BaseRecord.

Section Visits.
Context `{FloatText}.

Lemma visits_leaf fuel c (r : value) :
  events (visit false c) = [] -> writes (visit false c) = [] -> is_base_c c = false ->
  (forall s a b v det, realises (heap_of s) c a b v ->
     traverse_value (S fuel) v det s = Ok r s /\
     reads_in (between a b) (heap_of s) (form (decomposed c)) r) ->
  visits (S fuel) c.
Proof.
  intros Hev Hwr Hb Hrun s a b v det Hr _ Hf.
  destruct (Hrun s a b v det Hr) as [Hok Hread].
  exists r, s. split; [exact Hok|].
  assert (Hev' : events (visit det c) = []) by exact Hev.
  assert (Hwr' : writes (visit det c) = []).
  { unfold visit in *. cbn [writes] in *. now rewrite Hb, andb_false_r in *. }
  rewrite Hev', Hwr', form_visit. split; [now apply effect_refl|].
  eapply reads_in_mono; [|exact Hread]. unfold grown. tauto.
Qed.

Lemma need_pos c : (1 <= need c)%nat.
Proof. destruct c as [ | | | | | | | |[d|] ?]; simpl; lia. Qed.

(** Decomposition on the code agrees with the decomposition read off the
    object: for every well-formed object laid out in the heap, with fuel
    for its nesting depth. *)
Theorem traverse_value_visits c :
  well_formed c = true -> forall fuel, (need c <= fuel)%nat -> visits fuel c.
Proof.
  induction c using content_induction; intros Hwf [|fuel] Hfuel;
    try (pose proof (need_pos CNone); simpl in Hfuel; lia).
  - apply (visits_leaf _ _ (VStr "None")); auto.
    intros s a b v det Hr. destruct v; simpl in Hr; try tauto. split; reflexivity.
  - apply (visits_leaf _ _ (VBool b)); auto.
    intros s a0 b0 v det Hr. destruct v; simpl in Hr; try tauto.
    destruct Hr as [-> _]. split; reflexivity.
  - apply (visits_leaf _ _ (VInt z)); auto.
    intros s a0 b0 v det Hr. destruct v; simpl in Hr; try tauto.
    destruct Hr as [-> _]. split; reflexivity.
  - apply (visits_leaf _ _ (VFloat f)); auto.
    intros s a0 b0 v det Hr. destruct v; simpl in Hr; try tauto.
    destruct Hr as [-> _]. split; reflexivity.
  - apply (visits_leaf _ _ (VStr s)); auto.
    intros s0 a0 b0 v det Hr. destruct v; simpl in Hr; try tauto.
    destruct Hr as [-> _]. split; reflexivity.
  - (* a sequence *)
    cbn [well_formed] in Hwf. rewrite forallb_Forall in Hwf. cbn [need] in Hfuel.
    assert (Hvs : Forall (visits fuel) xs).
    { rewrite List.Forall_forall in H0, Hwf |- *. intros x Hin.
      apply H0; auto. pose proof (in_list_max_map need xs x Hin). lia. }
    intros s a b v det Hr Hb Hf. destruct v; simpl in Hr; try tauto.
    destruct Hr as [<- Hch].
    destruct (traverse_list_ok fuel xs Hvs s a b xs0 Hch Hb Hf) as (rs & s' & Hrun & He & Hreads).
    exists (VSeq KList rs), s'. split; [|split].
    + cbn [traverse_value]. now rewrite (bind_ok _ _ _ _ _ Hrun).
    + unfold visit, seen_from_holder. cbn [is_base_c decomposed events writes].
      rewrite andb_false_r, app_nil_r, !flat_map_map.
      assert (Hw : flat_map (fun c => writes (visit false c)) xs
                   = flat_map (fun x => writes (seen_from_holder x (decomposed x))) xs).
      { apply flat_map_ext. intros x.
        now rewrite writes_visit_false, writes_seen_from_holder. }
      rewrite Hw in He. exact He.
    + rewrite form_visit. cbn [decomposed form reads_in]. split; [reflexivity|].
      rewrite map_map.
      erewrite map_ext; [exact Hreads|].
      intros x. cbn beta. now rewrite form_visit, form_seen_from_holder.
  - (* a dictionary *)
    cbn [well_formed] in Hwf. apply andb_true_iff in Hwf as [Hu Hwf].
    rewrite forallb_Forall in Hwf. cbn [need] in Hfuel.
    assert (Hvs : Forall (fun kc : string * content => visits fuel (snd kc)) kvs).
    { rewrite List.Forall_forall in H0, Hwf |- *. intros x Hin.
      apply H0; auto.
      pose proof (in_list_max_map (fun kv => need (snd kv)) kvs x Hin). simpl in *. lia. }
    intros s a b v det Hr Hb Hf. destruct v; simpl in Hr; try tauto.
    destruct Hr as (-> & es & Hes & Hch).
    pose proof (chain_le _ _ _ _ _ (fields_le _ kvs) Hch) as Hal.
    destruct (traverse_items_ok fuel kvs Hvs s a l es [] Hes Hu Hch ltac:(lia) Hf)
      as (s' & rs & Hrun & He & Hcell & Hreads).
    exists (VDict l), s'. split; [|split].
    + cbn [traverse_value]. unfold bind at 1. cbn [gets].
      rewrite (cell_lookup _ _ _ Hes). unfold dict_keys.
      rewrite (chain_fields_keys _ _ _ _ _ Hch).
      now rewrite (bind_ok _ _ _ _ _ Hrun).
    + unfold visit, seen_from_holder. cbn [is_base_c decomposed events writes].
      rewrite andb_false_r, app_nil_r, !flat_map_map. cbn [fst snd].
      assert (Hw : flat_map (fun kc : string * content => writes (visit false (snd kc))) kvs
                   = flat_map (fun x : string * content =>
                                 writes (seen_from_holder (snd x) (decomposed (snd x)))) kvs).
      { apply flat_map_ext. intros x.
        now rewrite writes_visit_false, writes_seen_from_holder. }
      rewrite Hw in He. exact He.
    + rewrite form_visit. cbn [decomposed form reads_in].
      split; [unfold grown, between; lia|]. exists rs. split; [exact Hcell|].
      rewrite map_map. cbn [fst snd].
      apply (fields_transport (grown a l s s') _ (heap_of s') (heap_of s'));
        [unfold grown, between; intros x; lia|reflexivity|].
      erewrite map_ext; [exact Hreads|].
      intros x. cbn beta. now rewrite form_visit, form_seen_from_holder.
  - (* an object *)
    pose proof Hwf as Hwf'. cbn [well_formed] in Hwf'.
    apply andb_true_iff in Hwf' as [Hu Hwfs]. rewrite forallb_Forall in Hwfs.
    cbn [need] in Hfuel.
    assert (Hvs : Forall (fun kc : string * content => visits fuel (snd kc)) ms).
    { rewrite List.Forall_forall in H0, Hwfs |- *. intros x Hin.
      apply H0; auto.
      pose proof (in_list_max_map (fun kv => need (snd kv)) ms x Hin). simpl in *. lia. }
    intros s a b v det Hr Hb Hf. destruct v; simpl in Hr; try tauto.
    destruct Hr as (<- & Hch).
    destruct (traverse_base_with_ok fuel ms hint Hvs Hwf ltac:(lia) s a b members det Hch Hb Hf)
      as (s' & Hrun & He & Hread).
    exists (VDict (List.length (heap_of s))), s'. split; [|split].
    + cbn [traverse_value]. unfold bind at 1. cbn [modify].
      now rewrite (bind_ok _ _ _ _ _ Hrun).
    + exact He.
    + now rewrite form_visit.
  - (* an opaque value that does not *)
    apply (visits_leaf _ _ (VStr text)); auto.
    intros s a0 b0 v det Hr. destruct v as [ | | | | | | | |[w|] t]; simpl in Hr; try tauto.
    destruct Hr as [-> _]. split; reflexivity.
  - (* an opaque value that flattens *)
    cbn [well_formed] in Hwf. apply andb_true_iff in Hwf as [Hj Hwf].
    intros s a b v det Hr Hb Hf. destruct v as [ | | | | | | | |[w|] t]; simpl in Hr; try tauto.
    destruct Hr as [<- Hr].
    exists w, s. split; [reflexivity|]. rewrite form_visit.
    split.
    { unfold visit, seen_from_holder. cbn [is_base_c decomposed events writes].
      rewrite andb_false_r. now apply effect_refl. }
    cbn [decomposed form]. eapply reads_in_mono; [|apply realises_reads; exact Hr].
    unfold grown. tauto.
Qed.

End Visits.

Section WriteJson.
Context `{FloatText}.

Ltac fields :=
  cbn [heap_of transports write_transports read_transport detach_lineage lineage
       family_tree closure_table uuid_source uuid_count with_heap with_transports
       with_detach_lineage with_lineage with_family_tree with_closure_table
       with_uuid_count].

(** [write_json] on an object laid out in the heap: the hash and the text of
    its record are returned, the records of [written] go to the write
    transports, and the heap outside the object is as before. *)
Theorem write_json_ok ms hint fuel s a b es :
  well_formed (CBase ms hint) = true ->
  (need (CBase ms hint) <= fuel)%nat ->
  realises (heap_of s) (CBase ms hint) a b (VBase es hint) ->
  (b <= List.length (heap_of s))%nat ->
  distinct_tokens s ->
  exists s',
    write_json fuel (VBase es hint) s
    = Ok (id_of (record_of (CBase ms hint)), text_of (record_of (CBase ms hint))) s' /\
    transports s' = deliver_all (write_transports s) (written (CBase ms hint)) (transports s) /\
    write_transports s' = write_transports s /\
    read_transport s' = read_transport s /\
    detach_lineage s' = [] /\ lineage s' = [] /\
    (List.length (heap_of s) <= List.length (heap_of s'))%nat /\
    (forall l, (l < List.length (heap_of s))%nat -> ~ between a b l ->
               heap_of s' !! l = heap_of s !! l) /\
    reads_in (grown a b s s') (heap_of s') (record_of (CBase ms hint))
      (VDict (List.length (heap_of s))).
Proof.
  intros Hwf Hfuel Hr Hb Hinj.
  pose proof Hwf as Hwf'. cbn [well_formed] in Hwf'.
  apply andb_true_iff in Hwf' as [Hu Hwfs]. rewrite forallb_Forall in Hwfs.
  cbn [need] in Hfuel. cbn [realises] in Hr. destruct Hr as [_ Hch].
  assert (Hvs : Forall (fun kc : string * content => visits fuel (snd kc)) ms).
  { rewrite List.Forall_forall in Hwfs |- *. intros x Hin.
    apply traverse_value_visits; auto.
    pose proof (in_list_max_map (fun kv => need (snd kv)) ms x Hin). simpl in *. lia. }
  set (sr := State (heap_of s) (transports s) (write_transports s) (read_transport s)
               [] [] [] [] (uuid_source s) (uuid_count s)).
  assert (Hfr : fresh_tokens sr).
  { split; [exact Hinj|]. intros i _. split; [intros []|reflexivity]. }
  destruct (traverse_base_with_ok fuel ms hint Hvs Hwf ltac:(lia) sr a b es true Hch Hb Hfr)
    as (s' & Hrun & He & Hread).
  exists s'.
  destruct He as (C & (T & _) & Fr & _).
  destruct C as (c1 & c2 & c3 & c4 & c5 & c6 & c7).
  split.
  { unfold write_json. unfold bind at 1. cbn [reset_writer modify].
    unfold bind at 1. cbn [modify]. unfold traverse_base.
    change (with_detach_lineage (fun _ => [true]) _)
      with (with_detach_lineage (fun dl => dl ++ [true]) sr).
    rewrite (bind_ok _ _ _ _ _ Hrun). cbn [fst snd].
    assert (Hsnap : snapshot fuel (heap_of s') (VDict (List.length (heap_of s)))
                    = Some (record_of (CBase ms hint))).
    { eapply reads_snapshot; [exact Hread|]. pose proof (record_height ms hint).
      unfold record_of. lia. }
    rewrite (bind_ok _ _ _ _ _ (json_dumps_ok _ _ _ _ _ Hsnap
               (jsonable_text_of _ (decomposed_jsonable _ Hwf)))).
    reflexivity. }
  split.
  { rewrite T. unfold written, visit, record_of. cbn [writes is_base_c andb].
    now rewrite writes_seen_from_holder, form_seen_from_holder. }
  split; [exact c1|]. split; [exact c2|]. split; [exact c4|]. split; [exact c5|].
  split; [exact c7|]. split; [exact Fr|]. exact Hread.
Qed.

Lemma realises_base_shape h ms hint a b v :
  realises h (CBase ms hint) a b v -> exists es, v = VBase es hint.
Proof. destruct v; simpl; try tauto. intros [<- _]. eauto. Qed.

(** The same, for an object freshly added to the store. *)
Theorem write_json_hold ms hint fuel s :
  well_formed (CBase ms hint) = true ->
  (need (CBase ms hint) <= fuel)%nat ->
  distinct_tokens s ->
  exists s',
    write_json fuel (fst (hold (CBase ms hint) s)) (snd (hold (CBase ms hint) s))
    = Ok (id_of (record_of (CBase ms hint)), text_of (record_of (CBase ms hint))) s' /\
    transports s' = deliver_all (write_transports s) (written (CBase ms hint)) (transports s) /\
    (forall l, (l < List.length (heap_of s))%nat -> heap_of s' !! l = heap_of s !! l) /\
    exists l,
      reads_in (fun l => (List.length (heap_of s) <= l)%nat) (heap_of s')
        (record_of (CBase ms hint)) (VDict l).
Proof.
  intros Hwf Hfuel Hinj. unfold hold.
  destruct (alloc_content_layout (CBase ms hint) (heap_of s)) as (Hr & Hlen & Hold).
  destruct (alloc_content (CBase ms hint) (heap_of s)) as [v h1] eqn:E. cbn [fst snd] in *.
  destruct (realises_base_shape _ _ _ _ _ _ Hr) as [es ->].
  set (s1 := with_heap (fun _ => h1) s).
  destruct (write_json_ok ms hint fuel s1 (List.length (heap_of s)) (List.length h1) es
              Hwf Hfuel Hr ltac:(unfold s1; fields; lia) Hinj)
    as (s' & Hrun & Ht & _ & _ & _ & _ & Hl & Hfr & Hread).
  exists s'. split; [exact Hrun|]. split; [exact Ht|]. split.
  - intros l Hl'. rewrite Hfr; [apply Hold; auto| |].
    + unfold s1. fields. lia.
    + unfold between. lia.
  - eexists. eapply reads_in_mono; [|exact Hread].
    unfold grown, between, s1. fields. intros l. lia.
Qed.

End WriteJson.

(** ** What the write transports receive *)

Lemma deliver_out ts trs w t :
  ~ In t ts -> deliver ts trs w !! t = trs !! t.
Proof.
  unfold deliver. revert trs. induction ts as [|t0 ts IH]; intros trs Hn; simpl; auto.
  rewrite IH; [|intros Hin; apply Hn; now right].
  apply list_lookup_alter_ne. intros ->. apply Hn. now left.
Qed.

Lemma deliver_in ts trs w t tr :
  List.NoDup ts -> In t ts -> trs !! t = Some tr ->
  deliver ts trs w !! t = Some (save_object (fst w) (snd w) tr).
Proof.
  unfold deliver. revert trs. induction ts as [|t0 ts IH]; intros trs Hnd Hin Ht; simpl.
  - destruct Hin.
  - inversion Hnd as [|? ? Hnot Hnd']; subst. destruct Hin as [->|Hin].
    + fold (deliver ts (alter (save_object (fst w) (snd w)) t trs) w).
      rewrite deliver_out by assumption.
      rewrite list_lookup_alter_eq, Ht. reflexivity.
    + apply IH; auto. rewrite list_lookup_alter_ne; auto.
      intros ->. contradiction.
Qed.


Lemma deliver_all_in ts ws trs t tr :
  List.NoDup ts -> In t ts -> trs !! t = Some tr ->
  deliver_all ts ws trs !! t = Some (received ws tr).
Proof.
  unfold deliver_all. revert trs tr. induction ws as [|w ws IH]; intros trs tr Hnd Hin Ht; simpl.
  - rewrite Ht. unfold received. rewrite app_nil_r. now destruct tr.
  - rewrite (IH _ _ Hnd Hin (deliver_in ts trs w t tr Hnd Hin Ht)).
    unfold received, save_object. cbn [name saved fetched fst snd].
    rewrite <- app_assoc. now destruct w.
Qed.

(** ** Tokens *)

Lemma tally_inj i j : tally i = tally j -> i = j.
Proof.
  revert j. induction i as [|i IH]; intros [|j]; simpl; try discriminate; auto.
  intros [= E]. f_equal. now apply IH.
Qed.

Lemma memory_store_distinct h : distinct_tokens (memory_store h).
Proof. intros i j. apply tally_inj. Qed.

Lemma hold_distinct c s : distinct_tokens s -> distinct_tokens (snd (hold c s)).
Proof. unfold hold. destruct (alloc_content c (heap_of s)). exact (fun H => H). Qed.

(** ** Detached descendants: events and writes as paths *)

Section Paths.
Context `{FloatText}.

Lemma events_lift v (d : decomposition) paths :
  events d = map event_of paths ->
  events (seen_from_holder v d) = map event_of (lift v paths).
Proof.
  unfold seen_from_holder, lift. destruct (is_base_c v); auto.
  intros E. cbn [events]. rewrite E. unfold shift. rewrite !map_map. reflexivity.
Qed.

Lemma writes_lift v paths : map write_of (lift v paths) = map write_of paths.
Proof.
  unfold lift. destruct (is_base_c v); auto. rewrite map_map. reflexivity.
Qed.

Lemma decomposed_props_paths ms :
  Forall (fun kv : string * content =>
            events (decomposed (snd kv)) = map event_of (detached_below (snd kv)) /\
            writes (decomposed (snd kv)) = map write_of (detached_below (snd kv))) ms ->
  forall builder,
    events (decomposed_props decomposed ms builder)
    = map event_of (detached_below (CBase ms None)) /\
    writes (decomposed_props decomposed ms builder)
    = map write_of (detached_below (CBase ms None)).
Proof.
  induction 1 as [|[k c] ms [He Hw] _ IH]; intros builder; [split; reflexivity|].
  cbn [fst snd] in He, Hw.
  rewrite decomposed_props_cons. cbn [detached_below flat_map fst snd].
  destruct (kept k c); [|apply IH].
  cbn zeta. cbn [events writes].
  destruct (IH (dict_set k
              (if is_base_c c && wants_detach k
               then reference_marker (id_of (form (visit (is_base_c c && wants_detach k) c)))
               else form (visit (is_base_c c && wants_detach k) c)) builder)) as [IHe IHw].
  cbn [detached_below] in IHe, IHw. rewrite IHe, IHw. clear IHe IHw IH.
  rewrite !map_app. rewrite events_visit, (events_lift c _ _ He).
  rewrite writes_lift. split.
  - f_equal. f_equal.
    destruct (is_base_c c && wants_detach k); [|reflexivity].
    cbn [map]. unfold event_of. cbn [fst snd]. rewrite form_visit. reflexivity.
  - f_equal. unfold visit. cbn [writes].
    rewrite writes_seen_from_holder, form_seen_from_holder, Hw. f_equal.
    destruct (is_base_c c) eqn:Eb; cbn [andb]; [|reflexivity].
    destruct (wants_detach k); reflexivity.
Qed.

Lemma flat_map_paths {A} (f : A -> decomposition) (g : A -> list (Z * content)) xs :
  Forall (fun x => events (f x) = map event_of (g x) /\
                   writes (f x) = map write_of (g x)) xs ->
  flat_map events (map f xs) = map event_of (flat_map g xs) /\
  flat_map writes (map f xs) = map write_of (flat_map g xs).
Proof.
  induction 1 as [|x xs [He Hw] _ [IHe IHw]]; [split; reflexivity|].
  cbn [map flat_map]. rewrite !map_app, He, Hw, IHe, IHw. split; reflexivity.
Qed.

(** The events and the writes of a decomposition are its paths to detached
    objects, one each and in the same order. *)
Lemma decomposed_paths c :
  events (decomposed c) = map event_of (detached_below c) /\
  writes (decomposed c) = map write_of (detached_below c).
Proof.
  induction c using content_induction; try (split; reflexivity).
  - cbn [decomposed events writes detached_below].
    apply (flat_map_paths (fun x => seen_from_holder x (decomposed x))
             (fun x => lift x (detached_below x))).
    eapply Forall_impl; [exact H0|]. cbn beta. intros x [He Hw]. split.
    + now apply events_lift.
    + now rewrite writes_seen_from_holder, writes_lift.
  - cbn [decomposed events writes detached_below].
    rewrite !flat_map_map.
    assert (HF := flat_map_paths (fun kv : string * content =>
                      seen_from_holder (snd kv) (decomposed (snd kv)))
                    (fun kv => lift (snd kv) (detached_below (snd kv))) kvs).
    rewrite !flat_map_map in HF. apply HF.
    eapply Forall_impl; [exact H0|]. cbn beta. intros x [He Hw]. split.
    + now apply events_lift.
    + now rewrite writes_seen_from_holder, writes_lift.
  - cbn [decomposed events writes].
    apply (decomposed_props_paths ms H0).
Qed.

End Paths.

(** ** The minimum depth per hash *)

Lemma note_reference_lookup h k d refs :
  dict_get h (note_reference k d refs)
  = if String.eqb h k
    then Some (match dict_get k refs with Some d0 => Z.min d d0 | None => d end)
    else dict_get h refs.
Proof.
  unfold note_reference. destruct (String.eqb h k) eqn:E.
  - apply String.eqb_eq in E. subst h.
    destruct (dict_get k refs) as [d0|] eqn:G.
    + destruct (d <? d0) eqn:L.
      * rewrite dict_get_set_eq. f_equal. lia.
      * rewrite G. f_equal. lia.
    + now rewrite dict_get_set_eq.
  - apply String.eqb_neq in E.
    destruct (dict_get k refs) as [d0|] eqn:G.
    + destruct (d <? d0); [|reflexivity]. now apply dict_get_set_ne.
    + now apply dict_get_set_ne.
Qed.




Section ClosureDepths.
Context `{FloatText}.





End ClosureDepths.

Section TraverseBaseOn.
Context `{FloatText}.

Lemma hold_fresh c s : fresh_tokens s -> fresh_tokens (snd (hold c s)).
Proof. unfold hold. destruct (alloc_content c (heap_of s)). exact (fun F => F). Qed.

(** [traverse_base] on a new object, anywhere in a traversal: it returns
    the hash and the record, the stacks are as before, and the detached
    records below went to the write transports, followed by the object's own
    when it is detached. *)
Lemma traverse_base_hold ms hint fuel s det :
  well_formed (CBase ms hint) = true ->
  (need (CBase ms hint) <= fuel)%nat ->
  fresh_tokens s ->
  exists s' l,
    traverse_base_on fuel (CBase ms hint) det s
    = Ok (id_of (record_of (CBase ms hint)), VDict l) s' /\
    snapshot fuel (heap_of s') (VDict l) = Some (record_of (CBase ms hint)) /\
    detach_lineage s' = detach_lineage s /\
    lineage s' = lineage s /\
    transports s'
    = deliver_all (write_transports s) (writes (visit det (CBase ms hint))) (transports s).
Proof.
  intros Hwf Hfuel Hfr. unfold traverse_base_on.
  pose proof (hold_fresh (CBase ms hint) s Hfr) as Hfr1. unfold hold in *.
  destruct (alloc_content_layout (CBase ms hint) (heap_of s)) as (Hr & Hlen & Hold).
  destruct (alloc_content (CBase ms hint) (heap_of s)) as [v h1] eqn:E. cbn [fst snd] in *.
  destruct (realises_base_shape _ _ _ _ _ _ Hr) as [es ->].
  pose proof Hwf as Hwf'. cbn [well_formed] in Hwf'.
  apply andb_true_iff in Hwf' as [Hu Hwfs]. rewrite forallb_Forall in Hwfs.
  cbn [need] in Hfuel. cbn [realises] in Hr. destruct Hr as [_ Hch].
  assert (Hvs : Forall (fun kc : string * content => visits fuel (snd kc)) ms).
  { rewrite List.Forall_forall in Hwfs |- *. intros x Hin.
    apply traverse_value_visits; auto.
    pose proof (in_list_max_map (fun kv => need (snd kv)) ms x Hin). simpl in *. lia. }
  destruct (traverse_base_with_ok fuel ms hint Hvs Hwf ltac:(lia)
              (with_heap (fun _ => h1) s) (List.length (heap_of s)) (List.length h1) es det
              Hch ltac:(cbn; lia) Hfr1)
    as (s' & Hrun & He & Hread).
  destruct He as (C & (T & _) & _ & _).
  destruct C as (c1 & c2 & c3 & c4 & c5 & c6 & c7).
  exists s', (List.length h1). split; [exact Hrun|]. split.
  - eapply reads_snapshot; [exact Hread|]. pose proof (record_height ms hint).
    unfold record_of. lia.
  - split; [exact c4|]. split; [exact c5|]. exact T.
Qed.

End TraverseBaseOn.

(** ** Recomposition: the first steps on a record *)

Section Recompose.
Context `{FloatText}.

Lemma base_setitem_shape prop v base ms hint :
  base = VBase ms hint -> base_setitem prop v base = VBase (dict_set prop v ms) hint.
Proof. now intros ->. Qed.

(** Properties with primitive values are copied to the object. *)
Lemma recompose_props_primitives rb hv l s : forall pre ks ms hint,
  (forall k, In k pre ->
     exists v, dict_get k (cell (heap_of s) l) = Some v /\ is_primitive v = true) ->
  exists ms',
    recompose_props rb hv l (pre ++ ks) (VBase ms hint) s
    = recompose_props rb hv l ks (VBase ms' hint) s /\
    forall k, dict_get k ms' <> None -> dict_get k ms <> None \/ In k pre.
Proof.
  induction pre as [|k pre IH]; intros ks ms hint Hp.
  - exists ms. split; [reflexivity|]. intros k Hk. now left.
  - destruct (Hp k (or_introl eq_refl)) as (v & Gv & Pv).
    destruct (IH ks (dict_set k v ms) hint) as (ms' & Erun & Hkeys).
    { intros k' Hk'. apply Hp. now right. }
    exists ms'. split.
    + rewrite <- Erun. cbn [app recompose_props]. unfold bind at 1, gets at 1.
      rewrite Gv, Pv. reflexivity.
    + intros k' Hk'. destruct (Hkeys k' Hk') as [Hs|Hin]; [|right; now right].
      destruct (String.eqb k' k) eqn:E.
      * apply String.eqb_eq in E. subst. right. now left.
      * apply String.eqb_neq in E. left. now rewrite dict_get_set_ne in Hs.
Qed.

Lemma dict_get_prefix {A} k (pre rest : list (string * A)) v :
  dict_get k pre = Some v -> dict_get k (pre ++ rest) = Some v.
Proof. intros G. now rewrite dict_get_app, G. Qed.

Lemma dict_get_in_keys {A} k (d : list (string * A)) :
  In k (dict_keys d) -> exists v, dict_get k d = Some v /\ In (k, v) d.
Proof.
  induction d as [|[k' v'] d IH]; cbn [dict_keys map In dict_get fst]; [intros []|].
  intros Hin. destruct (String.eqb k k') eqn:E.
  - apply String.eqb_eq in E. subst. exists v'. split; [reflexivity|now left].
  - apply String.eqb_neq in E. destruct Hin as [->|Hin]; [congruence|].
    destruct (IH Hin) as (v & G & Hv). exists v. split; [exact G|now right].
Qed.



End Recompose.

Section RecomposeSteps.
Context `{FloatText}.

Lemma bind_ok_inv {A B} (m : M A) (k : A -> M B) s b s' :
  bind m k s = Ok b s' -> exists a s1, m s = Ok a s1 /\ k a s1 = Ok b s'.
Proof. unfold bind. destruct (m s) as [a s1| |]; try discriminate. eauto. Qed.

(** What [recompose_props] returns is the object it was given, with
    properties added under names of the record. *)
Lemma recompose_props_result rb hv l : forall keys ms hint s r s',
  recompose_props rb hv l keys (VBase ms hint) s = Ok r s' ->
  exists ms', r = VBase ms' hint /\
    forall k, dict_get k ms' <> None -> dict_get k ms <> None \/ In k keys.
Proof.
  assert (Hstep : forall prop (v : value) ms k,
            dict_get k (dict_set prop v ms) <> None ->
            dict_get k ms <> None \/ k = prop).
  { intros prop v ms k Hk. destruct (String.eqb k prop) eqn:E.
    - apply String.eqb_eq in E. now right.
    - apply String.eqb_neq in E. left. now rewrite dict_get_set_ne in Hk. }
  induction keys as [|prop keys IH]; intros ms hint s r s' Hrun.
  - injection Hrun as <- <-. exists ms. split; [reflexivity|]. intros k Hk. now left.
  - cbn [recompose_props] in Hrun.
    apply bind_ok_inv in Hrun as (d & s1 & Hd & Hrun). injection Hd as <- <-.
    destruct (dict_get prop (cell (heap_of s) l)) as [v|]; [|discriminate].
    assert (Hfin : forall x s2,
              recompose_props rb hv l keys (base_setitem prop x (VBase ms hint)) s2
              = Ok r s' ->
              exists ms', r = VBase ms' hint /\
                forall k, dict_get k ms' <> None -> dict_get k ms <> None \/ In k (prop :: keys)).
    { intros x s2 Hx. cbn [base_setitem] in Hx.
      destruct (IH _ _ _ _ _ Hx) as (ms' & -> & Hk). exists ms'. split; [reflexivity|].
      intros k Hin. destruct (Hk k Hin) as [Hs|Hs]; [|right; now right].
      destruct (Hstep _ _ _ _ Hs) as [Hs'| ->]; [now left|right; now left]. }
    destruct (is_primitive v); [exact (Hfin _ _ Hrun)|].
    apply bind_ok_inv in Hrun as (is_ref & s2 & _ & Hrun).
    destruct is_ref.
    + apply bind_ok_inv in Hrun as (ref_hash & s3 & _ & Hrun).
      apply bind_ok_inv in Hrun as ([[id found] source] & s4 & _ & Hrun).
      destruct found as [[|c1 text]|]; try discriminate.
      apply bind_ok_inv in Hrun as (ref_obj & s5 & _ & Hrun).
      apply bind_ok_inv in Hrun as (child & s6 & _ & Hrun).
      exact (Hfin _ _ Hrun).
    + apply bind_ok_inv in Hrun as (x & s3 & _ & Hrun).
      exact (Hfin _ _ Hrun).
Qed.

Lemma dict_del_keys {A} k (d : list (string * A)) :
  unique_names (dict_keys d) = true -> ~ In k (dict_keys (dict_del k d)).
Proof.
  induction d as [|[k' v'] d IH]; cbn [dict_del dict_keys map fst]; [tauto|].
  intros Hu. apply unique_names_cons in Hu as [Hn Hu].
  destruct (String.eqb k k') eqn:E.
  - apply String.eqb_eq in E. subst. exact Hn.
  - apply String.eqb_neq in E. cbn [map fst]. intros [->|Hin]; [congruence|].
    now apply (IH Hu).
Qed.

End RecomposeSteps.

(** ** Plain data *)

Lemma dict_get_in {A} k (d : list (string * A)) v : dict_get k d = Some v -> In (k, v) d.
Proof.
  induction d as [|[k' v'] d IH]; cbn [dict_get]; [discriminate|].
  destruct (String.eqb k k') eqn:E.
  - apply String.eqb_eq in E. intros [= <-]. subst. now left.
  - intros G. right. auto.
Qed.

Lemma dict_set_same {A} k (d : list (string * A)) v :
  dict_get k d = Some v -> dict_set k v d = d.
Proof.
  induction d as [|[k' v'] d IH]; cbn [dict_get dict_set]; [discriminate|].
  destruct (String.eqb k k') eqn:E.
  - apply String.eqb_eq in E. intros [= <-]. now subst.
  - intros G. now rewrite IH.
Qed.

Lemma with_heap_same f s : f (heap_of s) = heap_of s -> with_heap f s = s.
Proof. destruct s. unfold with_heap. cbn. now intros ->. Qed.

Lemma dict_setitem_same l k v s d :
  heap_of s !! l = Some d -> dict_get k d = Some v -> dict_setitem l k v s = Ok tt s.
Proof.
  intros Hl G. unfold dict_setitem, modify. f_equal. apply with_heap_same.
  rewrite (cell_lookup _ _ _ Hl), (dict_set_same _ _ _ G).
  unfold heap_store. now apply list_insert_id.
Qed.

Lemma reads_primitive P h c v : reads_in P h c v -> is_primitive v = is_primitive_c c.
Proof. destruct c as [ | | | | | | | |[d|] ?], v as [ | | | | | | | |[w|] ?]; simpl; tauto. Qed.

Lemma reads_primitive_eq P h c v :
  reads_in P h c v -> is_primitive_c c = true ->
  match c, v with
  | CBool x, VBool y => x = y
  | CInt x, VInt y => x = y
  | CFloat x, VFloat y => x = y
  | CStr x, VStr y => x = y
  | _, _ => False
  end.
Proof. destruct c as [ | | | | | | | |[d|] ?], v as [ | | | | | | | |[w|] ?]; simpl; try tauto; discriminate. Qed.


Section Plain.
Context `{FloatText}.

Lemma handle_list_same (hv : value -> M value) s vs :
  Forall (fun v => hv v s = Ok v s) vs -> handle_list hv vs s = Ok vs s.
Proof.
  induction 1 as [|v vs Hv _ IH]; cbn [handle_list]; [reflexivity|].
  rewrite (bind_ok _ _ _ _ _ Hv), (bind_ok _ _ _ _ _ IH). reflexivity.
Qed.

Lemma handle_items_same (hv : value -> M value) l s d :
  heap_of s !! l = Some d ->
  forall ks,
    (forall k, In k ks -> exists v, dict_get k d = Some v /\
                 (is_primitive v = false -> hv v s = Ok v s)) ->
    handle_items hv l ks s = Ok tt s.
Proof.
  intros Hl. induction ks as [|k ks IH]; intros Hks; cbn [handle_items]; [reflexivity|].
  destruct (Hks k (or_introl eq_refl)) as (v & G & Hv).
  unfold bind at 1, gets at 1. rewrite (cell_lookup _ _ _ Hl), G.
  assert (IH' : handle_items hv l ks s = Ok tt s).
  { apply IH. intros k' Hk'. apply Hks. now right. }
  destruct (is_primitive v); [exact IH'|].
  rewrite (bind_ok _ _ _ _ _ (Hv eq_refl)).
  rewrite (bind_ok _ _ _ _ _ (dict_setitem_same l k v s d Hl G)). exact IH'.
Qed.

(** [handle_value] returns plain data as it is and leaves the store alone. *)
Lemma handle_plain c :
  plain c = true ->
  forall fuel st v P, reads_in P (heap_of st) c v -> (height c <= fuel)%nat ->
    handle_value fuel v st = Ok v st.
Proof.
  induction c using content_induction; cbn [plain]; try discriminate;
    intros Hp fuel st v P Hr Hh;
    (destruct fuel as [|n]; [cbn [height] in Hh; lia|]);
    try (destruct v; cbn [reads_in] in Hr; try tauto; reflexivity).
  - destruct k; try discriminate.
    destruct v as [ | | | | |k vs| | | ]; cbn [reads_in] in Hr; try tauto.
    destruct Hr as [<- Ha]. cbn [handle_value height] in *.
    assert (HF : Forall (fun v => handle_value n v st = Ok v st) vs);
      [|rewrite (bind_ok _ _ _ _ _ (handle_list_same (handle_value n) st vs HF)); reflexivity].
    rewrite forallb_Forall in Hp.
    assert (Hhs : Forall (fun x => (height x <= n)%nat) xs).
    { apply List.Forall_forall. intros x Hin.
      pose proof (in_list_max_map height xs x Hin). lia. }
    clear - H0 Hp Ha Hhs. revert vs Ha.
    induction xs as [|x xs IH]; intros [|v vs]; cbn [all2]; try tauto; [constructor|].
    intros [Hx Ha]. inversion H0; subst. inversion Hp; subst. inversion Hhs; subst.
    constructor; [eapply H3; eauto|apply IH; auto].
  - apply andb_true_iff in Hp as [Ht Hp]. apply negb_true_iff in Ht.
    destruct v as [ | | | | | |l| | ]; cbn [reads_in] in Hr; try tauto.
    destruct Hr as (_ & es & Hl & Ha). cbn [handle_value height] in *.
    unfold bind at 1, gets at 1. rewrite (cell_lookup _ _ _ Hl).
    assert (Htyped : dict_has "speckleType" es = false).
    { unfold dict_has in *. pose proof (paired_get _ "speckleType" kvs es Ha) as Hg.
      destruct (dict_get "speckleType" kvs), (dict_get "speckleType" es);
        try tauto; discriminate. }
    rewrite Htyped. unfold bind at 1, gets at 1. rewrite (cell_lookup _ _ _ Hl).
    assert (HF : forall k, In k (dict_keys es) ->
              exists v, dict_get k es = Some v /\
                (is_primitive v = false -> handle_value n v st = Ok v st));
      [|rewrite (bind_ok _ _ _ _ _
                   (handle_items_same (handle_value n) l st es Hl (dict_keys es) HF));
        reflexivity].
    intros k Hk. destruct (dict_get_in_keys k es Hk) as (v & G & _).
    exists v. split; [exact G|]. intros Hnp.
    pose proof (paired_get _ k kvs es Ha) as Hg. rewrite G in Hg.
    destruct (dict_get k kvs) as [c|] eqn:Gc; [|tauto].
    apply dict_get_in in Gc.
    rewrite forallb_Forall in Hp. rewrite List.Forall_forall in Hp, H0.
    apply (H0 _ Gc (Hp _ Gc) n st v P Hg).
    pose proof (in_list_max_map (fun kv => height (snd kv)) kvs _ Gc). cbn [snd] in *. lia.
Qed.

End Plain.

Lemma flat_map_empty {A B} (l : list A) : flat_map (fun _ => @nil B) l = [].
Proof. induction l; cbn; auto. Qed.

Section Faithful.
Context `{FloatText}.

Lemma plain_not_base c : plain c = true -> is_base_c c = false.
Proof. destruct c; cbn; auto; discriminate. Qed.

(** Plain data is its own serializable form, and nothing is detached in it. *)
Lemma plain_decomposed c : plain c = true -> decomposed c = Decomposition c [] [].
Proof.
  induction c using content_induction; cbn [plain]; try discriminate; try reflexivity;
    intros Hp.
  - destruct k; try discriminate. rewrite forallb_Forall in Hp.
    cbn [decomposed].
    assert (E : map (fun x => seen_from_holder x (decomposed x)) xs
                = map (fun x => Decomposition x [] []) xs).
    { apply map_ext_in. intros x Hin. rewrite List.Forall_forall in H0, Hp.
      rewrite (H0 x Hin (Hp x Hin)). unfold seen_from_holder.
      now rewrite (plain_not_base x (Hp x Hin)). }
    rewrite E, !flat_map_map, map_map. cbn [form events writes].
    rewrite map_id, !flat_map_empty. reflexivity.
  - apply andb_true_iff in Hp as [_ Hp]. rewrite forallb_Forall in Hp.
    cbn [decomposed].
    assert (E : map (fun kv : string * content =>
                       (fst kv, seen_from_holder (snd kv) (decomposed (snd kv)))) kvs
                = map (fun kv => (fst kv, Decomposition (snd kv) [] [])) kvs).
    { apply map_ext_in. intros x Hin. rewrite List.Forall_forall in H0, Hp.
      rewrite (H0 x Hin (Hp x Hin)). unfold seen_from_holder.
      now rewrite (plain_not_base _ (Hp x Hin)). }
    rewrite E, !flat_map_map, map_map. cbn [form events writes fst snd].
    rewrite !flat_map_empty. f_equal. f_equal.
    rewrite <- (map_id kvs) at 2. apply map_ext. now intros [k c].
Qed.

Lemma plain_detached_below c : plain c = true -> detached_below c = [].
Proof.
  intros Hp. pose proof (proj1 (decomposed_paths c)) as E.
  rewrite (plain_decomposed c Hp) in E. cbn [events] in E.
  symmetry in E. now apply map_eq_nil in E.
Qed.











End Faithful.

(** ** Recomposition of faithful objects *)






Section RecomposeFaithful.
Context `{FloatText}.







End RecomposeFaithful.

Section RecomposeLoop.
Context `{FloatText}.



End RecomposeLoop.

(** * The scenarios of the specification *)

Section Scenarios.
Context `{FloatText}.

(** C3, amended. Decomposing the object [{a: 1, b: 0, c: "", d: None}]
    returns the record [{"id": h, "a": 1}], where h is the first 32
    hexadecimal digits of the SHA-256 of [{"id": "", "a": 1}]: the falsy
    properties b, c and d are dropped and the truthy property a is kept.
    This holds in every store and with any transports, given recursion
    depth 5 and tokens that do not repeat. *)
Theorem falsy_properties_dropped fuel s :
  (5 <= fuel)%nat -> distinct_tokens s ->
  exists s',
    write_json_on fuel scenario_falsy s = Ok (falsy_record_hash, falsy_record_text) s' /\
    JsonParse.loads falsy_record_text
    = Some (CDict [("id", CStr falsy_record_hash); ("a", CInt 1)]) /\
    falsy_record_hash
    = String.substring 0 32 (Sha256.hexdigest (q "{'id': '', 'a': 1}")).
Proof.
  intros Hfuel Hd.
  destruct (write_json_hold [("a", CInt 1); ("b", CInt 0); ("c", CStr ""); ("d", CNone)]
              None fuel s eq_refl Hfuel Hd) as (s' & Hrun & _).
  assert (E1 : id_of (record_of
                 (CBase [("a", CInt 1); ("b", CInt 0); ("c", CStr ""); ("d", CNone)] None))
               = falsy_record_hash) by (vm_compute; reflexivity).
  assert (E2 : text_of (record_of
                 (CBase [("a", CInt 1); ("b", CInt 0); ("c", CStr ""); ("d", CNone)] None))
               = falsy_record_text) by (vm_compute; reflexivity).
  rewrite E1, E2 in Hrun.
  exists s'. split; [exact Hrun|]. split; vm_compute; reflexivity.
Qed.

(** C2, amended. Decomposing the object [{"@child": {x: 5}}] returns the root
    record [{"id": R, "@child": {"referencedId": H, "speckleType":
    "reference"}, "__closure": {H: 1}}], where H is the hash of the child's
    own record; every write transport receives one [save_object] call for H
    with the child record [{"id": H, "x": 5}], followed by one for the root
    record. *)
Theorem detached_child_scenario fuel s :
  (9 <= fuel)%nat -> distinct_tokens s ->
  exists s',
    write_json_on fuel scenario_child s = Ok (root_record_hash, root_record_text) s' /\
    JsonParse.loads root_record_text
    = Some (CDict [("id", CStr root_record_hash);
                   ("@child", CDict [("referencedId", CStr child_record_hash);
                                     ("speckleType", CStr "reference")]);
                   ("__closure", CDict [(child_record_hash, CInt 1)])]) /\
    child_record_hash
    = String.substring 0 32 (Sha256.hexdigest (q "{'id': '', 'x': 5}")) /\
    JsonParse.loads child_record_text
    = Some (CDict [("id", CStr child_record_hash); ("x", CInt 5)]) /\
    (List.NoDup (write_transports s) ->
     forall t tr, In t (write_transports s) -> transports s !! t = Some tr ->
       transports s' !! t
       = Some (received [(child_record_hash, child_record_text);
                         (root_record_hash, root_record_text)] tr)).
Proof.
  intros Hfuel Hd.
  destruct (write_json_hold [("@child", CBase [("x", CInt 5)] None)]
              None fuel s eq_refl Hfuel Hd) as (s' & Hrun & Ht & _).
  assert (E1 : id_of (record_of (CBase [("@child", CBase [("x", CInt 5)] None)] None))
               = root_record_hash) by (vm_compute; reflexivity).
  assert (E2 : text_of (record_of (CBase [("@child", CBase [("x", CInt 5)] None)] None))
               = root_record_text) by (vm_compute; reflexivity).
  assert (E3 : written (CBase [("@child", CBase [("x", CInt 5)] None)] None)
               = [(child_record_hash, child_record_text);
                  (root_record_hash, root_record_text)]) by (vm_compute; reflexivity).
  rewrite E1, E2 in Hrun. rewrite E3 in Ht.
  exists s'. split; [exact Hrun|].
  split; [vm_compute; reflexivity|]. split; [vm_compute; reflexivity|].
  split; [vm_compute; reflexivity|].
  intros Hnd t tr Hin Htr. rewrite Ht. exact (deliver_all_in _ _ _ _ _ Hnd Hin Htr).
Qed.

End Scenarios.

Lemma falsy_properties_dropped_witness :
  exists s',
    @write_json_on no_floats 5 scenario_falsy (memory_store [])
    = Ok (falsy_record_hash, falsy_record_text) s' /\
    @JsonParse.loads no_floats falsy_record_text
    = Some (CDict [("id", CStr falsy_record_hash); ("a", CInt 1)]) /\
    falsy_record_hash
    = String.substring 0 32 (Sha256.hexdigest (q "{'id': '', 'a': 1}")).
Proof.
  apply (@falsy_properties_dropped no_floats 5 (memory_store []));
    [lia | apply memory_store_distinct].
Defined.

(** Against C3 as stated: the record of [{a: 1, b: 0, c: "", d: None}] is
    not [{"id": h}] alone, it holds the property a. *)
Lemma falsy_scenario_keeps_a :
  returned (@write_json_on no_floats 5 scenario_falsy (memory_store []))
  = Some (falsy_record_hash, falsy_record_text) /\
  @JsonParse.loads no_floats falsy_record_text
  = Some (CDict [("id", CStr falsy_record_hash); ("a", CInt 1)]) /\
  CDict [("id", CStr falsy_record_hash); ("a", CInt 1)]
  <> CDict [("id", CStr falsy_record_hash)].
Proof.
  split; [vm_compute; reflexivity|]. split; [vm_compute; reflexivity|]. discriminate.
Qed.

Lemma detached_child_scenario_witness :
  exists s',
    @write_json_on no_floats 9 scenario_child (memory_store [])
    = Ok (root_record_hash, root_record_text) s' /\
    transports s' !! 0%nat
    = Some (Transport "memory" [(child_record_hash, child_record_text);
                                (root_record_hash, root_record_text)] []).
Proof.
  destruct (@detached_child_scenario no_floats 9 (memory_store [])
              ltac:(lia) (memory_store_distinct []))
    as (s' & Hrun & _ & _ & _ & Hsink).
  exists s'. split; [exact Hrun|].
  apply (Hsink ltac:(repeat constructor; simpl; tauto) 0%nat (Transport "memory" [] []));
    [now left | reflexivity].
Defined.

(** Against C2 as stated: the marker left in the root record of
    [{"@child": {x: 5}}] has the key speckleType, not type, and the manifest
    sits under __closure. *)
Lemma child_marker_keys :
  returned (@write_json_on no_floats 9 scenario_child (memory_store []))
  = Some (root_record_hash, root_record_text) /\
  match @JsonParse.loads no_floats root_record_text with
  | Some (CDict fields) =>
      dict_get "@child" fields
      = Some (CDict [("referencedId", CStr child_record_hash);
                     ("speckleType", CStr "reference")]) /\
      dict_get "@child" fields
      <> Some (CDict [("referencedId", CStr child_record_hash);
                      ("type", CStr "reference")]) /\
      dict_get "closure" fields = None /\
      dict_get "__closure" fields = Some (CDict [(child_record_hash, CInt 1)])
  | _ => False
  end.
Proof.
  split; [vm_compute; reflexivity|]. vm_compute.
  split; [reflexivity|]. split; [discriminate|]. split; reflexivity.
Qed.

(** * Closure depths and what is written *)

Section Closures.
Context `{FloatText}.



End Closures.

Lemma memory_store_fresh h : fresh_tokens (memory_store h).
Proof.
  split; [apply memory_store_distinct|]. intros i _. split; [intros []|reflexivity].
Qed.


(** An example: in [{mid: {"@leaf": {x: 5}}}] the one path from
    the root to the detached leaf crosses one detach boundary, and the root
    record's manifest gives the leaf depth 2. *)
Lemma inline_object_counts_as_level :
  returned (@write_json_on no_floats 13 scenario_inline (memory_store []))
  = Some (inline_record_hash, inline_record_text) /\
  match @JsonParse.loads no_floats inline_record_text with
  | Some (CDict fields) =>
      dict_get "__closure" fields = Some (CDict [(child_record_hash, CInt 2)])
  | _ => False
  end /\
  map (fun nd => (@id_of (@record_of no_floats (snd nd)), fst nd))
    (boundaries_crossed scenario_inline)
  = [(child_record_hash, 1)].
Proof.
  split; [vm_compute; reflexivity|]. split; vm_compute; reflexivity.
Qed.


(** An example: decomposing [{a: 1, b: 0, c: "", d: None}], which
    has no detached property, leaves the root record in the write
    transport. *)
Lemma root_record_is_written :
  option_map transports
    (store_after (@write_json_on no_floats 5 scenario_falsy (memory_store [])))
  = Some [Transport "memory" [(falsy_record_hash, falsy_record_text)] []] /\
  @detached_below scenario_falsy = [].
Proof.
  split; vm_compute; reflexivity.
Qed.

(** * Recomposition: closures and references *)

Section RecomposeClaims.
Context `{FloatText}.

Lemma recompose_base_enter fuel s l d :
  heap_of s !! l = Some d -> d <> [] ->
  recompose_base (S fuel) (VDict l) s
  = (do has_closure <- py_in "__closure" (VDict l) ;;
     do base <-
       (if has_closure : bool then
          do rt <- gets read_transport ;;
          match rt with
          | None => raise (SpeckleException no_read_transport_message)
          | Some _ =>
              do closure <- py_pop (VDict l) "__closure" ;;
              do n <- py_len closure ;;
              ret (set_totalChildrenCount n (VBase [] None))
          end
        else ret (VBase [] None)) ;;
     do keys <- gets (fun s => dict_keys (cell (heap_of s) l)) ;;
     recompose_props (recompose_base fuel) (handle_value fuel) l keys base) s.
Proof.
  intros Hl Hd. cbn [recompose_base]. unfold bind at 1, gets at 1.
  cbn [truthy]. unfold cell at 1. rewrite Hl.
  destruct d as [|e d]; [congruence|]. cbn [negb].
  unfold bind at 1, ret at 1. reflexivity.
Qed.

(** X4. A record that carries a [__closure] field: with no read transport
    configured, [recompose_base] raises the configuration error at once, the
    store as it was (no property was processed, nothing was fetched); with a
    read transport, the field is popped from the record, the rest of the
    properties are processed on an object whose [totalChildrenCount] is the
    number of entries of the closure, and whatever object is returned
    carries that count and has no [__closure] property. *)
Theorem closure_field_on_recompose fuel s l d closure :
  heap_of s !! l = Some d ->
  dict_get "__closure" d = Some closure ->
  (read_transport s = None ->
   recompose_base (S fuel) (VDict l) s
   = Raise (SpeckleException no_read_transport_message) s) /\
  (forall t lc, read_transport s = Some t -> closure = VDict lc ->
     let s1 := with_heap (heap_store l (dict_del "__closure" d)) s in
     let n := List.length (cell (heap_of s1) lc) in
     recompose_base (S fuel) (VDict l) s
     = recompose_props (recompose_base fuel) (handle_value fuel) l
         (dict_keys (cell (heap_of s1) l)) (VBase [] (Some n)) s1 /\
     cell (heap_of s1) l = dict_del "__closure" d /\
     forall r s', recompose_base (S fuel) (VDict l) s = Ok r s' ->
       exists ms, r = VBase ms (Some n) /\
         (unique_names (dict_keys d) = true -> dict_get "__closure" ms = None)).
Proof.
  intros Hl Hc.
  assert (Hd : d <> []) by (intros ->; discriminate).
  assert (Hin : py_in "__closure" (VDict l) s = Ok true s).
  { cbn [py_in]. unfold gets, dict_has, cell. now rewrite Hl, Hc. }
  split.
  - intros Hrt. rewrite (recompose_base_enter fuel s l d Hl Hd).
    rewrite (bind_ok _ _ _ _ _ Hin). unfold bind at 1. unfold bind at 1, gets at 1.
    rewrite Hrt. reflexivity.
  - intros t lc Hrt -> s1 n.
    assert (Hcell : cell (heap_of s1) l = dict_del "__closure" d).
    { unfold s1. cbn [heap_of with_heap]. unfold cell.
      rewrite heap_store_lookup_eq; [reflexivity|].
      apply lookup_lt_is_Some. eauto. }
    assert (Hrun : recompose_base (S fuel) (VDict l) s
                   = recompose_props (recompose_base fuel) (handle_value fuel) l
                       (dict_keys (cell (heap_of s1) l)) (VBase [] (Some n)) s1).
    { rewrite (recompose_base_enter fuel s l d Hl Hd).
      rewrite (bind_ok _ _ _ _ _ Hin). unfold bind at 1. unfold bind at 1, gets at 1.
      rewrite Hrt. unfold bind at 1. cbn [py_pop]. unfold bind at 1, gets at 1.
      assert (Hcs : cell (heap_of s) l = d) by (unfold cell; now rewrite Hl).
      rewrite !Hcs, Hc. unfold bind at 1, modify at 1. unfold ret at 1.
      fold s1. unfold bind at 1. cbn [py_len]. unfold gets at 1. fold n.
      unfold ret at 1. cbn [set_totalChildrenCount].
      unfold bind at 1, gets at 1. reflexivity. }
    split; [exact Hrun|]. split; [exact Hcell|].
    intros r s' Hok. rewrite Hrun in Hok.
    destruct (recompose_props_result _ _ _ _ _ _ _ _ _ Hok) as (ms & -> & Hkeys).
    exists ms. split; [reflexivity|]. intros Hu.
    destruct (dict_get "__closure" ms) eqn:G; [|reflexivity]. exfalso.
    destruct (Hkeys "__closure") as [Hs|Hs]; [now rewrite G|now apply Hs|].
    rewrite Hcell in Hs. exact (dict_del_keys _ _ Hu Hs).
Qed.


End RecomposeClaims.

Lemma closure_field_on_recompose_witness :
  @recompose_base no_floats 2 (VDict 0%nat)
    (State record_with_closure [] [] None [] [] [] [] tally 0)
  = Raise (SpeckleException no_read_transport_message)
      (State record_with_closure [] [] None [] [] [] [] tally 0) /\
  returned (@recompose_base no_floats 2 (VDict 0%nat) (memory_store record_with_closure))
  = Some (VBase [("id", VStr "r"); ("a", VInt 1)] (Some 2%nat)).
Proof.
  split.
  - apply (proj1 (@closure_field_on_recompose no_floats 1
                    (State record_with_closure [] [] None [] [] [] [] tally 0) 0%nat
                    _ (VDict 1%nat) eq_refl eq_refl)).
    reflexivity.
  - destruct (proj2 (@closure_field_on_recompose no_floats 1
                       (memory_store record_with_closure) 0%nat
                       _ (VDict 1%nat) eq_refl eq_refl) 0%nat 1%nat eq_refl eq_refl)
      as (Hrun & _).
    rewrite Hrun. reflexivity.
Defined.


(** An example: recomposing the record [{"referencedId": "H"}]
    itself, with a read transport that holds nothing, raises no error and
    asks the transport nothing; it returns an object with the property
    [referencedId]. *)
Lemma marker_alone_recomposes :
  @recompose_base no_floats 2 (VDict 0%nat) (memory_store marker_alone)
  = Ok (VBase [("referencedId", VStr "H")] None) (memory_store marker_alone) /\
  returned (@read_json no_floats 3 "" (q "{'referencedId': 'H'}") (memory_store []))
  = Some (VBase [("referencedId", VStr "H")] None) /\
  option_map transports
    (store_after (@read_json no_floats 3 "" (q "{'referencedId': 'H'}") (memory_store [])))
  = Some [Transport "memory" [] []].
Proof.
  split; [reflexivity|]. split; vm_compute; reflexivity.
Qed.

(** * Hashes *)

Lemma other_store_distinct h : distinct_tokens (other_store h).
Proof. intros i j. cbn. intros [= E]. now apply tally_inj. Qed.

Section Hashes.
Context `{FloatText}.


End Hashes.


(** An example: the object [{a: 1}] gets the id that is the hash
    of [{"id": "", "a": 1}]. The object [read_json] makes of its record has
    that id as a property, and decomposing it hashes
    [{"id": "05d4...", "a": 1}]: the two records agree in every field but
    [id], and their ids differ. *)
Lemma own_id_enters_hash :
  returned (@write_json_on no_floats 5 scenario_plain (memory_store []))
  = Some (falsy_record_hash, falsy_record_text) /\
  returned (@read_json no_floats 3 falsy_record_hash falsy_record_text (memory_store []))
  = Some (VBase [("id", VStr falsy_record_hash); ("a", VInt 1)] None) /\
  returned (@write_json_on no_floats 5 scenario_recomposed (memory_store []))
  = Some (recomposed_record_hash, recomposed_record_text) /\
  @JsonParse.loads no_floats falsy_record_text
  = Some (CDict [("id", CStr falsy_record_hash); ("a", CInt 1)]) /\
  @JsonParse.loads no_floats recomposed_record_text
  = Some (CDict [("id", CStr recomposed_record_hash); ("a", CInt 1)]) /\
  recomposed_record_hash
  = String.substring 0 32
      (Sha256.hexdigest (q "{'id': '05d487b0cad26a92ee18cf93ae77a67a', 'a': 1}")) /\
  recomposed_record_hash <> falsy_record_hash.
Proof.
  repeat (split; [vm_compute; reflexivity|]). discriminate.
Qed.

(** * Round trips *)


Section RecomposeMain.
Context `{FloatText}.




End RecomposeMain.


Section RoundTrip.
Context `{FloatText}.






End RoundTrip.


(** * Decomposition of values *)

Section DecomposeValues.
Context `{FloatText}.





End DecomposeValues.



(** * What the serializer never touches *)

Section Keeps.
Variable I : state -> state -> Prop.
Hypothesis I_refl : forall s, I s s.
Hypothesis I_trans : forall s1 s2 s3, I s1 s2 -> I s2 s3 -> I s1 s3.

Lemma keeps_ret {A} (a : A) : keeps I (ret a).
Proof. intros s. apply I_refl. Qed.

Lemma keeps_raise {A} e : keeps I (@raise A e).
Proof. intros s. apply I_refl. Qed.

Lemma keeps_out_of_fuel {A} : keeps I (@out_of_fuel A).
Proof. intros s. exact Logic.I. Qed.

Lemma keeps_gets {A} (f : state -> A) : keeps I (gets f).
Proof. intros s. apply I_refl. Qed.

Lemma keeps_modify f : (forall s, I s (f s)) -> keeps I (modify f).
Proof. intros Hf s. apply Hf. Qed.

Lemma keeps_bind {A B} (m : M A) (k : A -> M B) :
  keeps I m -> (forall a, keeps I (k a)) -> keeps I (bind m k).
Proof.
  intros Hm Hk s. unfold bind. specialize (Hm s).
  destruct (m s) as [a s1|e s1|]; auto.
  specialize (Hk a s1). destruct (k a s1); eauto.
Qed.

Lemma keeps_handle_list (hv : value -> M value) xs :
  (forall v, keeps I (hv v)) -> keeps I (handle_list hv xs).
Proof.
  intros Hhv. induction xs as [|x xs IH]; cbn [handle_list]; [apply keeps_ret|].
  apply keeps_bind; [apply Hhv|]. intros r.
  apply keeps_bind; [exact IH|]. intros rs. apply keeps_ret.
Qed.

Lemma keeps_traverse_list (tv : value -> M value) xs :
  (forall v, keeps I (tv v)) -> keeps I (traverse_list tv xs).
Proof.
  intros Htv. induction xs as [|x xs IH]; cbn [traverse_list]; [apply keeps_ret|].
  apply keeps_bind; [apply Htv|]. intros r.
  apply keeps_bind; [exact IH|]. intros rs. apply keeps_ret.
Qed.

End Keeps.

Lemma reading_only_refl s : reading_only s s.
Proof. repeat split; auto. intros t tr Ht. exists tr. auto. Qed.

Lemma reading_only_trans s1 s2 s3 :
  reading_only s1 s2 -> reading_only s2 s3 -> reading_only s1 s3.
Proof.
  intros (a1 & a2 & a3 & a4 & a5 & a6 & a7 & a8 & a9)
         (b1 & b2 & b3 & b4 & b5 & b6 & b7 & b8 & b9).
  repeat (split; [congruence|]).
  intros t tr Ht. destruct (a9 t tr Ht) as (tr' & Ht' & N1 & S1 & O1).
  destruct (b9 t tr' Ht') as (tr'' & Ht'' & N2 & S2 & O2).
  exists tr''. split; [exact Ht''|]. split; [congruence|]. split; [congruence|].
  intros Hne. rewrite O2, O1; auto. congruence.
Qed.

Lemma reading_only_heap f s : reading_only s (with_heap f s).
Proof. repeat split; auto. intros t tr Ht. exists tr. auto. Qed.

Section ReadingOnly.
Context `{FloatText}.

Lemma keeps_dict_setitem l k v : keeps reading_only (dict_setitem l k v).
Proof. apply keeps_modify. intros s. apply reading_only_heap. Qed.

Lemma keeps_py_in k v : keeps reading_only (py_in k v).
Proof.
  destruct v; cbn [py_in];
    first [apply keeps_gets; apply reading_only_refl
          |apply keeps_ret; apply reading_only_refl
          |apply keeps_raise; apply reading_only_refl].
Qed.

Lemma keeps_py_getitem v k : keeps reading_only (py_getitem v k).
Proof.
  destruct v; cbn [py_getitem]; try (apply keeps_raise; apply reading_only_refl).
  - apply keeps_bind; [apply reading_only_trans|apply keeps_gets; apply reading_only_refl|].
    intros d. destruct (dict_get k d);
      [apply keeps_ret|apply keeps_raise]; apply reading_only_refl.
  - destruct (dict_get k members);
      [apply keeps_ret|apply keeps_raise]; apply reading_only_refl.
Qed.

Lemma keeps_py_len v : keeps reading_only (py_len v).
Proof.
  destruct v; cbn [py_len];
    first [apply keeps_gets; apply reading_only_refl
          |apply keeps_ret; apply reading_only_refl
          |apply keeps_raise; apply reading_only_refl].
Qed.

Lemma keeps_py_pop v k : keeps reading_only (py_pop v k).
Proof.
  destruct v as [ | | | | |[ | | ] xs|l| | ]; cbn [py_pop];
    try (apply keeps_raise; apply reading_only_refl).
  apply keeps_bind; [apply reading_only_trans|apply keeps_gets; apply reading_only_refl|].
  intros d. destruct (dict_get k d); [|apply keeps_raise; apply reading_only_refl].
  apply keeps_bind; [apply reading_only_trans| |intros; apply keeps_ret; apply reading_only_refl].
  apply keeps_modify. intros s. apply reading_only_heap.
Qed.

Lemma keeps_json_loads text : keeps reading_only (json_loads text).
Proof.
  intros s. unfold json_loads. destruct (JsonParse.loads text) as [c|];
    [|apply reading_only_refl].
  destruct (alloc_content c (heap_of s)). apply reading_only_heap.
Qed.

Lemma keeps_read_object ref_hash : keeps reading_only (read_object ref_hash).
Proof.
  intros s. unfold read_object. unfold bind at 1, gets at 1.
  destruct (read_transport s) as [t|] eqn:Hrt; [|apply reading_only_refl].
  unfold bind at 1, gets at 1.
  destruct (transports s !! t) as [tr|] eqn:Ht; [|apply reading_only_refl].
  destruct ref_hash; try apply reading_only_refl.
  cbn [get_object]. unfold bind, modify, ret.
  repeat split; auto.
  - cbn. apply length_insert.
  - intros t' tr' Ht'. cbn. destruct (Nat.eq_dec t t') as [<-|Hne].
    + rewrite list_lookup_insert_eq by (apply lookup_lt_is_Some; eauto).
      rewrite Ht in Ht'. injection Ht' as <-.
      eexists. split; [reflexivity|]. cbn. repeat split; auto. congruence.
    + rewrite list_lookup_insert_ne by exact Hne. exists tr'. auto.
Qed.

Lemma keeps_handle_items (hv : value -> M value) l keys :
  (forall v, keeps reading_only (hv v)) -> keeps reading_only (handle_items hv l keys).
Proof.
  intros Hhv. induction keys as [|k keys IH]; cbn [handle_items];
    [apply keeps_ret; apply reading_only_refl|].
  apply keeps_bind; [apply reading_only_trans|apply keeps_gets; apply reading_only_refl|].
  intros d. destruct (dict_get k d) as [v|]; [|apply keeps_raise; apply reading_only_refl].
  destruct (is_primitive v); [exact IH|].
  apply keeps_bind; [apply reading_only_trans|apply Hhv|]. intros r.
  apply keeps_bind; [apply reading_only_trans|apply keeps_dict_setitem|]. intros _. exact IH.
Qed.

Lemma keeps_recompose_props (rb hv : value -> M value) l keys :
  (forall v, keeps reading_only (rb v)) -> (forall v, keeps reading_only (hv v)) ->
  forall base, keeps reading_only (recompose_props rb hv l keys base).
Proof.
  intros Hrb Hhv. induction keys as [|prop keys IH]; intros base; cbn [recompose_props];
    [apply keeps_ret; apply reading_only_refl|].
  apply keeps_bind; [apply reading_only_trans|apply keeps_gets; apply reading_only_refl|].
  intros d. destruct (dict_get prop d) as [v|]; [|apply keeps_raise; apply reading_only_refl].
  destruct (is_primitive v); [apply IH|].
  apply keeps_bind; [apply reading_only_trans|apply keeps_py_in|]. intros [|].
  - apply keeps_bind; [apply reading_only_trans|apply keeps_py_getitem|]. intros ref_hash.
    apply keeps_bind; [apply reading_only_trans|apply keeps_read_object|].
    intros [[id [[|c0 text]|]] source];
      try (apply keeps_raise; apply reading_only_refl).
    apply keeps_bind; [apply reading_only_trans|apply keeps_json_loads|]. intros ref_obj.
    apply keeps_bind; [apply reading_only_trans|apply Hrb|]. intros child. apply IH.
  - apply keeps_bind; [apply reading_only_trans|apply Hhv|]. intros r. apply IH.
Qed.

Lemma keeps_recomposition fuel :
  (forall v, keeps reading_only (recompose_base fuel v)) /\
  (forall v, keeps reading_only (handle_value fuel v)).
Proof.
  induction fuel as [|f [IHr IHh]];
    [split; intros v; apply keeps_out_of_fuel|].
  split; intros v.
  - cbn [recompose_base].
    apply keeps_bind; [apply reading_only_trans|apply keeps_gets; apply reading_only_refl|].
    intros nonempty. destruct (negb nonempty); [apply keeps_ret; apply reading_only_refl|].
    apply keeps_bind; [apply reading_only_trans| |].
    { destruct v; try (apply keeps_ret; apply reading_only_refl). apply keeps_json_loads. }
    intros obj.
    apply keeps_bind; [apply reading_only_trans|apply keeps_py_in|]. intros has_closure.
    apply keeps_bind; [apply reading_only_trans| |].
    { destruct has_closure; [|apply keeps_ret; apply reading_only_refl].
      apply keeps_bind; [apply reading_only_trans|apply keeps_gets; apply reading_only_refl|].
      intros [t|]; [|apply keeps_raise; apply reading_only_refl].
      apply keeps_bind; [apply reading_only_trans|apply keeps_py_pop|]. intros closure.
      apply keeps_bind; [apply reading_only_trans|apply keeps_py_len|]. intros n.
      apply keeps_ret; apply reading_only_refl. }
    intros base. destruct obj; try (apply keeps_raise; apply reading_only_refl).
    apply keeps_bind; [apply reading_only_trans|apply keeps_gets; apply reading_only_refl|].
    intros keys. now apply keeps_recompose_props.
  - cbn [handle_value].
    destruct v as [ | | | | |[ | | ] xs|l| | ]; try (apply keeps_ret; apply reading_only_refl).
    + apply keeps_bind; [apply reading_only_trans| |intros; apply keeps_ret; apply reading_only_refl].
      apply keeps_handle_list; [apply reading_only_refl|apply reading_only_trans|exact IHh].
    + apply keeps_bind; [apply reading_only_trans|apply keeps_gets; apply reading_only_refl|].
      intros [|]; [apply IHr|].
      apply keeps_bind; [apply reading_only_trans|apply keeps_gets; apply reading_only_refl|].
      intros keys.
      apply keeps_bind; [apply reading_only_trans| |intros; apply keeps_ret; apply reading_only_refl].
      now apply keeps_handle_items.
Qed.

(** X10. [read_json] and [recompose_base], on any input and whether they return
    or raise: no transport gains or loses a record, only the read transport
    is asked, and the serializer's traversal fields are left alone. *)
Theorem recomposition_reads_only fuel id text v :
  keeps reading_only (read_json fuel id text) /\ keeps reading_only (recompose_base fuel v).
Proof.
  split; [|apply keeps_recomposition].
  unfold read_json. destruct (String.eqb text ""); [apply keeps_ret; apply reading_only_refl|].
  apply keeps_bind; [apply reading_only_trans|apply keeps_json_loads|].
  intros obj. apply keeps_recomposition.
Qed.

End ReadingOnly.

Lemma writing_only_refl s : writing_only s s.
Proof.
  repeat split; auto. intros t tr Ht. exists tr. repeat split; auto.
  exists []. now rewrite app_nil_r.
Qed.

Lemma writing_only_trans s1 s2 s3 :
  writing_only s1 s2 -> writing_only s2 s3 -> writing_only s1 s3.
Proof.
  intros (a1 & a2 & a3 & a4 & a5 & a6 & a7) (b1 & b2 & b3 & b4 & b5 & b6 & b7).
  split; [congruence|]. split; [congruence|]. split; [congruence|].
  split; [lia|]. split; [lia|]. split; [congruence|].
  intros t tr Ht. destruct (a7 t tr Ht) as (tr' & Ht' & N1 & F1 & [m1 S1] & O1).
  destruct (b7 t tr' Ht') as (tr'' & Ht'' & N2 & F2 & [m2 S2] & O2).
  exists tr''. split; [exact Ht''|]. split; [congruence|]. split; [congruence|]. split.
  - exists (m1 ++ m2). now rewrite S2, S1, app_assoc.
  - intros Hn. rewrite O2, O1; auto. now rewrite a1.
Qed.

(** A change of the heap that does not shrink it, or of the traversal
    fields. *)
Lemma writing_only_fields s s' :
  transports s' = transports s -> write_transports s' = write_transports s ->
  read_transport s' = read_transport s -> uuid_source s' = uuid_source s ->
  (uuid_count s <= uuid_count s')%nat ->
  (List.length (heap_of s) <= List.length (heap_of s'))%nat ->
  writing_only s s'.
Proof.
  intros Ht Hw Hr Hu Hc Hh. repeat split; auto; try congruence.
  intros t tr Htr. exists tr. rewrite Ht. repeat split; auto.
  exists []. now rewrite app_nil_r.
Qed.

Section WritingOnly.
Context `{FloatText}.

Ltac quiet := apply writing_only_fields; cbn; auto; try lia.

Lemma keeps_w_dict_setitem l k v : keeps writing_only (dict_setitem l k v).
Proof. apply keeps_modify. intros s. quiet. now rewrite heap_store_length. Qed.

Lemma keeps_w_new_dict d : keeps writing_only (new_dict d).
Proof. intros s. unfold new_dict. quiet. rewrite length_app. lia. Qed.

Lemma keeps_w_py_getitem v k : keeps writing_only (py_getitem v k).
Proof.
  destruct v; cbn [py_getitem]; try (apply keeps_raise; apply writing_only_refl).
  - apply keeps_bind; [apply writing_only_trans|apply keeps_gets; apply writing_only_refl|].
    intros d. destruct (dict_get k d);
      [apply keeps_ret|apply keeps_raise]; apply writing_only_refl.
  - destruct (dict_get k members);
      [apply keeps_ret|apply keeps_raise]; apply writing_only_refl.
Qed.

Lemma keeps_w_json_dumps fuel v : keeps writing_only (json_dumps fuel v).
Proof.
  intros s. unfold json_dumps. destruct (snapshot fuel (heap_of s) v) as [c|]; [|exact Logic.I].
  destruct (Json.text c); apply writing_only_refl.
Qed.

Lemma keeps_w_hash_obj fuel v : keeps writing_only (hash_obj fuel v).
Proof.
  unfold hash_obj. apply keeps_bind; [apply writing_only_trans|apply keeps_w_json_dumps|].
  intros t. apply keeps_ret. apply writing_only_refl.
Qed.

Lemma keeps_w_detach_helper ref_hash : keeps writing_only (detach_helper ref_hash).
Proof.
  destruct ref_hash; cbn [detach_helper]; try (apply keeps_raise; apply writing_only_refl).
  apply keeps_bind; [apply writing_only_trans|apply keeps_gets; apply writing_only_refl|].
  intros parents.
  apply keeps_bind; [apply writing_only_trans|apply keeps_gets; apply writing_only_refl|].
  intros depth.
  apply keeps_bind; [apply writing_only_trans|apply keeps_modify; intros s0; quiet|].
  intros _. apply keeps_bind; [apply writing_only_trans|apply keeps_w_new_dict|].
  intros l. apply keeps_ret. apply writing_only_refl.
Qed.

Lemma writing_only_save s t hash serialized :
  In t (write_transports s) ->
  writing_only s (with_transports (alter (save_object hash serialized) t) s).
Proof.
  intros Hin. repeat split; auto.
  - cbn. apply length_alter.
  - intros t' tr Ht. cbn. destruct (Nat.eq_dec t t') as [<-|Hne].
    + rewrite list_lookup_alter_eq, Ht. cbn [fmap option_fmap option_map].
      eexists. split; [reflexivity|]. cbn. repeat split; auto.
      * eexists. reflexivity.
      * intros Hn. contradiction.
    + rewrite list_lookup_alter_ne by exact Hne. exists tr. repeat split; auto.
      exists []. now rewrite app_nil_r.
Qed.

Lemma save_to_transports_writes fuel ts hash obj : forall s,
  (forall t, In t ts -> In t (write_transports s)) ->
  match save_to_transports fuel ts hash obj s with
  | Ok _ s' | Raise _ s' => writing_only s s'
  | OutOfFuel => True
  end.
Proof.
  induction ts as [|t ts IH]; intros s Hsub; cbn [save_to_transports];
    [apply writing_only_refl|].
  unfold bind at 1. pose proof (keeps_w_json_dumps fuel obj s) as Hj.
  destruct (json_dumps fuel obj s) as [serialized s1|e s1|] eqn:Ej; auto.
  assert (s1 = s) as ->.
  { unfold json_dumps in Ej. destruct (snapshot fuel (heap_of s) obj); [|discriminate].
    destruct (Json.text c); [now injection Ej|discriminate]. }
  unfold bind at 1, modify at 1.
  assert (Hw : writing_only s (with_transports (alter (save_object hash serialized) t) s)).
  { apply writing_only_save. apply Hsub. now left. }
  specialize (IH (with_transports (alter (save_object hash serialized) t) s)).
  destruct (save_to_transports fuel ts hash obj
              (with_transports (alter (save_object hash serialized) t) s)) eqn:Es;
    auto; (eapply writing_only_trans; [exact Hw|]); apply IH;
    intros t' Ht'; apply Hsub; now right.
Qed.

Lemma keeps_w_traverse_items (tv : value -> M value) l keys :
  (forall v, keeps writing_only (tv v)) -> keeps writing_only (traverse_items tv l keys).
Proof.
  intros Htv. induction keys as [|k keys IH]; cbn [traverse_items];
    [apply keeps_ret; apply writing_only_refl|].
  apply keeps_bind; [apply writing_only_trans|apply keeps_gets; apply writing_only_refl|].
  intros d. destruct (dict_get k d) as [v|]; [|apply keeps_raise; apply writing_only_refl].
  destruct (is_primitive v); [exact IH|].
  apply keeps_bind; [apply writing_only_trans|apply Htv|]. intros r.
  apply keeps_bind; [apply writing_only_trans|apply keeps_w_dict_setitem|]. intros _. exact IH.
Qed.

Lemma keeps_w_traverse_props (tv : value -> bool -> M value) obj builder props :
  (forall v d, keeps writing_only (tv v d)) ->
  keeps writing_only (traverse_props tv obj builder props).
Proof.
  intros Htv. induction props as [|prop props IH]; cbn [traverse_props];
    [apply keeps_ret; apply writing_only_refl|].
  apply keeps_bind; [apply writing_only_trans|apply keeps_w_py_getitem|]. intros v.
  apply keeps_bind; [apply writing_only_trans|apply keeps_gets; apply writing_only_refl|].
  intros keep. destruct (negb keep || startswith "__" prop); [exact IH|].
  destruct (is_primitive v).
  { apply keeps_bind; [apply writing_only_trans|apply keeps_w_dict_setitem|].
    intros _. exact IH. }
  destruct (is_base v).
  - apply keeps_bind; [apply writing_only_trans|apply Htv|]. intros child.
    apply keeps_bind; [apply writing_only_trans| |intros _; exact IH].
    destruct (startswith "@" prop); [|apply keeps_w_dict_setitem].
    apply keeps_bind; [apply writing_only_trans|apply keeps_w_py_getitem|]. intros ref_hash.
    apply keeps_bind; [apply writing_only_trans|apply keeps_w_detach_helper|]. intros r.
    apply keeps_w_dict_setitem.
  - apply keeps_bind; [apply writing_only_trans|apply Htv|]. intros child.
    apply keeps_bind; [apply writing_only_trans|apply keeps_w_dict_setitem|].
    intros _. exact IH.
Qed.

Lemma keeps_w_traverse_base_with fuel (tv : value -> bool -> M value) base :
  (forall v d, keeps writing_only (tv v d)) ->
  keeps writing_only (traverse_base_with fuel tv base).
Proof.
  intros Htv. unfold traverse_base_with.
  apply keeps_bind; [apply writing_only_trans|apply keeps_gets; apply writing_only_refl|].
  intros dl. apply keeps_bind; [apply writing_only_trans| |].
  { destruct dl; [apply keeps_modify; intros s0; quiet
                 |apply keeps_ret; apply writing_only_refl]. }
  intros _. apply keeps_bind; [apply writing_only_trans| |].
  { intros s0. unfold uuid4_hex. quiet. }
  intros token.
  apply keeps_bind; [apply writing_only_trans|apply keeps_modify; intros s0; quiet|].
  intros _. apply keeps_bind; [apply writing_only_trans|apply keeps_w_new_dict|].
  intros builder. apply keeps_bind; [apply writing_only_trans| |].
  { destruct base; cbn [get_member_names];
      [apply keeps_raise| apply keeps_raise| apply keeps_raise| apply keeps_raise
      |apply keeps_raise| apply keeps_raise| apply keeps_raise| apply keeps_ret
      |apply keeps_raise]; apply writing_only_refl. }
  intros props.
  apply keeps_bind; [apply writing_only_trans|now apply keeps_w_traverse_props|].
  intros _. apply keeps_bind; [apply writing_only_trans|apply keeps_w_hash_obj|].
  intros hash. apply keeps_bind; [apply writing_only_trans|apply keeps_w_dict_setitem|].
  intros _.
  apply keeps_bind; [apply writing_only_trans|apply keeps_gets; apply writing_only_refl|].
  intros dl1. destruct (last dl1) as [detached|]; [|apply keeps_raise; apply writing_only_refl].
  apply keeps_bind; [apply writing_only_trans|apply keeps_modify; intros s0; quiet|].
  intros _.
  apply keeps_bind; [apply writing_only_trans|apply keeps_gets; apply writing_only_refl|].
  intros lin. destruct (last lin) as [top|]; [|apply keeps_raise; apply writing_only_refl].
  apply keeps_bind; [apply writing_only_trans|apply keeps_gets; apply writing_only_refl|].
  intros tree. apply keeps_bind; [apply writing_only_trans| |].
  { destruct (dict_get top tree) as [refs|]; [|apply keeps_ret; apply writing_only_refl].
    apply keeps_bind; [apply writing_only_trans|apply keeps_gets; apply writing_only_refl|].
    intros n. apply keeps_bind; [apply writing_only_trans|apply keeps_w_new_dict|].
    intros closure.
    apply keeps_bind; [apply writing_only_trans|apply keeps_w_dict_setitem|].
    intros _. apply keeps_modify. intros s0. quiet. }
  intros _. apply keeps_bind; [apply writing_only_trans| |].
  { destruct detached; [|apply keeps_ret; apply writing_only_refl].
    intros s0. unfold bind, gets.
    apply (save_to_transports_writes fuel (write_transports s0) hash (VDict builder) s0).
    auto. }
  intros _.
  apply keeps_bind; [apply writing_only_trans|apply keeps_modify; intros s0; quiet|].
  intros _. apply keeps_ret. apply writing_only_refl.
Qed.

Lemma keeps_w_traverse_value fuel : forall v d, keeps writing_only (traverse_value fuel v d).
Proof.
  induction fuel as [|f IH]; intros v d; [apply keeps_out_of_fuel|].
  cbn [traverse_value].
  destruct v as [ | | | | |k xs|l|members hint|[flat|] text];
    try (apply keeps_ret; apply writing_only_refl).
  - apply keeps_bind; [apply writing_only_trans| |intros; apply keeps_ret; apply writing_only_refl].
    apply keeps_traverse_list; [apply writing_only_refl|apply writing_only_trans|].
    intros v. apply IH.
  - apply keeps_bind; [apply writing_only_trans|apply keeps_gets; apply writing_only_refl|].
    intros keys.
    apply keeps_bind; [apply writing_only_trans| |intros; apply keeps_ret; apply writing_only_refl].
    apply keeps_w_traverse_items. intros v. apply IH.
  - apply keeps_bind; [apply writing_only_trans|apply keeps_modify; intros s0; quiet|].
    intros _.
    apply keeps_bind; [apply writing_only_trans| |intros; apply keeps_ret; apply writing_only_refl].
    apply keeps_w_traverse_base_with. exact IH.
Qed.

(** X11. [write_json], [traverse_base] and [traverse_value], on any input and
    whether they return or raise: no transport is asked for anything, the
    records a transport held stay in place with new ones added after them,
    only write transports receive records, the configuration is as before
    and the heap has not shrunk. *)
Theorem decomposition_writes_only fuel v detach :
  keeps writing_only (write_json fuel v) /\
  keeps writing_only (traverse_base fuel v) /\
  keeps writing_only (traverse_value fuel v detach).
Proof.
  split; [|split].
  - unfold write_json.
    apply keeps_bind; [apply writing_only_trans| |].
    { unfold reset_writer. apply keeps_modify. intros s0. quiet. }
    intros _.
    apply keeps_bind; [apply writing_only_trans|apply keeps_modify; intros s0; quiet|].
    intros _. apply keeps_bind; [apply writing_only_trans| |].
    { unfold traverse_base. apply keeps_w_traverse_base_with. apply keeps_w_traverse_value. }
    intros ho. apply keeps_bind; [apply writing_only_trans|apply keeps_w_json_dumps|].
    intros text. apply keeps_ret. apply writing_only_refl.
  - unfold traverse_base. apply keeps_w_traverse_base_with. apply keeps_w_traverse_value.
  - apply keeps_w_traverse_value.
Qed.

End WritingOnly.

(** * Records that hold no reference *)

Section FlatRecords.
Context `{FloatText}.

Lemma recompose_props_flat rb hv l s d hint :
  heap_of s !! l = Some d ->
  unique_names (dict_keys d) = true ->
  forall rest done,
    d = done ++ rest ->
    Forall (fun kv => is_primitive (snd kv) = true) rest ->
    recompose_props rb hv l (dict_keys rest) (VBase done hint) s = Ok (VBase d hint) s.
Proof.
  intros Hl Hu. induction rest as [|[k v] rest IH]; intros done Hd Hprim.
  - rewrite app_nil_r in Hd. now subst.
  - inversion Hprim as [|? ? Hv Hrest]; subst. cbn [snd] in Hv.
    assert (Hk : dict_get k done = None).
    { apply dict_get_None_in. unfold dict_keys in *. rewrite map_app in Hu.
      apply (unique_names_app_cons _ _ _ Hu). }
    cbn [dict_keys map fst recompose_props]. unfold bind at 1, gets at 1.
    rewrite (cell_lookup _ _ _ Hl), dict_get_app, Hk. cbn [dict_get].
    rewrite String.eqb_refl, Hv. cbn [base_setitem]. rewrite (dict_set_fresh _ _ _ Hk).
    apply (IH (done ++ [(k, v)])); [now rewrite <- app_assoc|exact Hrest].
Qed.

Lemma recompose_base_flat fuel s l d :
  heap_of s !! l = Some d ->
  d <> [] ->
  unique_names (dict_keys d) = true ->
  Forall (fun kv => is_primitive (snd kv) = true) d ->
  dict_get "__closure" d = None ->
  recompose_base (S fuel) (VDict l) s = Ok (VBase d None) s.
Proof.
  intros Hl Hd Hu Hprim Hnc.
  rewrite (recompose_base_enter fuel s l d Hl Hd).
  assert (Hin : py_in "__closure" (VDict l) s = Ok false s).
  { cbn [py_in]. unfold gets, dict_has. now rewrite (cell_lookup _ _ _ Hl), Hnc. }
  rewrite (bind_ok _ _ _ _ _ Hin). unfold bind at 1, ret at 1.
  unfold bind at 1, gets at 1. rewrite (cell_lookup _ _ _ Hl).
  now apply (recompose_props_flat _ _ l s d None Hl Hu d []).
Qed.

(** X12. A record whose values are all primitive and that has no [__closure]:
    [recompose_base] returns an object with the record's properties, in the
    record's order, and leaves the store as it is. No transport is needed,
    none is asked. *)
Theorem flat_record_recomposes fuel s l d :
  heap_of s !! l = Some d ->
  d <> [] ->
  unique_names (dict_keys d) = true ->
  Forall (fun kv => is_primitive (snd kv) = true) d ->
  dict_get "__closure" d = None ->
  recompose_base (S fuel) (VDict l) s = Ok (VBase d None) s.
Proof. apply recompose_base_flat. Qed.


End FlatRecords.

(** X14. [detach_helper]: for every level open in the lineage, the depth kept
    for the hash becomes the current depth of the detach stack unless a
    smaller one is kept already; the depths kept for other hashes and the
    entries of other levels are as before. It returns a new dictionary, the
    reference marker. *)
Theorem detach_helper_keeps_minimum key s :
  exists s',
    detach_helper (VStr key) s = Ok (VDict (List.length (heap_of s))) s' /\
    heap_of s'
    = heap_of s ++ [[("referencedId", VStr key); ("speckleType", VStr "reference")]] /\
    (forall p h, In p (lineage s) ->
       dict_get h (entry_or_empty (dict_get p (family_tree s')))
       = if String.eqb h key
         then Some (match dict_get key (entry_or_empty (dict_get p (family_tree s))) with
                    | Some d0 => Z.min (depth_of s) d0
                    | None => depth_of s
                    end)
         else dict_get h (entry_or_empty (dict_get p (family_tree s)))) /\
    (forall p, ~ In p (lineage s) ->
       dict_get p (family_tree s') = dict_get p (family_tree s)).
Proof.
  eexists. split; [reflexivity|]. cbn. split; [reflexivity|]. split.
  - intros p h Hp. rewrite (track_reference_parent p _ _ _ _ Hp).
    cbn [entry_or_empty]. apply note_reference_lookup.
  - intros p Hp. now apply track_reference_other.
Qed.

Lemma flat_record_recomposes_witness :
  @recompose_base no_floats 1 (VDict 0%nat)
    (bare_store [[("a", VInt 1); ("b", VStr "x"); ("d", VBool true)]])
  = Ok (VBase [("a", VInt 1); ("b", VStr "x"); ("d", VBool true)] None)
      (bare_store [[("a", VInt 1); ("b", VStr "x"); ("d", VBool true)]]).
Proof.
  apply (@flat_record_recomposes no_floats 0
           (bare_store [[("a", VInt 1); ("b", VStr "x"); ("d", VBool true)]]) 0%nat);
    try reflexivity; [discriminate|repeat constructor].
Defined.


(** * The fields of a record *)

Section RecordFields.
Context `{FloatText}.





(** X17. [traverse_base] leaves both stacks as its caller had them: the detach
    flag the caller pushed is popped, and so is the token the call itself
    pushed on the lineage. *)
Theorem traverse_base_restores_stacks ms hint fuel s detach :
  well_formed (CBase ms hint) = true ->
  (need (CBase ms hint) <= fuel)%nat ->
  fresh_tokens s ->
  exists hr s',
    traverse_base_on fuel (CBase ms hint) detach s = Ok hr s' /\
    detach_lineage s' = detach_lineage s /\
    lineage s' = lineage s.
Proof.
  intros Hwf Hfuel Hfr.
  destruct (traverse_base_hold ms hint fuel s detach Hwf Hfuel Hfr)
    as (s' & l & Hrun & _ & Hdl & Hlin & _).
  eauto.
Qed.

(** X18. [handle_value] gives plain data back as it is: the same value, and the
    store unchanged. *)
Theorem handle_value_returns_plain_data c fuel s :
  plain c = true ->
  (height c <= fuel)%nat ->
  handle_value fuel (fst (hold c s)) (snd (hold c s))
  = Ok (fst (hold c s)) (snd (hold c s)).
Proof.
  intros Hp Hh. unfold hold.
  destruct (alloc_content_layout c (heap_of s)) as (Hr & _).
  destruct (alloc_content c (heap_of s)) as [v h1]. cbn [fst snd] in *.
  apply (handle_plain c Hp fuel (with_heap (fun _ => h1) s) v
           (between (List.length (heap_of s)) (List.length h1))); [|exact Hh].
  now apply realises_reads.
Qed.

End RecordFields.

Lemma other_store_fresh h : fresh_tokens (other_store h).
Proof.
  split; [apply other_store_distinct|]. intros i _. split.
  - cbn. intros [E|[]]. discriminate.
  - reflexivity.
Qed.



Lemma traverse_base_restores_stacks_witness :
  exists hr s',
    @traverse_base_on no_floats 9 scenario_child true (other_store []) = Ok hr s' /\
    detach_lineage s' = [false; true] /\
    lineage s' = ["stale"].
Proof.
  exact (@traverse_base_restores_stacks no_floats
           [("@child", CBase [("x", CInt 5)] None)] None 9 (other_store []) true
           eq_refl ltac:(simpl; lia) (other_store_fresh [])).
Defined.

Lemma handle_value_returns_plain_data_witness :
  @handle_value no_floats 3 (fst (hold scenario_data (bare_store [])))
    (snd (hold scenario_data (bare_store [])))
  = Ok (fst (hold scenario_data (bare_store []))) (snd (hold scenario_data (bare_store []))).
Proof.
  apply (@handle_value_returns_plain_data no_floats scenario_data 3 (bare_store []));
    [reflexivity | simpl; lia].
Defined.

(** * Dictionaries on the way back *)

Section HandleDictionary.
Context `{FloatText}.

Lemma recomposed_entry_keys h d : dict_keys (map (recomposed_entry h) d) = dict_keys d.
Proof. unfold dict_keys. rewrite map_map. reflexivity. Qed.

Lemma handle_items_typed f s l d :
  (l < List.length (heap_of s))%nat ->
  unique_names (dict_keys d) = true ->
  Forall (fun kv : string * value =>
            is_primitive (snd kv) = true
            \/ exists lt dt, snd kv = VDict lt /\ lt <> l /\ heap_of s !! lt = Some dt /\
                 dt <> [] /\ dict_has "speckleType" dt = true /\ flat_record dt = true) d ->
  forall rest done,
    d = done ++ rest ->
    handle_items (handle_value (S (S f))) l (dict_keys rest)
      (with_heap (heap_store l (map (recomposed_entry (heap_of s)) done ++ rest)) s)
    = Ok tt (with_heap (heap_store l (map (recomposed_entry (heap_of s)) d)) s).
Proof.
  intros Hlt Hu HF. induction rest as [|[k v] rest IH]; intros done Hd.
  - rewrite app_nil_r in Hd. subst done. now rewrite app_nil_r.
  - assert (Hk : ~ In k (map fst (map (recomposed_entry (heap_of s)) done))).
    { rewrite map_map. cbn [recomposed_entry fst]. subst d.
      unfold dict_keys in Hu. rewrite map_app in Hu.
      exact (unique_names_app_cons _ _ _ Hu). }
    assert (Hv : In (k, v) d) by (subst d; apply in_or_app; right; now left).
    rewrite List.Forall_forall in HF. specialize (HF _ Hv). cbn [snd] in HF.
    assert (Hnext : d = (done ++ [(k, v)]) ++ rest) by (now rewrite <- app_assoc).
    cbn [dict_keys map fst handle_items]. unfold bind at 1, gets at 1.
    cbn [heap_of with_heap]. unfold cell at 1.
    rewrite heap_store_lookup_eq by exact Hlt. rewrite (dict_get_middle _ _ _ _ Hk).
    destruct HF as [Hp|(lt & dt & -> & Hne & Hlt' & Hdt & Htyped & Hflat)].
    + rewrite Hp. specialize (IH _ Hnext). rewrite map_app in IH. cbn [map] in IH.
      replace (recomposed_entry (heap_of s) (k, v)) with (k, v) in IH
        by (unfold recomposed_entry; cbn [fst snd]; destruct v; try reflexivity; discriminate).
      rewrite <- app_assoc in IH. exact IH.
    + cbn [is_primitive].
      set (s1 := with_heap (heap_store l
                   (map (recomposed_entry (heap_of s)) done ++ (k, VDict lt) :: rest)) s).
      assert (Hl1 : heap_of s1 !! lt = Some dt).
      { unfold s1. cbn [heap_of with_heap]. rewrite heap_store_lookup_ne by congruence.
        exact Hlt'. }
      unfold flat_record in Hflat.
      apply andb_true_iff in Hflat as [Hflat Hnc]. apply andb_true_iff in Hflat as [Hut Hpt].
      apply negb_true_iff in Hnc. rewrite forallb_Forall in Hpt.
      assert (Hhv : handle_value (S (S f)) (VDict lt) s1 = Ok (VBase dt None) s1).
      { cbn [handle_value]. unfold bind at 1, gets at 1.
        rewrite (cell_lookup _ _ _ Hl1), Htyped.
        apply (recompose_base_flat f s1 lt dt Hl1 Hdt Hut Hpt).
        unfold dict_has in Hnc. destruct (dict_get "__closure" dt); [discriminate|reflexivity]. }
      rewrite (bind_ok _ _ _ _ _ Hhv). unfold bind at 1, dict_setitem, modify.
      specialize (IH _ Hnext). rewrite map_app in IH. cbn [map] in IH.
      replace (recomposed_entry (heap_of s) (k, VDict lt)) with (k, VBase dt None) in IH
        by (unfold recomposed_entry; cbn [fst snd]; now rewrite (cell_lookup _ _ _ Hlt')).
      rewrite <- app_assoc in IH. cbn [app] in IH. rewrite <- IH. f_equal.
      unfold s1, with_heap. cbn [heap_of transports write_transports read_transport
        detach_lineage lineage family_tree closure_table uuid_source uuid_count].
      f_equal. unfold cell. rewrite heap_store_lookup_eq by exact Hlt.
      rewrite (dict_set_middle _ _ _ _ _ Hk). unfold heap_store.
      apply list_insert_insert_eq.
Qed.

(** X9. [handle_value] rewrites a dictionary in place. For a dictionary without
    [speckleType] whose values are primitive or are typed records that
    [recompose_base] copies, it returns the dictionary it was given, in
    which each typed record has been replaced by the object made of it;
    nothing else in the store changes. *)
Theorem handle_value_rewrites_dictionary f s l d :
  heap_of s !! l = Some d ->
  unique_names (dict_keys d) = true ->
  dict_has "speckleType" d = false ->
  Forall (fun kv : string * value =>
            is_primitive (snd kv) = true
            \/ exists lt dt, snd kv = VDict lt /\ lt <> l /\ heap_of s !! lt = Some dt /\
                 dt <> [] /\ dict_has "speckleType" dt = true /\ flat_record dt = true) d ->
  handle_value (S (S (S f))) (VDict l) s
  = Ok (VDict l) (with_heap (heap_store l (map (recomposed_entry (heap_of s)) d)) s).
Proof.
  intros Hl Hu Ht HF.
  assert (Hlt : (l < List.length (heap_of s))%nat) by (apply lookup_lt_is_Some; eauto).
  cbn [handle_value]. unfold bind at 1, gets at 1. rewrite (cell_lookup _ _ _ Hl), Ht.
  unfold bind at 1, gets at 1. rewrite (cell_lookup _ _ _ Hl).
  pose proof (handle_items_typed f s l d Hlt Hu HF d [] eq_refl) as Hloop.
  cbn [map app] in Hloop.
  assert (Hs : with_heap (heap_store l d) s = s).
  { apply with_heap_same. unfold heap_store. now apply list_insert_id. }
  rewrite Hs in Hloop. rewrite (bind_ok _ _ _ _ _ Hloop). reflexivity.
Qed.

End HandleDictionary.

Lemma handle_value_rewrites_dictionary_witness :
  @handle_value no_floats 3 (VDict 1%nat) (bare_store dictionary_with_typed_record)
  = Ok (VDict 1%nat)
      (bare_store [[("speckleType", VStr "T"); ("a", VInt 1)];
                   [("n", VInt 1);
                    ("k", VBase [("speckleType", VStr "T"); ("a", VInt 1)] None)]]).
Proof.
  apply (@handle_value_rewrites_dictionary no_floats 0
           (bare_store dictionary_with_typed_record) 1%nat
           [("n", VInt 1); ("k", VDict 0%nat)]); try reflexivity.
  constructor; [now left|]. constructor; [|constructor]. right.
  exists 0%nat, [("speckleType", VStr "T"); ("a", VInt 1)].
  repeat split; try reflexivity; discriminate.
Defined.

(** * Records and where an object sits *)

Section RecordsAndPlaces.
Context `{FloatText}.



(** X20. The record of an object does not depend on where the object sits:
    called at any two points of a traversal, however deep the stacks are
    and whatever tokens are drawn, [traverse_base] returns the same hash and
    builds records with the same content, depths of the manifest included. *)
Theorem record_is_independent_of_position ms hint fuel s1 s2 detach1 detach2 :
  well_formed (CBase ms hint) = true ->
  (need (CBase ms hint) <= fuel)%nat ->
  fresh_tokens s1 -> fresh_tokens s2 ->
  exists hash l1 l2 s1' s2' record,
    traverse_base_on fuel (CBase ms hint) detach1 s1 = Ok (hash, VDict l1) s1' /\
    traverse_base_on fuel (CBase ms hint) detach2 s2 = Ok (hash, VDict l2) s2' /\
    snapshot fuel (heap_of s1') (VDict l1) = Some record /\
    snapshot fuel (heap_of s2') (VDict l2) = Some record.
Proof.
  intros Hwf Hfuel Hf1 Hf2.
  destruct (traverse_base_hold ms hint fuel s1 detach1 Hwf Hfuel Hf1)
    as (s1' & l1 & Hrun1 & Hsnap1 & _).
  destruct (traverse_base_hold ms hint fuel s2 detach2 Hwf Hfuel Hf2)
    as (s2' & l2 & Hrun2 & Hsnap2 & _).
  exists (id_of (record_of (CBase ms hint))), l1, l2, s1', s2', (record_of (CBase ms hint)).
  repeat split; assumption.
Qed.


(** X22. A record without [__closure] that holds a reference, with no read
    transport configured: [recompose_base] raises [AttributeError], from the
    call on the missing transport, and not the configuration error, which
    is raised only for a record that has a [__closure]. The store is as it
    was. *)
Theorem reference_without_read_transport fuel s l pre prop lm rest dm ref_hash :
  heap_of s !! l = Some (pre ++ (prop, VDict lm) :: rest) ->
  Forall (fun kv => is_primitive (snd kv) = true) pre ->
  dict_get prop pre = None ->
  dict_get "__closure" (pre ++ (prop, VDict lm) :: rest) = None ->
  heap_of s !! lm = Some dm ->
  dict_get "referencedId" dm = Some ref_hash ->
  read_transport s = None ->
  recompose_base (S fuel) (VDict l) s = Raise AttributeError s.
Proof.
  intros Hl Hpre Hprop Hnc Hm Hr Hrt.
  rewrite (recompose_base_enter fuel s l _ Hl) by (now destruct pre).
  assert (Hin : py_in "__closure" (VDict l) s = Ok false s).
  { cbn [py_in]. unfold gets, dict_has, cell. now rewrite Hl, Hnc. }
  rewrite (bind_ok _ _ _ _ _ Hin). unfold bind at 1, ret at 1.
  unfold bind at 1, gets at 1.
  assert (Hcell : cell (heap_of s) l = pre ++ (prop, VDict lm) :: rest).
  { unfold cell. now rewrite Hl. }
  rewrite Hcell. unfold dict_keys. rewrite map_app. cbn [map fst].
  destruct (recompose_props_primitives (recompose_base fuel) (handle_value fuel) l s
              (map fst pre) (prop :: map fst rest) [] None) as (ms' & -> & _).
  { intros k Hk. rewrite Hcell.
    destruct (dict_get_in_keys k pre Hk) as (v & G & Hv).
    exists v. split; [now apply dict_get_prefix|].
    rewrite List.Forall_forall in Hpre. exact (Hpre _ Hv). }
  cbn [recompose_props]. unfold bind at 1, gets at 1.
  rewrite Hcell, dict_get_app, Hprop. cbn [dict_get]. rewrite String.eqb_refl.
  cbn [is_primitive]. unfold bind at 1. cbn [py_in]. unfold gets at 1.
  rewrite (cell_lookup _ _ _ Hm). unfold dict_has. rewrite Hr.
  unfold bind at 1. cbn [py_getitem]. unfold bind at 1, gets at 1.
  rewrite (cell_lookup _ _ _ Hm), Hr. unfold ret at 1.
  unfold bind at 1, read_object. unfold bind at 1, gets at 1. rewrite Hrt. reflexivity.
Qed.

End RecordsAndPlaces.


Lemma record_is_independent_of_position_witness :
  exists hash l1 l2 s1' s2' record,
    @traverse_base_on no_floats 9 scenario_child true (memory_store [])
    = Ok (hash, VDict l1) s1' /\
    @traverse_base_on no_floats 9 scenario_child false (other_store [])
    = Ok (hash, VDict l2) s2' /\
    snapshot 9 (heap_of s1') (VDict l1) = Some record /\
    snapshot 9 (heap_of s2') (VDict l2) = Some record.
Proof.
  exact (@record_is_independent_of_position no_floats
           [("@child", CBase [("x", CInt 5)] None)] None 9
           (memory_store []) (other_store []) true false
           eq_refl ltac:(simpl; lia) (memory_store_fresh []) (other_store_fresh [])).
Defined.


Lemma reference_without_read_transport_witness :
  @recompose_base no_floats 1 (VDict 0%nat) (bare_store record_with_reference)
  = Raise AttributeError (bare_store record_with_reference).
Proof.
  apply (@reference_without_read_transport no_floats 0 (bare_store record_with_reference)
           0%nat [("id", VStr "r")] "@c" 1%nat []
           [("referencedId", VStr "H"); ("speckleType", VStr "reference")] (VStr "H"));
    try reflexivity.
  repeat constructor.
Defined.
